(** * The TSM file format of the vendored tsm1 engine: writer, indexes, reader

    A shallow embedding of the tsm1 data file code (header, blocks, index,
    footer) with its two index representations and of the block framing
    beside it, the properties of it that the specification states, and
    further properties of the code.

    Conventions of the embedding.
    - A byte slice is a [list byte]; a slice expression [b[i:j]] is [slice],
      which fails where Go panics.  Slices are taken with capacity equal to
      length.
    - Go's fixed-width integers are [Z] with the conversions written out
      ([to_uint16], [to_int32], [to_int64], ...).  [int] is 64 bits wide.
    - A [time.Time] is the instant it denotes, as a count of nanoseconds
      since the Unix epoch; [time_Unix] builds one, [UnixNano] reads it back
      with the wrap-around of the [int64] result.
    - A call returns a [result]: a value, an [error], or a panic.
    - What the Go standard library provides ([sort.Sort], [sort.Search],
      [bytes.Buffer], [bytes.Reader], [crc32], [binary.PutUvarint] and
      [binary.Uvarint]) is modelled next to its use. *)

From Stdlib Require Import ZArith Lia Strings.Byte.
From stdpp Require Import gmap strings list sorting.

Local Open Scope Z_scope.

(** ** Results of calls *)

Inductive result (A : Type) : Type :=
  | Ok (a : A)
  | Err (e : string)
  | Panic (msg : string).
Arguments Ok {A} a.
Arguments Err {A} e.
Arguments Panic {A} msg.

Definition rbind {A B} (r : result A) (k : A -> result B) : result B :=
  match r with
  | Ok a => k a
  | Err e => Err e
  | Panic m => Panic m
  end.

Notation "'let*' x ':=' r 'in' k" := (rbind r (fun x => k))
  (at level 10, x pattern, r at level 100, k at level 200, only parsing).

Definition is_Ok {A} (r : result A) : bool :=
  match r with Ok _ => true | _ => false end.

Definition is_Err {A} (r : result A) : bool :=
  match r with Err _ => true | _ => false end.

(** ** Machine integers *)

Definition to_uint16 (z : Z) : Z := z mod 2 ^ 16.
Definition to_uint32 (z : Z) : Z := z mod 2 ^ 32.
Definition to_uint64 (z : Z) : Z := z mod 2 ^ 64.
Definition to_int32 (z : Z) : Z := (z + 2 ^ 31) mod 2 ^ 32 - 2 ^ 31.
Definition to_int64 (z : Z) : Z := (z + 2 ^ 63) mod 2 ^ 64 - 2 ^ 63.

Definition len {A} (l : list A) : Z := Z.of_nat (length l).

(** ** Bytes and slices *)

Definition byte_to_Z (b : byte) : Z := Z.of_N (Byte.to_N b).

(** [byte(v)]: the low eight bits. *)
Definition byte_of_Z (z : Z) : byte :=
  default x00 (Byte.of_N (Z.to_N (z mod 256))).

(** [b[i:j]]; Go panics unless [0 <= i <= j <= cap(b)]. *)
Definition slice (b : list byte) (i j : Z) : result (list byte) :=
  if (0 <=? i) && (i <=? j) && (j <=? len b)
  then Ok (take (Z.to_nat (j - i)) (drop (Z.to_nat i) b))
  else Panic "slice bounds out of range".

(** [b[i:]] *)
Definition slice_from (b : list byte) (i : Z) : result (list byte) :=
  slice b i (len b).

Definition bytes_of_string (s : string) : list byte := String.list_byte_of_string s.
Definition string_of_bytes (b : list byte) : string := String.string_of_list_byte b.

(** ** Big-endian integers

    [u16tob] and [btou16] are [binary.BigEndian.PutUint16] and [Uint16]. *)

Definition u16tob (v : Z) : list byte :=
  [byte_of_Z (Z.shiftr v 8); byte_of_Z v].

Definition btou16 (b : list byte) : Z :=
  match b with
  | b0 :: b1 :: _ => Z.lor (byte_to_Z b1) (Z.shiftl (byte_to_Z b0) 8)
  | _ => 0
  end.

(** [n] bytes of [v], most significant first. *)
Fixpoint be_put (n : nat) (v : Z) : list byte :=
  match n with
  | O => []
  | S k => byte_of_Z (Z.shiftr v (8 * Z.of_nat k)) :: be_put k v
  end.

Definition be_get (b : list byte) : Z :=
  fold_left (fun acc x => acc * 256 + byte_to_Z x) b 0.

(** Modelled from the spec: [u32tob], [u64tob], [btou32] and [btou64] are
    called by the index and writer code but defined in a file that is not
    part of the sources; the wire format is "MSB-first" fixed-width
    integers, as [u16tob] and [btou16] beside them are. *)
Definition u32tob (v : Z) : list byte := be_put 4 v.
Definition u64tob (v : Z) : list byte := be_put 8 v.
Definition btou32 (b : list byte) : Z := be_get (take 4 b).
Definition btou64 (b : list byte) : Z := be_get (take 8 b).

(** ** Time *)

Abbreviation Time := Z.

Definition time_Unix (sec nsec : Z) : Time := sec * 1000000000 + nsec.
Definition UnixNano (t : Time) : Z := to_int64 t.
Definition Time_Equal (t u : Time) : bool := t =? u.
Definition Time_Before (t u : Time) : bool := t <? u.
Definition Time_After (t u : Time) : bool := t >? u.

(** ** Constants *)

Definition MagicNumber : Z := 0x16D116D1.
Definition Version : byte := x01.
Definition indexEntrySize : Z := 28.

(** ** IndexEntry *)

Record IndexEntry : Type := mkIndexEntry {
  MinTime : Time;
  MaxTime : Time;
  Offset : Z;
  Size : Z
}.

Abbreviation indexEntries := (list IndexEntry).

Definition IndexEntry_UnmarshalBinary (b : list byte) : result IndexEntry :=
  if negb (len b =? indexEntrySize) then Err "unmarshalBinary: short buf"
  else
    let* b0 := slice b 0 8 in
    let* b1 := slice b 8 16 in
    let* b2 := slice b 16 24 in
    let* b3 := slice b 24 28 in
    Ok {| MinTime := time_Unix 0 (to_int64 (btou64 b0));
          MaxTime := time_Unix 0 (to_int64 (btou64 b1));
          Offset := to_int64 (btou64 b2);
          Size := btou32 b3 |}.

(** The precedence of [&&] over [||] gives the grouping below. *)
Definition Contains (e : IndexEntry) (t : Time) : bool :=
  Time_Equal (MinTime e) t
  || (Time_Before (MinTime e) t && Time_Equal (MaxTime e) t)
  || Time_After (MaxTime e) t.

(** [indexEntries.Less], on the two elements compared. *)
Definition Less (x y : IndexEntry) : bool :=
  UnixNano (MinTime x) <? UnixNano (MinTime y).

(** ** String order

    Go compares strings byte by byte; [string_ltb] is its [<]. *)

Fixpoint string_ltb (s1 s2 : string) : bool :=
  match s1, s2 with
  | EmptyString, EmptyString => false
  | EmptyString, String _ _ => true
  | String _ _, EmptyString => false
  | String a s1', String b s2' =>
      if (Ascii.N_of_ascii a <? Ascii.N_of_ascii b)%N then true
      else if (Ascii.N_of_ascii a =? Ascii.N_of_ascii b)%N then string_ltb s1' s2'
      else false
  end.

Definition string_lt (s1 s2 : string) : Prop := string_ltb s1 s2 = true.
Definition string_le (s1 s2 : string) : Prop := string_ltb s2 s1 = false.

#[global] Instance string_le_dec : RelDecision string_le.
Proof. intros x y. unfold string_le. apply _. Defined.

(** [sort.Strings]: ascending order. *)
Definition sort_Strings (keys : list string) : list string :=
  merge_sort string_le keys.

(** ** [sort.Sort] on [indexEntries]

    The library function is taken by its contract: the result holds the
    same elements, and no element is [Less] than one before it.  The
    contract says nothing on the order of elements that compare equal
    ("The sort is not guaranteed to be stable"). *)

Definition not_Less_rev (x y : IndexEntry) : Prop := Less y x = false.

Class SortImpl : Type := {
  sort_Sort : indexEntries -> indexEntries;
  sort_Sort_perm : forall l, sort_Sort l ≡ₚ l;
  sort_Sort_sorted : forall l, StronglySorted not_Less_rev (sort_Sort l)
}.

(** ** The direct index *)

Abbreviation directIndex := (gmap string indexEntries).

Definition NewDirectIndex : directIndex := ∅.

(** [d.blocks[key]]: the nil slice for a key that is not in the map. *)
Definition Entries (d : directIndex) (key : string) : indexEntries :=
  default [] (d !! key).

Definition Add (d : directIndex) (key : string) (minTime maxTime : Time)
    (offset size : Z) : directIndex :=
  <[key := Entries d key ++
           [{| MinTime := minTime; MaxTime := maxTime;
               Offset := offset; Size := size |}]]> d.

Definition Entry (d : directIndex) (key : string) (t : Time) : option IndexEntry :=
  find (fun entry => Contains entry t) (Entries d key).

Definition addEntries (d : directIndex) (key : string) (entries : indexEntries)
    : directIndex :=
  <[key := Entries d key ++ entries]> d.

Definition marshalEntry (entry : IndexEntry) : list byte :=
  u64tob (to_uint64 (UnixNano (MinTime entry)))
  ++ u64tob (to_uint64 (UnixNano (MaxTime entry)))
  ++ u64tob (to_uint64 (Offset entry))
  ++ u32tob (Size entry).

(** What [MarshalBinary] appends for one key. *)
Definition marshalKey (key : string) (entries : indexEntries) : list byte :=
  u16tob (to_uint16 (len (bytes_of_string key)))
  ++ bytes_of_string key
  ++ u16tob (to_uint16 (len entries))
  ++ flat_map marshalEntry entries.

Section direct_marshal.
Context {srt : SortImpl}.

(** One round of the loop over the sorted keys.  [entries] shares its
    array with [d.blocks[key]], so sorting it sorts the list the map
    holds. *)
Definition MarshalBinary_step (st : directIndex * list byte) (key : string)
    : directIndex * list byte :=
  let entries := sort_Sort (Entries st.1 key) in
  (<[key := entries]> st.1, st.2 ++ marshalKey key entries).

(** Returns the index as the call leaves it, and the bytes. *)
Definition MarshalBinary (d : directIndex) : directIndex * list byte :=
  let keys := sort_Strings (map_to_list d).*1 in
  fold_left MarshalBinary_step keys (d, []).
End direct_marshal.

(** [readKey]; [directIndex] and [indirectIndex] each have a method of
    this body. *)
Definition readKey (b : list byte) : result (Z * string) :=
  let* b2 := slice b 0 2 in
  let n := 2 in
  let size := btou16 b2 in
  let* kb := slice b n (n + size) in
  let key := string_of_bytes kb in
  Ok (n + len (bytes_of_string key), key).

Fixpoint readEntries_loop (b : list byte) (count : nat) (i n : Z)
    (entries : indexEntries) : result (Z * indexEntries) :=
  match count with
  | O => Ok (n, entries)
  | S count' =>
      let* s := slice b (i * indexEntrySize + 2)
                        (i * indexEntrySize + 2 + indexEntrySize) in
      match IndexEntry_UnmarshalBinary s with
      | Ok ie => readEntries_loop b count' (i + 1) (n + indexEntrySize)
                                  (entries ++ [ie])
      | Err _ => Err "readEntries: unmarshal error"
      | Panic m => Panic m
      end
  end.

(** [readEntries], likewise shared by the two indexes. *)
Definition readEntries (b : list byte) : result (Z * indexEntries) :=
  let* b2 := slice b 0 2 in
  readEntries_loop b (Z.to_nat (btou16 b2)) 0 2 [].

(** The loop of [directIndex.UnmarshalBinary] from position [pos].  Every
    round moves [pos] forward by four bytes or more, so [fuel] rounds are
    enough when [fuel] exceeds the length of [b]. *)
Fixpoint UnmarshalBinary_loop (fuel : nat) (d : directIndex) (b : list byte)
    (pos : Z) : directIndex * result unit :=
  if negb (pos <? len b) then (d, Ok tt)
  else match fuel with
  | O => (d, Panic "unreachable")
  | S fuel' =>
      match (let* bk := slice_from b pos in readKey bk) with
      | Panic m => (d, Panic m)
      | Err _ => (d, Err "readIndex: read key error")
      | Ok (n, key) =>
          let pos := pos + n in
          match (let* be := slice_from b pos in readEntries be) with
          | Panic m => (d, Panic m)
          | Err _ => (d, Err "readIndex: read entries error")
          | Ok (n, entries) =>
              let pos := pos + n in
              UnmarshalBinary_loop fuel' (addEntries d key entries) b pos
          end
      end
  end.

Definition UnmarshalBinary (d : directIndex) (b : list byte)
    : directIndex * result unit :=
  UnmarshalBinary_loop (S (length b)) d b 0.

(** ** [sort.Search]

    Binary search for the least index in [0, n) at which [f] holds, as the
    library writes it; [f] may panic. *)
Fixpoint Search_loop (fuel : nat) (f : Z -> result bool) (i j : Z) : result Z :=
  if negb (i <? j) then Ok i
  else match fuel with
  | O => Panic "unreachable"
  | S fuel' =>
      let h := i + (j - i) / 2 in
      let* r := f h in
      if negb r then Search_loop fuel' f (h + 1) j
      else Search_loop fuel' f i h
  end.

Definition sort_Search (n : Z) (f : Z -> result bool) : result Z :=
  Search_loop (Z.to_nat n) f 0 n.

(** ** The indirect index *)

Record indirectIndex : Type := mkIndirectIndex {
  ind_b : list byte;
  ind_offsets : list Z
}.

Definition NewIndirectIndex : indirectIndex :=
  {| ind_b := []; ind_offsets := [] |}.

Definition indirect_Add (d : indirectIndex) (key : string)
    (minTime maxTime : Time) (offset size : Z) : result unit :=
  Panic "unsupported operation".

(** [d.offsets[i]]; an index out of range panics. *)
Definition offset_at (d : indirectIndex) (i : Z) : result Z :=
  if (0 <=? i) && (i <? len (ind_offsets d))
  then Ok (nth (Z.to_nat i) (ind_offsets d) 0)
  else Panic "index out of range".

(** The closure [indirectIndex.Entries] hands to [sort.Search]. *)
Definition indirect_probe (d : indirectIndex) (key : string) (i : Z)
    : result bool :=
  let* offset := offset_at d i in
  let* b2 := slice (ind_b d) offset (to_int32 (offset + 2)) in
  let keyLen := to_int32 (btou16 b2) in
  let* kb := slice (ind_b d) (to_int32 (offset + 2))
                   (to_int32 (to_int32 (offset + 2) + keyLen)) in
  let k := string_of_bytes kb in
  Ok (String.eqb key k || string_ltb key k).

Definition indirect_Entries (d : indirectIndex) (key : string)
    : result indexEntries :=
  let* i := sort_Search (len (ind_offsets d)) (indirect_probe d key) in
  if i <? len (ind_offsets d) then
    let* ofs := offset_at d i in
    let* bk := slice_from (ind_b d) ofs in
    match readKey bk with
    | Panic m => Panic m
    | Err _ => Panic "error reading key"
    | Ok (n, k) =>
        if negb (String.eqb k key) then Ok []
        else
          let ofs := to_int32 (ofs + to_int32 n) in
          let* be := slice_from (ind_b d) ofs in
          match readEntries be with
          | Panic m => Panic m
          | Err _ => Panic "error reading entries"
          | Ok (_, entries) => Ok entries
          end
    end
  else Ok [].

Definition indirect_Entry (d : indirectIndex) (key : string) (timestamp : Time)
    : result (option IndexEntry) :=
  let* entries := indirect_Entries d key in
  Ok (find (fun entry => Contains entry timestamp) entries).

Definition indirect_MarshalBinary (d : indirectIndex) : list byte := ind_b d.

(** The sweep of [indirectIndex.UnmarshalBinary]; [i] is an [int32]. *)
Fixpoint indirect_Unmarshal_loop (fuel : nat) (b : list byte) (offsets : list Z)
    (i : Z) : list Z * result unit :=
  if negb (i <? to_int32 (len b)) then (offsets, Ok tt)
  else match fuel with
  | O => (offsets, Panic "unreachable")
  | S fuel' =>
      let offsets := offsets ++ [i] in
      match slice b i (to_int32 (i + 2)) with
      | Panic m => (offsets, Panic m)
      | Err e => (offsets, Err e)
      | Ok b2 =>
          let keyLen := to_int32 (btou16 b2) in
          let i := to_int32 (i + 2) in
          let i := to_int32 (i + keyLen) in
          match slice b i (to_int32 (i + 2)) with
          | Panic m => (offsets, Panic m)
          | Err e => (offsets, Err e)
          | Ok c2 =>
              let count := to_int32 (btou16 c2) in
              let i := to_int32 (i + 2) in
              let i := to_int32 (i + to_int32 (count * indexEntrySize)) in
              indirect_Unmarshal_loop fuel' b offsets i
          end
      end
  end.

Definition indirect_UnmarshalBinary (d : indirectIndex) (b : list byte)
    : indirectIndex * result unit :=
  let r := indirect_Unmarshal_loop (S (length b)) b (ind_offsets d) 0 in
  ({| ind_b := b; ind_offsets := r.1 |}, r.2).

(** ** Values and the block codec

    A [float64] is carried as its bit pattern; nothing computes with it.
    [Values.Encode] and [DecodeBlock] dispatch on the type of the values
    and on the type byte of the block; the per-type block encoders and
    decoders rest on stream codecs (timestamps, floats, ...) that are not
    part of the sources, so they are taken as an interface, with the
    constant [tsdb.EOF]. *)

Inductive Value : Type :=
  | FloatValue (time : Time) (value : Z)
  | Int64Value (time : Time) (value : Z)
  | BoolValue (time : Time) (value : bool)
  | StringValue (time : Time) (value : string)
  | EmptyValue.

Abbreviation Values := (list Value).

Class BlockCodec : Type := {
  tsdb_EOF : Z;
  encodeFloatBlock : Values -> result (list byte);
  encodeInt64Block : Values -> result (list byte);
  encodeBoolBlock : Values -> result (list byte);
  encodeStringBlock : Values -> result (list byte);
  decodeFloatBlock : list byte -> result Values;
  decodeInt64Block : list byte -> result Values;
  decodeBoolBlock : list byte -> result Values;
  decodeStringBlock : list byte -> result Values
}.

Definition BlockFloat64 : Z := 0.
Definition BlockInt64 : Z := 1.
Definition BlockBool : Z := 2.
Definition BlockString : Z := 3.
Definition encodedBlockHeaderSize : Z := 9.

Section codec.
Context {codec : BlockCodec}.

Definition Value_Time (v : Value) : Time :=
  match v with
  | FloatValue t _ | Int64Value t _ | BoolValue t _ | StringValue t _ => t
  | EmptyValue => time_Unix 0 tsdb_EOF
  end.

Definition Values_Encode (a : Values) : result (list byte) :=
  match a with
  | [] => Panic "unable to encode block type"
  | FloatValue _ _ :: _ => encodeFloatBlock a
  | Int64Value _ _ :: _ => encodeInt64Block a
  | BoolValue _ _ :: _ => encodeBoolBlock a
  | StringValue _ _ :: _ => encodeStringBlock a
  | EmptyValue :: _ => Err "unsupported value type"
  end.

(** The values [DecodeBlock] appends to [*vals]. *)
Definition DecodeBlock (block : list byte) : result Values :=
  if len block <=? encodedBlockHeaderSize then Panic "decode of short block"
  else
    let blockType := byte_to_Z (nth 8 block x00) in
    if blockType =? BlockFloat64 then decodeFloatBlock block
    else if blockType =? BlockInt64 then decodeInt64Block block
    else if blockType =? BlockBool then decodeBoolBlock block
    else if blockType =? BlockString then decodeStringBlock block
    else Panic "unknown block type".
End codec.

(** ** [crc32.ChecksumIEEE]

    The reflected CRC-32 of polynomial [0xEDB88320], one bit at a time. *)

Definition crc32_bit (crc : Z) : Z :=
  if Z.testbit crc 0 then Z.lxor (Z.shiftr crc 1) 0xEDB88320
  else Z.shiftr crc 1.

Definition crc32_byte (crc : Z) (b : byte) : Z :=
  Nat.iter 8 crc32_bit (Z.lxor crc (byte_to_Z b)).

Definition crc32_ChecksumIEEE (data : list byte) : Z :=
  Z.lxor (fold_left crc32_byte data 0xFFFFFFFF) 0xFFFFFFFF.

(** ** The writer

    The sink is a [bytes.Buffer], as in the package's tests: [Write]
    appends and reports no error. *)

Definition Buffer_Write (buf p : list byte) : list byte * (Z * option string) :=
  (buf ++ p, (len p, None)).

Record tsmWriter : Type := mkWriter {
  w_w : list byte;
  w_index : directIndex;
  w_n : Z
}.

Definition NewTSMWriter (w : list byte) : result tsmWriter :=
  let '(w, (n, err)) := Buffer_Write w (u32tob MagicNumber ++ [Version]) in
  match err with
  | Some e => Err e
  | None => Ok {| w_w := w; w_index := ∅; w_n := n |}
  end.

Section writer.
Context {codec : BlockCodec} {srt : SortImpl}.

Definition Write (t : tsmWriter) (key : string) (values : Values)
    : tsmWriter * result unit :=
  match Values_Encode values with
  | Panic m => (t, Panic m)
  | Err e => (t, Err e)
  | Ok block =>
      let checksum := crc32_ChecksumIEEE block in
      let '(w, (n, err)) := Buffer_Write (w_w t) (u32tob checksum ++ block) in
      let t := {| w_w := w; w_index := w_index t; w_n := w_n t |} in
      match err with
      | Some e => (t, Err e)
      | None =>
          match head values, last values with
          | Some v0, Some vl =>
              let index := Add (w_index t) key (Value_Time v0) (Value_Time vl)
                               (w_n t) (to_uint32 n) in
              ({| w_w := w; w_index := index; w_n := to_int64 (w_n t + n) |},
               Ok tt)
          | _, _ => (t, Panic "index out of range")
          end
      end
  end.

Definition Close (t : tsmWriter) : tsmWriter * result unit :=
  let indexPos := w_n t in
  let '(index, b) := MarshalBinary (w_index t) in
  let '(w, (_, err)) :=
    Buffer_Write (w_w t) (b ++ u64tob (to_uint64 indexPos)) in
  let t := {| w_w := w; w_index := index; w_n := w_n t |} in
  match err with
  | Some e => (t, Err e)
  | None => (t, Ok tt)
  end.
End writer.

(** ** The reader

    The source is a [bytes.Reader] over the file's bytes, as in the
    package's tests. *)

Record bytesReader : Type := mkBytesReader {
  r_s : list byte;
  r_i : Z
}.

Definition SEEK_SET : Z := 0.
Definition SEEK_CUR : Z := 1.
Definition SEEK_END : Z := 2.

Definition Reader_Seek (r : bytesReader) (offset whence : Z)
    : bytesReader * result Z :=
  let abs :=
    if whence =? SEEK_SET then Some offset
    else if whence =? SEEK_CUR then Some (r_i r + offset)
    else if whence =? SEEK_END then Some (len (r_s r) + offset)
    else None in
  match abs with
  | None => (r, Err "bytes.Reader.Seek: invalid whence")
  | Some abs =>
      if abs <? 0 then (r, Err "bytes.Reader.Seek: negative position")
      else ({| r_s := r_s r; r_i := abs |}, Ok abs)
  end.

(** [Read] into a buffer of [blen] bytes: the bytes copied to its front.
    Their number is the [n] that the call returns.  An empty buffer is
    served before the end of the data is looked at; the reader below
    never passes an empty buffer at or past the end, so the order of the
    two tests does not show. *)
Definition Reader_Read (r : bytesReader) (blen : Z)
    : bytesReader * result (list byte) :=
  if blen =? 0 then (r, Ok [])
  else if len (r_s r) <=? r_i r then (r, Err "EOF")
  else
    let data := take (Z.to_nat blen) (drop (Z.to_nat (r_i r)) (r_s r)) in
    ({| r_s := r_s r; r_i := r_i r + len data |}, Ok data).

(** [make([]byte, n)] *)
Definition make_bytes (n : Z) : result (list byte) :=
  if n <? 0 then Panic "makeslice: len out of range"
  else Ok (replicate (Z.to_nat n) x00).

(** The buffer after [Read] copied [data] to its front. *)
Definition filled (b data : list byte) : list byte :=
  data ++ drop (length data) b.

Record tsmReader : Type := mkReader {
  t_r : bytesReader;
  t_indexStart : Z;
  t_indexEnd : Z;
  t_index : directIndex
}.

Definition with_r (t : tsmReader) (r : bytesReader) : tsmReader :=
  {| t_r := r; t_indexStart := t_indexStart t; t_indexEnd := t_indexEnd t;
     t_index := t_index t |}.

Definition init (t : tsmReader) : tsmReader * result unit :=
  match Reader_Seek (t_r t) 0 SEEK_END with
  | (r, Panic m) => (with_r t r, Panic m)
  | (r, Err _) => (with_r t r, Err "init: failed to seek")
  | (r, Ok size) =>
  let t := {| t_r := r; t_indexStart := t_indexStart t;
              t_indexEnd := to_int64 (size - 8); t_index := t_index t |} in
  match Reader_Seek (t_r t) (-8) SEEK_END with
  | (r, Panic m) => (with_r t r, Panic m)
  | (r, Err _) => (with_r t r, Err "init: failed to seek to index ptr")
  | (r, Ok _) =>
  let t := with_r t r in
  match Reader_Read (t_r t) 8 with
  | (r, Panic m) => (with_r t r, Panic m)
  | (r, Err _) => (with_r t r, Err "init: failed to read index ptr")
  | (r, Ok data) =>
  let b := filled (replicate 8 x00) data in
  let t := {| t_r := r; t_indexStart := to_int64 (btou64 b);
              t_indexEnd := t_indexEnd t; t_index := t_index t |} in
  match Reader_Seek (t_r t) (t_indexStart t) SEEK_SET with
  | (r, Panic m) => (with_r t r, Panic m)
  | (r, Err _) => (with_r t r, Err "init: failed to seek to index")
  | (r, Ok _) =>
  let t := with_r t r in
  match make_bytes (to_int64 (t_indexEnd t - t_indexStart t)) with
  | Panic m => (t, Panic m)
  | Err e => (t, Err e)
  | Ok b =>
  let t := {| t_r := t_r t; t_indexStart := t_indexStart t;
              t_indexEnd := t_indexEnd t; t_index := ∅ |} in
  match Reader_Read (t_r t) (len b) with
  | (r, Panic m) => (with_r t r, Panic m)
  | (r, Err _) => (with_r t r, Err "init: read index")
  | (r, Ok data) =>
  let b := filled b data in
  let t := with_r t r in
  match UnmarshalBinary (t_index t) b with
  | (index, Panic m) =>
      ({| t_r := t_r t; t_indexStart := t_indexStart t;
          t_indexEnd := t_indexEnd t; t_index := index |}, Panic m)
  | (index, Err _) =>
      ({| t_r := t_r t; t_indexStart := t_indexStart t;
          t_indexEnd := t_indexEnd t; t_index := index |},
       Err "init: unmarshal error")
  | (index, Ok _) =>
      ({| t_r := t_r t; t_indexStart := t_indexStart t;
          t_indexEnd := t_indexEnd t; t_index := index |}, Ok tt)
  end end end end end end end.

Definition NewTSMReader (r : bytesReader) : result tsmReader :=
  let t := {| t_r := r; t_indexStart := 0; t_indexEnd := 0; t_index := ∅ |} in
  match init t with
  | (t, Ok _) => Ok t
  | (_, Err e) => Err e
  | (_, Panic m) => Panic m
  end.

Section reader.
Context {codec : BlockCodec}.

(** Seek to the block, read into [b] (grown when the block is larger) and
    decode what was read past the checksum.  Returns the buffer length
    with the values, for the next round of [ReadAll]. *)
Definition readBlock (r : bytesReader) (blen : Z) (block : IndexEntry)
    : bytesReader * result (Z * Values) :=
  match Reader_Seek r (Offset block) SEEK_SET with
  | (r, Panic m) => (r, Panic m)
  | (r, Err e) => (r, Err e)
  | (r, Ok _) =>
      let blen := if blen <? Size block then Size block else blen in
      match Reader_Read r blen with
      | (r, Panic m) => (r, Panic m)
      | (r, Err e) => (r, Err e)
      | (r, Ok data) =>
          let n := len data in
          (r, let* payload := slice data 4 n in
              let* values := DecodeBlock payload in
              Ok (blen, values))
      end
  end.

Definition Read (t : tsmReader) (key : string) (timestamp : Time)
    : tsmReader * result Values :=
  match Entry (t_index t) key timestamp with
  | None => (t, Ok [])
  | Some block =>
      match readBlock (t_r t) (16 * 1024) block with
      | (r, Ok (_, values)) => (with_r t r, Ok values)
      | (r, Err e) => (with_r t r, Err e)
      | (r, Panic m) => (with_r t r, Panic m)
      end
  end.

Fixpoint ReadAll_loop (r : bytesReader) (blen : Z) (values : Values)
    (blocks : indexEntries) : bytesReader * result Values :=
  match blocks with
  | [] => (r, Ok values)
  | block :: blocks' =>
      match readBlock r blen block with
      | (r, Ok (blen, temp)) => ReadAll_loop r blen (values ++ temp) blocks'
      | (r, Err e) => (r, Err e)
      | (r, Panic m) => (r, Panic m)
      end
  end.

Definition ReadAll (t : tsmReader) (key : string) : tsmReader * result Values :=
  let blocks := Entries (t_index t) key in
  if len blocks =? 0 then (t, Ok [])
  else
    let '(r, res) := ReadAll_loop (t_r t) (16 * 1024) [] blocks in
    (with_r t r, res).
End reader.

(** ** The serialized index, record by record *)

(** The records [MarshalBinary] emits: one per key, keys ascending, each
    with the entries as sorted. *)
Definition encode_records (recs : list (string * indexEntries)) : list byte :=
  flat_map (fun r => marshalKey r.1 r.2) recs.

Section records.
Context {srt : SortImpl}.

Definition sorted_records (d : directIndex) : list (string * indexEntries) :=
  map (fun k => (k, sort_Sort (Entries d k)))
      (sort_Strings (map_to_list d).*1).
End records.

(** The ranges of the fields of an entry on the wire: three 64-bit signed
    quantities and an unsigned 32-bit size. *)
Definition entry_ok (e : IndexEntry) : Prop :=
  - 2 ^ 63 <= MinTime e < 2 ^ 63 /\ - 2 ^ 63 <= MaxTime e < 2 ^ 63
  /\ - 2 ^ 63 <= Offset e < 2 ^ 63 /\ 0 <= Size e < 2 ^ 32.

(** A record whose two counts fit their 16-bit fields. *)
Definition record_ok (r : string * indexEntries) : Prop :=
  len (bytes_of_string r.1) < 2 ^ 16 /\ len r.2 < 2 ^ 16 /\ Forall entry_ok r.2.

(** The index that reading the records one after the other builds. *)
Definition index_of_records (d : directIndex)
    (recs : list (string * indexEntries)) : directIndex :=
  fold_left (fun d r => addEntries d r.1 r.2) recs d.

(** An index within the limits of the wire format. *)
Definition index_ok (d : directIndex) : Prop :=
  forall k es, d !! k = Some es -> record_ok (k, es).

(** The same limits as tests that compute. *)
Definition in_int64 (z : Z) : bool := (- 2 ^ 63 <=? z) && (z <? 2 ^ 63).

Definition entry_okb (e : IndexEntry) : bool :=
  in_int64 (MinTime e) && in_int64 (MaxTime e) && in_int64 (Offset e)
  && (0 <=? Size e) && (Size e <? 2 ^ 32).

Definition record_okb (r : string * indexEntries) : bool :=
  (len (bytes_of_string r.1) <? 2 ^ 16) && (len r.2 <? 2 ^ 16)
  && forallb entry_okb r.2.

Definition index_okb (d : directIndex) : bool :=
  forallb record_okb (map_to_list d).

(** Where each record of a serialized index starts, the first at [pos]. *)
Fixpoint record_offsets (pos : Z) (recs : list (string * indexEntries))
    : list Z :=
  match recs with
  | [] => []
  | r :: recs' => pos :: record_offsets (pos + len (marshalKey r.1 r.2)) recs'
  end.

(** A well-formed serialized index: records back to back, each within
    the limits of its fields, keys in strictly ascending order. *)
Definition well_formed_index (B : list byte) : Prop :=
  exists recs,
    B = encode_records recs /\ Forall record_ok recs
    /\ StronglySorted string_lt recs.*1.

(** The position that the last eight bytes of a file give for its index. *)
Definition footer (f : list byte) : Z :=
  to_int64 (btou64 (drop (length f - 8) f)).

(** What a caller sees of a reader, or of the failure to make one. *)
Definition reader_view (r : result tsmReader) : result (Z * Z * directIndex) :=
  match r with
  | Ok t => Ok (t_indexStart t, t_indexEnd t, t_index t)
  | Err e => Err e
  | Panic m => Panic m
  end.

(** ** Writing a file and reading it back *)

Section pipeline_defs.
Context {codec : BlockCodec} {srt : SortImpl}.

(** The calls [Write(key, values)] in order, stopping at the first that
    fails. *)
Fixpoint write_all (t : tsmWriter) (ws : list (string * Values))
    : tsmWriter * result unit :=
  match ws with
  | [] => (t, Ok tt)
  | (key, values) :: ws' =>
      match Write t key values with
      | (t, Ok _) => write_all t ws'
      | (t, Err e) => (t, Err e)
      | (t, Panic m) => (t, Panic m)
      end
  end.

(** [NewTSMWriter] on an empty buffer, the writes, [Close]: the bytes in
    the buffer. *)
Definition written_file (ws : list (string * Values)) : result (list byte) :=
  let* t := NewTSMWriter [] in
  match write_all t ws with
  | (t, Ok _) =>
      match Close t with
      | (t, Ok _) => Ok (w_w t)
      | (_, Err e) => Err e
      | (_, Panic m) => Panic m
      end
  | (_, Err e) => Err e
  | (_, Panic m) => Panic m
  end.

(** The payload of a block of values. *)
Definition encoded (values : Values) : list byte :=
  match Values_Encode values with Ok b => b | _ => [] end.

Definition first_time (values : Values) : Time :=
  match head values with Some v => Value_Time v | None => 0 end.

Definition last_time (values : Values) : Time :=
  match last values with Some v => Value_Time v | None => 0 end.

(** The block section that the writes produce. *)
Definition blocks_bytes (ws : list (string * Values)) : list byte :=
  flat_map (fun kv => u32tob (crc32_ChecksumIEEE (encoded kv.2)) ++ encoded kv.2)
           ws.

Definition entry_of (off : Z) (values : Values) : IndexEntry :=
  {| MinTime := first_time values; MaxTime := last_time values;
     Offset := off; Size := 4 + len (encoded values) |}.

(** Each write with the index entry of its block, the first block at
    [off]. *)
Fixpoint placed (off : Z) (ws : list (string * Values))
    : list (string * (IndexEntry * Values)) :=
  match ws with
  | [] => []
  | (key, values) :: ws' =>
      (key, (entry_of off values, values))
      :: placed (off + (4 + len (encoded values))) ws'
  end.

Definition index_of_placed (d : directIndex)
    (l : list (string * (IndexEntry * Values))) : directIndex :=
  fold_left (fun d p => Add d p.1 (MinTime p.2.1) (MaxTime p.2.1)
                            (Offset p.2.1) (Size p.2.1)) l d.

(** What a write must satisfy for its block and index entry to fit the
    format: the codec encodes the values, the key and the block fit their
    length fields, the first and last timestamps are [int64] nanoseconds. *)
Definition write_ok (kv : string * Values) : Prop :=
  is_Ok (Values_Encode kv.2) = true
  /\ len (bytes_of_string kv.1) < 2 ^ 16
  /\ 4 + len (encoded kv.2) < 2 ^ 32
  /\ - 2 ^ 63 <= first_time kv.2 < 2 ^ 63
  /\ - 2 ^ 63 <= last_time kv.2 < 2 ^ 63.

(** The blocks written under a key, in write order, and their values. *)
Definition blocks_under (key : string) (ws : list (string * Values))
    : list Values :=
  (filter (fun kv => kv.1 = key) ws).*2.


(** Blocks of one key are written in strictly ascending order of their
    first timestamp (as [MinTime] reads it). *)
Definition written_before (a b : string * Values) : Prop :=
  a.1 = b.1 -> UnixNano (first_time a.2) < UnixNano (first_time b.2).

Definition ascending_per_key (ws : list (string * Values)) : Prop :=
  StronglySorted written_before ws.

(** The file that the writes are meant to produce. *)
Definition expected_file (ws : list (string * Values)) : list byte :=
  (u32tob MagicNumber ++ [Version]) ++ blocks_bytes ws
  ++ (MarshalBinary (index_of_placed ∅ (placed 5 ws))).2
  ++ u64tob (to_uint64 (5 + len (blocks_bytes ws))).

(** The block of [e] lies in [file] at the entry's offset, checksum
    first, and is the encoding of [values]. *)
Definition block_at (file : list byte) (e : IndexEntry) (values : Values)
    : Prop :=
  exists pre blk rest,
    file = pre ++ (u32tob (crc32_ChecksumIEEE blk) ++ blk) ++ rest
    /\ len pre = Offset e /\ Size e = 4 + len blk
    /\ Values_Encode values = Ok blk.
End pipeline_defs.


Definition MinTime_lt (x y : IndexEntry) : Prop :=
  UnixNano (MinTime x) < UnixNano (MinTime y).



(** ** [directIndex.Write] *)

Section direct_write.
Context {srt : SortImpl}.

(** Marshal, then hand the bytes to the sink. *)
Definition directIndex_Write (d : directIndex) (w : list byte)
    : directIndex * list byte * result unit :=
  let '(d, b) := MarshalBinary d in
  let '(w, (_, err)) := Buffer_Write w b in
  match err with
  | Some _ => (d, w, Err "write: writer error")
  | None => (d, w, Ok tt)
  end.
End direct_write.

(** ** Block framing: the header, the two streams, zig-zag integers *)

(** [buf[i] = v] *)
Definition store (buf : list byte) (i : Z) (v : byte) : result (list byte) :=
  if (0 <=? i) && (i <? len buf) then Ok (<[Z.to_nat i := v]> buf)
  else Panic "index out of range".

(** The loop of [binary.PutUvarint]: seven bits a byte, least significant
    first, the high bit set on every byte but the last.  A round stores at
    [i] and moves on, so a buffer is left before [S (length buf)] rounds. *)
Fixpoint PutUvarint_loop (fuel : nat) (buf : list byte) (x i : Z)
    : list byte * result Z :=
  if 0x80 <=? x then
    match fuel with
    | O => (buf, Panic "unreachable")
    | S fuel' =>
        match store buf i (byte_of_Z (Z.lor (byte_to_Z (byte_of_Z x)) 0x80)) with
        | Ok buf' => PutUvarint_loop fuel' buf' (Z.shiftr x 7) (i + 1)
        | Err e => (buf, Err e)
        | Panic m => (buf, Panic m)
        end
    end
  else
    match store buf i (byte_of_Z x) with
    | Ok buf' => (buf', Ok (i + 1))
    | Err e => (buf, Err e)
    | Panic m => (buf, Panic m)
    end.

Definition PutUvarint (buf : list byte) (x : Z) : list byte * result Z :=
  PutUvarint_loop (S (length buf)) buf x 0.

(** [binary.Uvarint], as the library of the code's time has it: the
    value and the number of bytes read; no bytes read when the buffer ends
    early, a negative count on overflow. *)
Fixpoint Uvarint_loop (buf : list byte) (x s i : Z) : Z * Z :=
  match buf with
  | [] => (0, 0)
  | b :: buf' =>
      if byte_to_Z b <? 0x80 then
        if (9 <? i) || ((i =? 9) && (1 <? byte_to_Z b)) then (0, - (i + 1))
        else (Z.lor x (to_uint64 (Z.shiftl (byte_to_Z b) s)), i + 1)
      else
        Uvarint_loop buf'
          (Z.lor x (to_uint64 (Z.shiftl (Z.land (byte_to_Z b) 0x7f) s)))
          (s + 7) (i + 1)
  end.

Definition Uvarint (buf : list byte) : Z * Z := Uvarint_loop buf 0 0 0.

Definition packBlockHeader (firstTime : Time) (blockType : byte) : list byte :=
  u64tob (to_uint64 (UnixNano firstTime)) ++ [blockType].

Definition packBlock (ts values : list byte) : result (list byte) :=
  let* b := make_bytes 10 in
  match PutUvarint b (to_uint64 (len ts)) with
  | (b, Ok i) =>
      let* p := slice b 0 i in
      Ok (p ++ ts ++ values)
  | (_, Err e) => Err e
  | (_, Panic m) => Panic m
  end.

Definition unpackBlock (buf : list byte) : result (list byte * list byte) :=
  let '(tsLen, i) := Uvarint buf in
  let hi := to_int64 (i + to_int64 tsLen) in
  let* ts := slice buf i hi in
  let* values := slice_from buf hi in
  Ok (ts, values).

(** [x] is an [int64]; the right shift is arithmetic. *)
Definition ZigZagEncode (x : Z) : Z :=
  to_uint64 (Z.lxor (to_uint64 (to_int64 (Z.shiftl x 1)))
                    (to_uint64 (Z.shiftr x 63))).

(** [v] is a [uint64]. *)
Definition ZigZagDecode (v : Z) : Z :=
  to_int64
    (Z.lxor (Z.shiftr v 1)
       (to_uint64 (Z.shiftr (to_int64 (Z.shiftl (to_int64 (Z.land v 1)) 63))
                            63))).

(** ** Values: times, sizes, order, [Deduplicate] *)

Section values.
Context {codec : BlockCodec}.

(** [v.UnixNano()]; [tsdb.EOF] is an [int64]. *)
Definition Value_UnixNano (v : Value) : Z :=
  match v with
  | FloatValue t _ | Int64Value t _ | BoolValue t _ | StringValue t _ =>
      UnixNano t
  | EmptyValue => to_int64 tsdb_EOF
  end.

Definition Value_Size (v : Value) : Z :=
  match v with
  | FloatValue _ _ => 16
  | Int64Value _ _ => 16
  | BoolValue _ _ => 9
  | StringValue _ s => 8 + len (bytes_of_string s)
  | EmptyValue => 0
  end.

(** [a[0].Time().UnixNano()] *)
Definition Values_MinTime (a : Values) : result Z :=
  match head a with
  | Some v => Ok (UnixNano (Value_Time v))
  | None => Panic "index out of range"
  end.

(** [a[len(a)-1].Time().UnixNano()] *)
Definition Values_MaxTime (a : Values) : result Z :=
  match last a with
  | Some v => Ok (UnixNano (Value_Time v))
  | None => Panic "index out of range"
  end.

(** [Values.Less], on the two elements compared. *)
Definition Values_Less (x y : Value) : bool :=
  UnixNano (Value_Time x) <? UnixNano (Value_Time y).

Definition not_Values_Less_rev (x y : Value) : Prop := Values_Less y x = false.

(** [sort.Sort] on [Values], by the same contract as on [indexEntries]. *)
Class ValuesSortImpl : Type := {
  sort_Values : Values -> Values;
  sort_Values_perm : forall l, sort_Values l ≡ₚ l;
  sort_Values_sorted : forall l, StronglySorted not_Values_Less_rev (sort_Values l)
}.

(** The first loop of [Deduplicate]: the map from timestamp to value. *)
Definition Deduplicate_map (a : Values) : gmap Z Value :=
  fold_left (fun m val => <[Value_UnixNano val := val]> m) a ∅.

(** The second loop ranges over the map in an order that Go does not fix:
    [other] is the map's values in the order the loop met them. *)
Definition Deduplicate_from {vsrt : ValuesSortImpl} (other : Values) : Values :=
  sort_Values other.

Definition Deduplicate {vsrt : ValuesSortImpl} (a : Values) : Values :=
  Deduplicate_from (map_to_list (Deduplicate_map a)).*2.
End values.

(** ** Notions the further properties are stated with *)

(** [Add] for each pair of a key and an entry, in order. *)
Definition add_all (d : directIndex) (l : list (string * IndexEntry))
    : directIndex :=
  fold_left (fun d p => Add d p.1 (MinTime p.2) (MaxTime p.2) (Offset p.2)
                            (Size p.2)) l d.

(** The bytes of [x] as [PutUvarint] lays them out. *)
Fixpoint uvarint_bytes (n : nat) (x : Z) : list byte :=
  match n with
  | O => [byte_of_Z x]
  | S n' =>
      if 0x80 <=? x
      then byte_of_Z (Z.lor (byte_to_Z (byte_of_Z x)) 0x80)
           :: uvarint_bytes n' (Z.shiftr x 7)
      else [byte_of_Z x]
  end.

(** Strictly ascending timestamps. *)
Definition time_lt {codec : BlockCodec} (x y : Value) : Prop :=
  Value_UnixNano x < Value_UnixNano y.

(** Whether a block with these values covers [t], as the index entry that
    [Write] records for it answers. *)
Definition block_Contains {codec : BlockCodec} (values : Values) (t : Time)
    : bool :=
  Contains (entry_of 0 values) t.

(** ** Instances that run the model *)

#[global] Instance not_Less_rev_dec : RelDecision not_Less_rev.
Proof. intros x y. unfold not_Less_rev. apply _. Defined.

Lemma not_Less_rev_le x y :
  not_Less_rev x y <-> UnixNano (MinTime x) <= UnixNano (MinTime y).
Proof. unfold not_Less_rev, Less. rewrite Z.ltb_ge. reflexivity. Qed.

#[global] Instance not_Less_rev_trans : Transitive not_Less_rev.
Proof. intros x y z. rewrite !not_Less_rev_le. lia. Qed.

#[global] Instance not_Less_rev_total : Total not_Less_rev.
Proof. intros x y. rewrite !not_Less_rev_le. lia. Qed.

(** A sort that meets the contract of [sort.Sort]. *)
#[global, refine] Instance mergeSort : SortImpl :=
  {| sort_Sort := merge_sort not_Less_rev |}.
Proof.
  - apply merge_sort_Permutation.
  - apply StronglySorted_merge_sort; apply _.
Defined.


(** A block codec for [Int64Value]s: after the block header, a count
    byte and sixteen bytes per value. *)

Definition plain_item (v : Value) : option (list byte) :=
  match v with
  | Int64Value t x =>
      if in_int64 t && in_int64 x
      then Some (u64tob (to_uint64 t) ++ u64tob (to_uint64 x))
      else None
  | _ => None
  end.

Fixpoint plain_items (a : Values) : option (list byte) :=
  match a with
  | [] => Some []
  | v :: a' =>
      match plain_item v, plain_items a' with
      | Some b, Some bs => Some (b ++ bs)
      | _, _ => None
      end
  end.

Definition plain_encode (a : Values) : result (list byte) :=
  match a, plain_items a with
  | Int64Value t _ :: _, Some bs =>
      if len a <=? 255
      then Ok (u64tob (to_uint64 (UnixNano t)) ++ [byte_of_Z BlockInt64]
               ++ [byte_of_Z (len a)] ++ bs)
      else Err "plain codec: too many values"
  | _, _ => Err "plain codec: not int64 values"
  end.

Fixpoint plain_read (n : nat) (b : list byte) : result Values :=
  match n with
  | O => Ok []
  | S n' =>
      if len b <? 16 then Err "plain codec: short block"
      else
        let* vs := plain_read n' (drop 16 b) in
        Ok (Int64Value (to_int64 (btou64 b)) (to_int64 (btou64 (drop 8 b))) :: vs)
  end.

Definition plain_decode (block : list byte) : result Values :=
  plain_read (Z.to_nat (byte_to_Z (nth 9 block x00))) (drop 10 block).

Definition unsupported_encode (a : Values) : result (list byte) :=
  Err "plain codec: unsupported type".

Definition unsupported_decode (block : list byte) : result Values :=
  Err "plain codec: unsupported type".

#[global] Instance plainCodec : BlockCodec :=
  {| tsdb_EOF := -1;
     encodeFloatBlock := unsupported_encode;
     encodeInt64Block := plain_encode;
     encodeBoolBlock := unsupported_encode;
     encodeStringBlock := unsupported_encode;
     decodeFloatBlock := unsupported_decode;
     decodeInt64Block := plain_decode;
     decodeBoolBlock := unsupported_decode;
     decodeStringBlock := unsupported_decode |}.

(** A sort of [Values] that meets the contract. *)
Section values_instances.
Context {codec : BlockCodec}.

#[global] Instance not_Values_Less_rev_dec : RelDecision not_Values_Less_rev.
Proof. intros x y. unfold not_Values_Less_rev. apply _. Defined.

Lemma not_Values_Less_rev_le x y :
  not_Values_Less_rev x y
  <-> UnixNano (Value_Time x) <= UnixNano (Value_Time y).
Proof. unfold not_Values_Less_rev, Values_Less. rewrite Z.ltb_ge. reflexivity. Qed.

#[global] Instance not_Values_Less_rev_trans : Transitive not_Values_Less_rev.
Proof. intros x y z. rewrite !not_Values_Less_rev_le. lia. Qed.

#[global] Instance not_Values_Less_rev_total : Total not_Values_Less_rev.
Proof. intros x y. rewrite !not_Values_Less_rev_le. lia. Qed.

#[global, refine] Instance valuesMergeSort : ValuesSortImpl :=
  {| sort_Values := merge_sort not_Values_Less_rev |}.
Proof.
  - apply merge_sort_Permutation.
  - apply StronglySorted_merge_sort; apply _.
Defined.
End values_instances.

#[global] Instance string_lt_dec : RelDecision string_lt.
Proof. intros x y. unfold string_lt. apply _. Defined.

#[global] Instance not_Less_rev_Sorted_dec l :
  Decision (StronglySorted not_Less_rev l).
Proof. apply _. Defined.

(** The rounds that [indirectIndex.UnmarshalBinary] can still make from
    position [i]: one when [i] has wrapped below zero, otherwise no more
    than the distance to the end. *)
Definition sweep_bound (b : list byte) (i : Z) : Z :=
  if i <? 0 then 1 else Z.max 1 (to_int32 (len b) - i + 1).

(** ** Example data *)

(** A writer as [NewTSMWriter] leaves it on an empty buffer. *)
Definition fresh_writer : tsmWriter :=
  {| w_w := u32tob MagicNumber ++ [Version]; w_index := ∅; w_n := 5 |}.

Definition unsorted_index : directIndex :=
  Add (Add NewDirectIndex "cpu" 2000000000 3000000000 5 46)
      "cpu" 0 1000000000 51 46.

Definition sorted_index : directIndex :=
  Add (Add (Add NewDirectIndex "cpu" 0 1000000000 5 46)
           "cpu" 2000000000 3000000000 51 46)
      "mem" 0 1000000000 97 46.


(** Two entries added out of [MinTime] order, the first 2^63 nanoseconds
    after 1970, which is past the last time that [UnixNano] returns as it
    is. *)
Definition far_index : directIndex :=
  Add (Add NewDirectIndex "cpu" (time_Unix 9223372036 854775808)
           (time_Unix 9223372036 854775808) 5 46)
      "cpu" 0 1000000000 51 46.

Definition example_records : list (string * indexEntries) :=
  [ ("cpu"%string,
     [ {| MinTime := 0; MaxTime := 1000000000; Offset := 10; Size := 100 |};
       {| MinTime := 2000000000; MaxTime := 3000000000; Offset := 20;
          Size := 200 |} ]);
    ("mem"%string,
     [ {| MinTime := 0; MaxTime := 1000000000; Offset := 10; Size := 100 |} ]) ].

(** The file that the writer produces for one block of one value. *)
Definition one_block_file : list byte :=
  w_w (Close (srt := mergeSort)
         (Write (codec := plainCodec) fresh_writer "cpu" [Int64Value 0 1]).1).1.

(** The same file with the four checksum bytes of its block, at offset 5,
    set to zero. *)
Definition bad_checksum_file : list byte :=
  take 5 one_block_file ++ replicate 4 x00 ++ drop 9 one_block_file.


Definition in_order_writes : list (string * Values) :=
  [ ("cpu"%string, [Int64Value 0 1; Int64Value 1000000000 2]);
    ("mem"%string, [Int64Value 1000000000 7]);
    ("cpu"%string, [Int64Value 2000000000 3; Int64Value 3000000000 4]) ].

(** An index of more than 2^31 bytes: 1171 records of two-byte keys,
    65535 entries each. *)
Definition big_key (i : nat) : string :=
  String (Ascii.ascii_of_nat (i / 256))
         (String (Ascii.ascii_of_nat (i mod 256)) EmptyString).

Definition big_entries : indexEntries :=
  replicate (Z.to_nat 65535)
            {| MinTime := 0; MaxTime := 0; Offset := 5; Size := 30 |}.

Definition big_records : list (string * indexEntries) :=
  map (fun i => (big_key i, big_entries)) (seq 0 1171).

(** * Properties *)

(** ** Bytes and big-endian integers *)

Lemma len_nonneg {A} (l : list A) : 0 <= len l.
Proof. unfold len. lia. Qed.

Lemma len_app {A} (l k : list A) : len (l ++ k) = len l + len k.
Proof. unfold len. rewrite length_app. lia. Qed.

Lemma len_cons {A} (x : A) (l : list A) : len (x :: l) = 1 + len l.
Proof. unfold len. simpl. lia. Qed.

Lemma len_nil {A} : len (@nil A) = 0.
Proof. reflexivity. Qed.

Lemma byte_to_Z_range b : 0 <= byte_to_Z b < 256.
Proof.
  unfold byte_to_Z. pose proof (Byte.to_N_bounded b) as Hb. lia.
Qed.

Lemma byte_to_of_Z z : byte_to_Z (byte_of_Z z) = z mod 256.
Proof.
  unfold byte_to_Z, byte_of_Z.
  pose proof (Z.mod_pos_bound z 256 eq_refl) as Hr.
  pose proof (Byte.to_of_N_option_map (Z.to_N (z mod 256))) as Ho.
  destruct (Byte.of_N (Z.to_N (z mod 256))) as [b|] eqn:Eb; simpl in *.
  - apply Byte.to_of_N in Eb. rewrite Eb. lia.
  - destruct (N.leb_spec (Z.to_N (z mod 256)) 255); [discriminate | lia].
Qed.

Lemma byte_of_to_Z b : byte_of_Z (byte_to_Z b) = b.
Proof.
  unfold byte_of_Z. pose proof (byte_to_Z_range b) as Hr.
  rewrite Z.mod_small by lia. unfold byte_to_Z.
  rewrite N2Z.id, Byte.of_to_N. reflexivity.
Qed.

Lemma length_be_put n v : length (be_put n v) = n.
Proof. induction n; simpl; congruence. Qed.

Lemma be_get_acc l acc :
  fold_left (fun a x => a * 256 + byte_to_Z x) l acc
  = acc * 256 ^ len l + be_get l.
Proof.
  unfold be_get. revert acc.
  induction l as [|x l IH]; intros acc; simpl.
  - rewrite len_nil. lia.
  - rewrite IH, (IH (0 * 256 + byte_to_Z x)), len_cons.
    rewrite Z.pow_add_r by (pose proof (len_nonneg l); lia). lia.
Qed.

Lemma be_get_cons x l : be_get (x :: l) = byte_to_Z x * 256 ^ len l + be_get l.
Proof. unfold be_get at 1. simpl. rewrite be_get_acc. lia. Qed.

Lemma be_get_range l : 0 <= be_get l < 256 ^ len l.
Proof.
  induction l as [|x l IH].
  - unfold be_get, len. simpl. lia.
  - rewrite be_get_cons, len_cons.
    pose proof (byte_to_Z_range x). pose proof (len_nonneg l).
    rewrite Z.pow_add_r by lia. nia.
Qed.

Lemma be_get_put n v : be_get (be_put n v) = v mod 256 ^ Z.of_nat n.
Proof.
  induction n as [|n IH].
  - simpl. unfold be_get. simpl. rewrite Z.mod_1_r. reflexivity.
  - cbn [be_put]. rewrite be_get_cons, IH, byte_to_of_Z.
    unfold len. rewrite length_be_put.
    rewrite Z.shiftr_div_pow2 by lia.
    replace (2 ^ (8 * Z.of_nat n)) with (256 ^ Z.of_nat n)
      by (change 256 with (2 ^ 8); rewrite <- Z.pow_mul_r by lia; reflexivity).
    rewrite Nat2Z.inj_succ, Z.pow_succ_r by lia.
    rewrite (Z.mul_comm 256), Z.rem_mul_r by lia. lia.
Qed.

Lemma pow2_8 n : 0 <= n -> 2 ^ (8 * n) = 256 ^ n.
Proof. intros. change 256 with (2 ^ 8). rewrite <- Z.pow_mul_r by lia. reflexivity. Qed.

Lemma byte_of_Z_mod z : byte_of_Z (z mod 256) = byte_of_Z z.
Proof. unfold byte_of_Z. rewrite Z.mod_mod by lia. reflexivity. Qed.

Lemma be_put_add n hi lo : be_put n (hi * 256 ^ Z.of_nat n + lo) = be_put n lo.
Proof.
  revert hi. induction n as [|n IH]; intros hi; [reflexivity|].
  cbn [be_put]. f_equal.
  - rewrite !Z.shiftr_div_pow2, pow2_8 by lia.
    rewrite Nat2Z.inj_succ, Z.pow_succ_r by lia.
    replace (hi * (256 * 256 ^ Z.of_nat n) + lo)
      with (lo + hi * 256 * 256 ^ Z.of_nat n) by lia.
    rewrite Z.div_add by lia.
    rewrite <- byte_of_Z_mod, Z.mod_add, byte_of_Z_mod by lia. reflexivity.
  - rewrite Nat2Z.inj_succ, Z.pow_succ_r by lia.
    replace (hi * (256 * 256 ^ Z.of_nat n)) with (hi * 256 * 256 ^ Z.of_nat n) by lia.
    apply IH.
Qed.

Lemma be_put_get l : be_put (length l) (be_get l) = l.
Proof.
  induction l as [|x l IH]; [reflexivity|].
  cbn [length be_put]. rewrite be_get_cons. unfold len.
  rewrite be_put_add, IH. f_equal.
  pose proof (be_get_range l) as Hr. pose proof (byte_to_Z_range x) as Hx.
  unfold len in Hr.
  rewrite Z.shiftr_div_pow2, pow2_8 by lia.
  rewrite Z.div_add_l by lia. rewrite Z.div_small by lia.
  rewrite Z.add_0_r. apply byte_of_to_Z.
Qed.

Lemma u16tob_be v : u16tob v = be_put 2 v.
Proof. unfold u16tob. cbn [be_put]. rewrite Z.shiftr_0_r. reflexivity. Qed.

Lemma btou16_be b0 b1 rest : btou16 (b0 :: b1 :: rest) = be_get [b0; b1].
Proof.
  unfold btou16, be_get. simpl.
  pose proof (byte_to_Z_range b0). pose proof (byte_to_Z_range b1).
  rewrite Z.shiftl_mul_pow2 by lia. rewrite Z.lor_comm.
  rewrite <- Z.add_nocarry_lor; [lia|].
  apply Z.bits_inj'. intros n Hn. rewrite Z.land_spec, Z.bits_0.
  destruct (Z.ltb_spec n 8).
  - rewrite Z.mul_pow2_bits_low by lia. reflexivity.
  - rewrite (Z.bits_above_log2 (byte_to_Z b1)); [apply andb_false_r|lia|].
    pose proof (Z.log2_le_mono (byte_to_Z b1) 255 ltac:(lia)) as Hl.
    change (Z.log2 255) with 7 in Hl. lia.
Qed.

Lemma btou16_u16tob v rest : btou16 (u16tob v ++ rest) = to_uint16 v.
Proof.
  unfold u16tob. cbn [app]. rewrite btou16_be.
  change [byte_of_Z (Z.shiftr v 8); byte_of_Z v] with (u16tob v).
  rewrite u16tob_be, be_get_put. reflexivity.
Qed.

Lemma btou16_u16tob_exact v : btou16 (u16tob v) = to_uint16 v.
Proof. rewrite <- (app_nil_r (u16tob v)). apply btou16_u16tob. Qed.

Lemma length_u16tob v : length (u16tob v) = 2%nat.
Proof. reflexivity. Qed.

Lemma length_u32tob v : length (u32tob v) = 4%nat.
Proof. reflexivity. Qed.

Lemma length_u64tob v : length (u64tob v) = 8%nat.
Proof. reflexivity. Qed.

Lemma btou64_u64tob v rest : btou64 (u64tob v ++ rest) = to_uint64 v.
Proof.
  unfold btou64, u64tob.
  rewrite take_app_length' by (rewrite length_be_put; reflexivity).
  apply be_get_put.
Qed.

Lemma btou32_u32tob v rest : btou32 (u32tob v ++ rest) = to_uint32 v.
Proof.
  unfold btou32, u32tob.
  rewrite take_app_length' by (rewrite length_be_put; reflexivity).
  apply be_get_put.
Qed.

Lemma to_int64_uint64 z :
  - 2 ^ 63 <= z < 2 ^ 63 -> to_int64 (to_uint64 z) = z.
Proof.
  intros Hz. unfold to_int64, to_uint64.
  rewrite Zplus_mod_idemp_l. rewrite Z.mod_small by lia. lia.
Qed.

Lemma to_int64_small z : - 2 ^ 63 <= z < 2 ^ 63 -> to_int64 z = z.
Proof. intros Hz. unfold to_int64. rewrite Z.mod_small by lia. lia. Qed.

Lemma to_int32_small z : - 2 ^ 31 <= z < 2 ^ 31 -> to_int32 z = z.
Proof. intros Hz. unfold to_int32. rewrite Z.mod_small by lia. lia. Qed.

Lemma to_uint16_small z : 0 <= z < 2 ^ 16 -> to_uint16 z = z.
Proof. intros Hz. unfold to_uint16. apply Z.mod_small. lia. Qed.

Lemma to_uint32_small z : 0 <= z < 2 ^ 32 -> to_uint32 z = z.
Proof. intros Hz. unfold to_uint32. apply Z.mod_small. lia. Qed.

(** ** Slices *)

Lemma slice_ok b i j :
  0 <= i -> i <= j -> j <= len b ->
  slice b i j = Ok (take (Z.to_nat (j - i)) (drop (Z.to_nat i) b)).
Proof.
  intros H1 H2 H3. unfold slice.
  destruct (Z.leb_spec 0 i); [|lia].
  destruct (Z.leb_spec i j); [|lia].
  destruct (Z.leb_spec j (len b)); [|lia]. reflexivity.
Qed.

Lemma slice_panic b i j :
  i < 0 \/ j < i \/ len b < j -> slice b i j = Panic "slice bounds out of range".
Proof.
  intros H. unfold slice.
  destruct (Z.leb_spec 0 i); [|reflexivity].
  destruct (Z.leb_spec i j); [|reflexivity].
  destruct (Z.leb_spec j (len b)); [lia|reflexivity].
Qed.

Lemma slice_app_mid (a m c : list byte) :
  slice (a ++ m ++ c) (len a) (len a + len m) = Ok m.
Proof.
  pose proof (len_nonneg a). pose proof (len_nonneg m).
  pose proof (len_nonneg c).
  rewrite slice_ok by (rewrite ?len_app; lia).
  f_equal. unfold len. rewrite Nat2Z.id.
  rewrite drop_app_length.
  replace (Z.to_nat (Z.of_nat (length a) + Z.of_nat (length m) - Z.of_nat (length a)))
    with (length m) by lia.
  apply take_app_length.
Qed.

Lemma slice_prefix (m c : list byte) n : n = len m -> slice (m ++ c) 0 n = Ok m.
Proof. intros ->. apply (slice_app_mid [] m c). Qed.

Lemma slice_from_app (a c : list byte) n :
  n = len a -> slice_from (a ++ c) n = Ok c.
Proof.
  intros ->. unfold slice_from.
  rewrite <- (app_nil_r c) at 1. rewrite len_app.
  rewrite slice_app_mid. reflexivity.
Qed.

(** ** String order *)

Lemma string_ltb_irrefl s : string_ltb s s = false.
Proof.
  induction s as [|a s IH]; [reflexivity|]. simpl.
  rewrite N.ltb_irrefl, N.eqb_refl. exact IH.
Qed.

Lemma string_ltb_trans s1 s2 s3 :
  string_ltb s1 s2 = true -> string_ltb s2 s3 = true -> string_ltb s1 s3 = true.
Proof.
  revert s2 s3. induction s1 as [|a s1 IH]; intros [|b s2] [|c s3]; simpl;
    try discriminate; try reflexivity.
  destruct (N.ltb_spec (Ascii.N_of_ascii a) (Ascii.N_of_ascii b)),
    (N.eqb_spec (Ascii.N_of_ascii a) (Ascii.N_of_ascii b)),
    (N.ltb_spec (Ascii.N_of_ascii b) (Ascii.N_of_ascii c)),
    (N.eqb_spec (Ascii.N_of_ascii b) (Ascii.N_of_ascii c)),
    (N.ltb_spec (Ascii.N_of_ascii a) (Ascii.N_of_ascii c)),
    (N.eqb_spec (Ascii.N_of_ascii a) (Ascii.N_of_ascii c));
    try discriminate; try reflexivity; try lia.
  apply IH.
Qed.

Lemma N_of_ascii_inj a b : Ascii.N_of_ascii a = Ascii.N_of_ascii b -> a = b.
Proof.
  intros E. rewrite <- (Ascii.ascii_N_embedding a), <- (Ascii.ascii_N_embedding b).
  congruence.
Qed.

Lemma string_ltb_total s1 s2 :
  string_ltb s1 s2 = false -> string_ltb s2 s1 = false -> s1 = s2.
Proof.
  revert s2. induction s1 as [|a s1 IH]; intros [|b s2]; simpl;
    try discriminate; try reflexivity.
  destruct (N.ltb_spec (Ascii.N_of_ascii a) (Ascii.N_of_ascii b)),
    (N.eqb_spec (Ascii.N_of_ascii a) (Ascii.N_of_ascii b)),
    (N.ltb_spec (Ascii.N_of_ascii b) (Ascii.N_of_ascii a)),
    (N.eqb_spec (Ascii.N_of_ascii b) (Ascii.N_of_ascii a));
    try discriminate; try lia.
  intros E1 E2. f_equal; [apply N_of_ascii_inj; assumption | apply IH; assumption].
Qed.

Lemma string_ltb_asym s1 s2 : string_ltb s1 s2 = true -> string_ltb s2 s1 = false.
Proof.
  intros E. destruct (string_ltb s2 s1) eqn:E'; [|reflexivity].
  pose proof (string_ltb_trans _ _ _ E E') as Hc.
  rewrite string_ltb_irrefl in Hc. discriminate.
Qed.

#[global] Instance string_le_trans : Transitive string_le.
Proof.
  intros x y z. unfold string_le. intros Hxy Hyz.
  destruct (string_ltb z x) eqn:E; [|reflexivity].
  destruct (string_ltb y x) eqn:E1; [discriminate|].
  destruct (string_ltb z y) eqn:E2; [discriminate|].
  destruct (string_ltb x y) eqn:E3.
  - rewrite (string_ltb_trans _ _ _ E E3) in E2. discriminate.
  - rewrite (string_ltb_total _ _ E3 E1) in E. congruence.
Qed.

#[global] Instance string_le_total : Total string_le.
Proof.
  intros x y. unfold string_le.
  destruct (string_ltb y x) eqn:E; [right|left; reflexivity].
  apply string_ltb_asym. exact E.
Qed.

#[global] Instance string_le_antisym : AntiSymm eq string_le.
Proof. intros x y Hxy Hyx. apply string_ltb_total; assumption. Qed.

#[global] Instance string_lt_trans : Transitive string_lt.
Proof. intros x y z. apply string_ltb_trans. Qed.

Lemma string_le_lt x y : string_le x y -> x <> y -> string_lt x y.
Proof.
  unfold string_le, string_lt. intros Hle Hne.
  destruct (string_ltb x y) eqn:E; [reflexivity|].
  destruct Hne. apply string_ltb_total; assumption.
Qed.

Lemma sort_Strings_perm keys : sort_Strings keys ≡ₚ keys.
Proof. apply merge_sort_Permutation. Qed.

Lemma sort_Strings_sorted keys : StronglySorted string_le (sort_Strings keys).
Proof. apply StronglySorted_merge_sort; apply _. Qed.

Lemma StronglySorted_le_lt keys :
  NoDup keys -> StronglySorted string_le keys -> StronglySorted string_lt keys.
Proof.
  induction 2 as [|k keys Hs IH Hall]; constructor.
  - apply IH. eapply NoDup_cons_1_2; eassumption.
  - apply NoDup_cons in H as [Hk _].
    rewrite Forall_forall in Hall |- *. intros y Hy.
    apply string_le_lt; [auto|]. intros ->. contradiction.
Qed.

Lemma sort_Strings_strict keys :
  NoDup keys -> StronglySorted string_lt (sort_Strings keys).
Proof.
  intros Hnd. apply StronglySorted_le_lt; [|apply sort_Strings_sorted].
  rewrite sort_Strings_perm. exact Hnd.
Qed.

Lemma StronglySorted_weaken {A} (R S : relation A) l :
  (forall x y, R x y -> S x y) -> StronglySorted R l -> StronglySorted S l.
Proof.
  intros HRS. induction 1 as [|x l Hs IH Hall]; constructor; [exact IH|].
  eapply Forall_impl; [exact Hall|]. intros y. apply HRS.
Qed.


(** ** [MarshalBinary]: what it returns and what it leaves *)

Section marshal_facts.
Context {srt : SortImpl}.

Lemma sort_Sort_nil : sort_Sort [] = [].
Proof. apply Permutation_nil_r. apply sort_Sort_perm. Qed.

Lemma fold_step_bytes keys st :
  NoDup keys ->
  (fold_left MarshalBinary_step keys st).2
  = st.2 ++ flat_map (fun k => marshalKey k (sort_Sort (Entries st.1 k))) keys.
Proof.
  revert st. induction keys as [|k keys IH]; intros st Hnd.
  - simpl. rewrite app_nil_r. reflexivity.
  - apply NoDup_cons in Hnd as [Hk Hnd]. cbn [fold_left flat_map].
    rewrite IH by assumption. cbn [MarshalBinary_step fst snd].
    rewrite <- app_assoc. do 2 f_equal.
    rewrite !flat_map_concat_map. f_equal.
    apply map_ext_in. intros k' Hk'. unfold Entries.
    rewrite lookup_insert_ne; [reflexivity|].
    intros ->. apply Hk. apply list_elem_of_In. exact Hk'.
Qed.

Lemma fold_step_lookup keys st k :
  NoDup keys ->
  (fold_left MarshalBinary_step keys st).1 !! k
  = if decide (k ∈ keys) then Some (sort_Sort (Entries st.1 k)) else st.1 !! k.
Proof.
  revert st. induction keys as [|k0 keys IH]; intros st Hnd.
  - simpl. destruct (decide (k ∈ [])) as [Hin|]; [|reflexivity].
    apply elem_of_nil in Hin. contradiction.
  - apply NoDup_cons in Hnd as [Hk Hnd]. cbn [fold_left].
    rewrite IH by assumption. cbn [MarshalBinary_step fst snd].
    destruct (decide (k = k0)) as [->|Hne].
    + destruct (decide (k0 ∈ keys)); [contradiction|].
      destruct (decide (k0 ∈ k0 :: keys)) as [|Hn]; [|destruct Hn; left].
      apply lookup_insert_eq.
    + unfold Entries. rewrite !lookup_insert_ne by congruence.
      destruct (decide (k ∈ keys)) as [Hin|Hin];
        destruct (decide (k ∈ k0 :: keys)) as [Hin'|Hin']; try reflexivity.
      * destruct Hin'. right. exact Hin.
      * apply elem_of_cons in Hin' as [?|?]; contradiction.
Qed.

Lemma keys_NoDup (d : directIndex) : NoDup (sort_Strings (map_to_list d).*1).
Proof. rewrite sort_Strings_perm. apply NoDup_fst_map_to_list. Qed.

Lemma elem_of_keys (d : directIndex) k :
  k ∈ sort_Strings (map_to_list d).*1 <-> is_Some (d !! k).
Proof.
  rewrite sort_Strings_perm, list_elem_of_fmap. split.
  - intros [[k' es] [-> Hin]]. apply elem_of_map_to_list in Hin. eauto.
  - intros [es Hes]. exists (k, es). split; [reflexivity|].
    apply elem_of_map_to_list. exact Hes.
Qed.

Lemma MarshalBinary_index d : (MarshalBinary d).1 = sort_Sort <$> d.
Proof.
  apply map_eq. intros k. unfold MarshalBinary.
  rewrite fold_step_lookup by apply keys_NoDup. cbn [fst].
  rewrite lookup_fmap. unfold Entries.
  destruct (decide (k ∈ sort_Strings (map_to_list d).*1)) as [Hin|Hin].
  - apply elem_of_keys in Hin as [es Hes]. rewrite !Hes. reflexivity.
  - destruct (d !! k) as [es|] eqn:Hes; [|reflexivity].
    destruct Hin. apply elem_of_keys. eauto.
Qed.

Lemma MarshalBinary_bytes d :
  (MarshalBinary d).2 = encode_records (sorted_records d).
Proof.
  unfold MarshalBinary. rewrite fold_step_bytes by apply keys_NoDup.
  cbn [fst snd app]. unfold encode_records, sorted_records.
  rewrite flat_map_concat_map, flat_map_concat_map, map_map. reflexivity.
Qed.

Lemma Entries_after_Marshal d key :
  Entries (MarshalBinary d).1 key = sort_Sort (Entries d key).
Proof.
  rewrite MarshalBinary_index. unfold Entries. rewrite lookup_fmap.
  destruct (d !! key); simpl; [reflexivity|]. symmetry. apply sort_Sort_nil.
Qed.
End marshal_facts.

(** ** [IndexEntry.Contains] *)

Lemma Contains_spec e t :
  Contains e t = true
  <-> MinTime e = t \/ (MinTime e < t /\ MaxTime e = t) \/ t < MaxTime e.
Proof.
  unfold Contains, Time_Equal, Time_Before, Time_After.
  rewrite !orb_true_iff, andb_true_iff, !Z.eqb_eq, Z.ltb_lt, Z.gtb_ltb, Z.ltb_lt.
  tauto.
Qed.

Lemma Contains_inside e t :
  MinTime e <= t <= MaxTime e -> Contains e t = true.
Proof. intros Ht. apply Contains_spec. lia. Qed.

Lemma Contains_after e t :
  MinTime e <= MaxTime e -> MaxTime e < t -> Contains e t = false.
Proof.
  intros Hm Ht. apply not_true_is_false. rewrite Contains_spec. lia.
Qed.

(** C3 (code at the failing input).  The entry covers [10, 20]; the
    timestamp 5 lies before its [MinTime], and [Contains] answers true: the
    last disjunct, [MaxTime.After(t)], is not guarded by the test on
    [MinTime]. *)
Theorem Contains_before_MinTime :
  let e := {| MinTime := 10; MaxTime := 20; Offset := 5; Size := 30 |} in
  Contains e 5 = true /\ ~ (MinTime e <= 5 <= MaxTime e).
Proof. split; [reflexivity|]. simpl. lia. Qed.

(** ** The writer on an empty block, and after [Close] *)

Lemma NewTSMWriter_fresh : NewTSMWriter [] = Ok fresh_writer.
Proof. reflexivity. Qed.

(** C7 (the claim fails).  [Write] with no values does not return an
    error: the call ends in the panic of [Values.Encode]. *)
Lemma Write_empty_counterexample :
  (Write (codec := plainCodec) fresh_writer "cpu" []).2
  = Panic "unable to encode block type"
  /\ is_Err (Write (codec := plainCodec) fresh_writer "cpu" []).2 = false.
Proof. split; reflexivity. Qed.

(** C7 (amended).  For every writer and key, [Write] with an empty list of
    values panics inside [Values.Encode] with "unable to encode block
    type"; nothing was written and the index and position are as before. *)
Theorem Write_empty_panics {codec : BlockCodec} (t : tsmWriter) (key : string) :
  Write t key [] = (t, Panic "unable to encode block type").
Proof. reflexivity. Qed.

Lemma Write_ok {codec : BlockCodec} (t : tsmWriter) key values block :
  Values_Encode values = Ok block ->
  exists v0 vl,
    head values = Some v0 /\ last values = Some vl /\
    Write t key values =
      ({| w_w := w_w t ++ u32tob (crc32_ChecksumIEEE block) ++ block;
          w_index := Add (w_index t) key (Value_Time v0) (Value_Time vl)
                         (w_n t) (to_uint32 (4 + len block));
          w_n := to_int64 (w_n t + (4 + len block)) |}, Ok tt).
Proof.
  intros He. unfold Write. rewrite He.
  destruct values as [|v0 values]; [discriminate|].
  destruct (last_is_Some (v0 :: values)) as [_ Hl].
  destruct Hl as [vl Hvl]; [discriminate|].
  exists v0, vl. split; [reflexivity|]. split; [exact Hvl|].
  unfold Buffer_Write. cbn [head]. rewrite Hvl. cbn [w_w w_index w_n].
  rewrite len_app. reflexivity.
Qed.

Lemma Close_eq {srt : SortImpl} (t : tsmWriter) :
  Close t =
    ({| w_w := w_w t ++ (MarshalBinary (w_index t)).2
                     ++ u64tob (to_uint64 (w_n t));
        w_index := (MarshalBinary (w_index t)).1;
        w_n := w_n t |}, Ok tt).
Proof.
  unfold Close. destruct (MarshalBinary (w_index t)) as [index b].
  reflexivity.
Qed.

(** C8 (the claim fails).  A second [Close] on a closed writer returns no
    error and appends the index and the footer once more: the buffer grows
    from 13 to 21 bytes. *)
Lemma Close_twice_counterexample :
  let t1 := (Close (srt := mergeSort) fresh_writer).1 in
  let t2 := (Close (srt := mergeSort) t1).1 in
  (Close (srt := mergeSort) fresh_writer).2 = Ok tt
  /\ (Close (srt := mergeSort) t1).2 = Ok tt
  /\ len (w_w t1) = 13 /\ len (w_w t2) = 21.
Proof. vm_compute. repeat split; reflexivity. Qed.

(** C8 (amended).  The writer keeps no closed state.  After [Close], a
    further [Close] returns no error and appends the serialized index and
    the footer again, and a further [Write] of values that the codec
    encodes returns no error and appends the block, checksum first. *)
Theorem calls_after_Close {codec : BlockCodec} {srt : SortImpl} (t : tsmWriter)
    (key : string) (values : Values) (block : list byte) :
  Values_Encode values = Ok block ->
  let t1 := (Close t).1 in
  (Close t).2 = Ok tt
  /\ (Close t1).2 = Ok tt
  /\ w_w (Close t1).1
     = w_w t1 ++ (MarshalBinary (w_index t1)).2 ++ u64tob (to_uint64 (w_n t))
  /\ (Write t1 key values).2 = Ok tt
  /\ w_w (Write t1 key values).1
     = w_w t1 ++ u32tob (crc32_ChecksumIEEE block) ++ block.
Proof.
  intros He t1. subst t1. rewrite !Close_eq. cbn [fst snd w_w w_index w_n].
  destruct (Write_ok (Close t).1 key values block He) as (v0 & vl & _ & _ & Hw).
  rewrite Close_eq in Hw. cbn [fst] in Hw. rewrite Hw.
  cbn [fst snd w_w]. repeat split; reflexivity.
Qed.

Lemma calls_after_Close_witness :
  let t1 := (Close (srt := mergeSort) fresh_writer).1 in
  (Close (srt := mergeSort) t1).2 = Ok tt
  /\ (Write (codec := plainCodec) t1 "cpu" [Int64Value 0 1]).2 = Ok tt.
Proof.
  pose proof (calls_after_Close (codec := plainCodec) (srt := mergeSort)
                fresh_writer "cpu" [Int64Value 0 1] _ eq_refl) as Hc.
  cbv zeta in Hc. intros t1. subst t1.
  destruct Hc as (_ & H2 & _ & H4 & _). split; assumption.
Defined.

Lemma unsorted_index_cpu :
  Entries unsorted_index "cpu"
  = [ {| MinTime := 2000000000; MaxTime := 3000000000; Offset := 5; Size := 46 |};
      {| MinTime := 0; MaxTime := 1000000000; Offset := 51; Size := 46 |} ].
Proof. vm_compute. reflexivity. Qed.

(** ** Reading back what [MarshalBinary] writes *)

Lemma length_marshalEntry e : length (marshalEntry e) = 28%nat.
Proof. reflexivity. Qed.

Lemma len_marshalEntry e : len (marshalEntry e) = 28.
Proof. reflexivity. Qed.

Lemma IndexEntry_Unmarshal_Marshal e :
  entry_ok e -> IndexEntry_UnmarshalBinary (marshalEntry e) = Ok e.
Proof.
  intros (Hmin & Hmax & Hoff & Hsz). unfold IndexEntry_UnmarshalBinary.
  rewrite len_marshalEntry. cbn [Z.eqb indexEntrySize negb Pos.eqb].
  unfold marshalEntry.
  set (a := u64tob (to_uint64 (UnixNano (MinTime e)))).
  set (b := u64tob (to_uint64 (UnixNano (MaxTime e)))).
  set (c := u64tob (to_uint64 (Offset e))).
  set (d := u32tob (Size e)).
  assert (Ha : slice (a ++ b ++ c ++ d) 0 8 = Ok a)
    by (apply slice_prefix; reflexivity).
  assert (Hb : slice (a ++ b ++ c ++ d) 8 16 = Ok b)
    by (apply (slice_app_mid a b (c ++ d))).
  assert (Hc : slice (a ++ b ++ c ++ d) 16 24 = Ok c).
  { pose proof (slice_app_mid (a ++ b) c d) as Hs.
    rewrite <- app_assoc in Hs. exact Hs. }
  assert (Hd : slice (a ++ b ++ c ++ d) 24 28 = Ok d).
  { pose proof (slice_app_mid (a ++ b ++ c) d []) as Hs.
    rewrite app_nil_r, <- !app_assoc in Hs. exact Hs. }
  rewrite Ha, Hb, Hc, Hd. cbn [rbind]. subst a b c d.
  rewrite <- (app_nil_r (u64tob (to_uint64 (UnixNano (MinTime e))))).
  rewrite <- (app_nil_r (u64tob (to_uint64 (UnixNano (MaxTime e))))).
  rewrite <- (app_nil_r (u64tob (to_uint64 (Offset e)))).
  rewrite <- (app_nil_r (u32tob (Size e))).
  rewrite !btou64_u64tob, btou32_u32tob.
  unfold UnixNano, time_Unix.
  rewrite !(to_int64_small (MinTime e)), !(to_int64_small (MaxTime e)) by lia.
  unfold to_uint64. rewrite !Z.mod_mod by lia. fold (to_uint64 (MinTime e)).
  fold (to_uint64 (MaxTime e)). fold (to_uint64 (Offset e)).
  rewrite !to_int64_uint64 by lia. rewrite to_uint32_small by lia.
  destruct e; reflexivity.
Qed.

Lemma len_flat_marshalEntry l : len (flat_map marshalEntry l) = 28 * len l.
Proof.
  induction l as [|e l IH]; [reflexivity|].
  cbn [flat_map]. rewrite len_app, len_cons, len_marshalEntry, IH. lia.
Qed.

Lemma readEntries_loop_ok hdr done todo rest n acc :
  len hdr = 2 -> Forall entry_ok todo ->
  readEntries_loop
    (hdr ++ flat_map marshalEntry done ++ flat_map marshalEntry todo ++ rest)
    (length todo) (len done) n acc
  = Ok (n + 28 * len todo, acc ++ todo).
Proof.
  intros Hh. revert done n acc.
  induction todo as [|e todo IH]; intros done n acc Hok.
  - simpl. rewrite app_nil_r. do 2 f_equal. unfold len. simpl. lia.
  - apply Forall_cons in Hok as [He Hok]. cbn [length readEntries_loop].
    change (flat_map marshalEntry (e :: todo))
      with (marshalEntry e ++ flat_map marshalEntry todo).
    assert (Hs : slice (hdr ++ flat_map marshalEntry done ++
                        (marshalEntry e ++ flat_map marshalEntry todo) ++ rest)
                   (len done * indexEntrySize + 2)
                   (len done * indexEntrySize + 2 + indexEntrySize)
                 = Ok (marshalEntry e)).
    { pose proof (slice_app_mid (hdr ++ flat_map marshalEntry done)
                    (marshalEntry e) (flat_map marshalEntry todo ++ rest)) as Hs.
      rewrite len_app, len_flat_marshalEntry, len_marshalEntry, Hh in Hs.
      rewrite <- !app_assoc in Hs. rewrite <- !app_assoc. unfold indexEntrySize.
      replace (len done * 28 + 2) with (2 + 28 * len done) by lia.
      exact Hs. }
    rewrite Hs. cbn [rbind]. rewrite IndexEntry_Unmarshal_Marshal by exact He.
    specialize (IH (done ++ [e]) (n + indexEntrySize) (acc ++ [e]) Hok).
    rewrite flat_map_app in IH.
    change (flat_map marshalEntry [e]) with (marshalEntry e ++ []) in IH.
    rewrite app_nil_r, <- !app_assoc in IH. rewrite len_app in IH.
    change (len [e]) with 1 in IH. rewrite <- !app_assoc. rewrite IH.
    rewrite len_cons. unfold indexEntrySize.
    do 2 f_equal. lia.
Qed.

Lemma readEntries_ok entries rest :
  len entries < 2 ^ 16 -> Forall entry_ok entries ->
  readEntries (u16tob (to_uint16 (len entries))
               ++ flat_map marshalEntry entries ++ rest)
  = Ok (2 + 28 * len entries, entries).
Proof.
  intros Hl Hok. unfold readEntries.
  rewrite slice_prefix by reflexivity. cbn [rbind].
  rewrite btou16_u16tob_exact.
  pose proof (len_nonneg entries).
  rewrite !to_uint16_small by (rewrite ?to_uint16_small; lia).
  replace (Z.to_nat (len entries)) with (length entries) by (unfold len; lia).
  apply (readEntries_loop_ok _ [] entries rest 2 []); [reflexivity|exact Hok].
Qed.

Lemma readKey_ok key rest :
  len (bytes_of_string key) < 2 ^ 16 ->
  readKey (u16tob (to_uint16 (len (bytes_of_string key)))
           ++ bytes_of_string key ++ rest)
  = Ok (2 + len (bytes_of_string key), key).
Proof.
  intros Hl. unfold readKey.
  rewrite slice_prefix by reflexivity. cbn [rbind].
  rewrite btou16_u16tob_exact.
  pose proof (len_nonneg (bytes_of_string key)).
  rewrite !to_uint16_small by (rewrite ?to_uint16_small; lia).
  pose proof (slice_app_mid (u16tob (len (bytes_of_string key)))
                (bytes_of_string key) rest) as Hs.
  change (len (u16tob (len (bytes_of_string key)))) with 2 in Hs.
  rewrite Hs. cbn [rbind]. unfold string_of_bytes, bytes_of_string.
  rewrite String.string_of_list_byte_of_string. reflexivity.
Qed.

Lemma len_marshalKey key entries :
  len (marshalKey key entries)
  = 2 + len (bytes_of_string key) + 2 + 28 * len entries.
Proof.
  unfold marshalKey. rewrite !len_app, len_flat_marshalEntry.
  change (len (u16tob _)) with 2. unfold len. simpl. lia.
Qed.

(** The loop of [UnmarshalBinary] over a buffer that ends in well-formed
    records, started where they start. *)
Lemma UnmarshalBinary_loop_records recs : forall fuel d pre,
  Forall record_ok recs -> (length recs <= fuel)%nat ->
  UnmarshalBinary_loop fuel d (pre ++ encode_records recs) (len pre)
  = (index_of_records d recs, Ok tt).
Proof.
  induction recs as [|[key entries] recs IH]; intros fuel d pre Hok Hfuel.
  - cbn [encode_records flat_map]. rewrite app_nil_r.
    destruct fuel; cbn [UnmarshalBinary_loop];
      rewrite Z.ltb_irrefl; reflexivity.
  - apply Forall_cons in Hok as [(Hk & Hn & He) Hok]. cbn [fst snd] in *.
    destruct fuel as [|fuel]; [simpl in Hfuel; lia|].
    cbn [UnmarshalBinary_loop encode_records flat_map fst snd].
    fold (encode_records recs).
    pose proof (len_nonneg pre). pose proof (len_nonneg (bytes_of_string key)).
    pose proof (len_nonneg entries). pose proof (len_nonneg (encode_records recs)).
    replace (len pre <? len (pre ++ marshalKey key entries ++ encode_records recs))
      with true
      by (symmetry; apply Z.ltb_lt; rewrite !len_app, len_marshalKey; lia).
    cbn [negb]. rewrite slice_from_app by reflexivity. cbn [rbind].
    unfold marshalKey at 1. rewrite <- !app_assoc.
    rewrite readKey_ok by exact Hk.
    set (pre1 := pre ++ u16tob (to_uint16 (len (bytes_of_string key)))
                     ++ bytes_of_string key).
    assert (Hpre1 : len pre + (2 + len (bytes_of_string key)) = len pre1).
    { subst pre1. rewrite !len_app. change (len (u16tob _)) with 2. lia. }
    rewrite Hpre1.
    assert (Hb : pre ++ marshalKey key entries ++ encode_records recs
                 = pre1 ++ u16tob (to_uint16 (len entries))
                        ++ flat_map marshalEntry entries ++ encode_records recs).
    { subst pre1. unfold marshalKey. rewrite <- !app_assoc. reflexivity. }
    rewrite Hb. rewrite slice_from_app by reflexivity. cbn [rbind].
    rewrite readEntries_ok by assumption.
    rewrite <- Hb.
    replace (len pre1 + (2 + 28 * len entries))
      with (len (pre ++ marshalKey key entries))
      by (rewrite len_app, len_marshalKey; lia).
    rewrite (app_assoc pre). rewrite IH; [reflexivity|exact Hok|].
    simpl in Hfuel. lia.
Qed.

Lemma length_encode_records recs : (length recs <= length (encode_records recs))%nat.
Proof.
  induction recs as [|[k es] recs IH]; [simpl; lia|].
  cbn [encode_records flat_map length fst snd]. fold (encode_records recs).
  rewrite length_app. unfold marshalKey. rewrite !length_app.
  rewrite length_u16tob. lia.
Qed.

Lemma UnmarshalBinary_records d recs :
  Forall record_ok recs ->
  UnmarshalBinary d (encode_records recs) = (index_of_records d recs, Ok tt).
Proof.
  intros Hok. unfold UnmarshalBinary.
  apply (UnmarshalBinary_loop_records recs _ d [] Hok).
  pose proof (length_encode_records recs). lia.
Qed.

Lemma index_of_records_lookup (f : string -> indexEntries) ks : forall d k,
  NoDup ks ->
  index_of_records d (map (fun k => (k, f k)) ks) !! k
  = if decide (k ∈ ks) then Some (Entries d k ++ f k) else d !! k.
Proof.
  induction ks as [|k0 ks IH]; intros d k Hnd.
  - cbn. destruct (decide (k ∈ [])) as [Hin|]; [|reflexivity].
    apply elem_of_nil in Hin. contradiction.
  - apply NoDup_cons in Hnd as [Hk0 Hnd].
    cbn [map index_of_records fold_left fst snd].
    fold (index_of_records (addEntries d k0 (f k0)) (map (fun k => (k, f k)) ks)).
    rewrite IH by exact Hnd. unfold addEntries, Entries.
    destruct (decide (k = k0)) as [->|Hne].
    + destruct (decide (k0 ∈ ks)); [contradiction|].
      destruct (decide (k0 ∈ k0 :: ks)) as [|Hn]; [|destruct Hn; left].
      apply lookup_insert_eq.
    + rewrite !lookup_insert_ne by congruence.
      destruct (decide (k ∈ ks)) as [Hin|Hin];
        destruct (decide (k ∈ k0 :: ks)) as [Hin'|Hin']; try reflexivity.
      * destruct Hin'. right. exact Hin.
      * apply elem_of_cons in Hin' as [?|?]; contradiction.
Qed.

Section roundtrip.
Context {srt : SortImpl}.

Lemma index_of_sorted_records d :
  index_of_records ∅ (sorted_records d) = sort_Sort <$> d.
Proof.
  apply map_eq. intros k. unfold sorted_records.
  rewrite (index_of_records_lookup (fun k => sort_Sort (Entries d k)))
    by apply keys_NoDup.
  rewrite lookup_fmap, lookup_empty. unfold Entries at 1.
  rewrite lookup_empty. cbn [from_option id app]. unfold Entries.
  destruct (decide (k ∈ sort_Strings (map_to_list d).*1)) as [Hin|Hin].
  - apply elem_of_keys in Hin as [es Hes]. rewrite !Hes. reflexivity.
  - destruct (d !! k) as [es|] eqn:Hes; [|reflexivity].
    destruct Hin. apply elem_of_keys. eauto.
Qed.

Lemma sorted_records_ok d : index_ok d -> Forall record_ok (sorted_records d).
Proof.
  intros Hok. unfold sorted_records. apply Forall_forall. intros r Hr.
  apply list_elem_of_fmap in Hr as [k [-> Hk]].
  apply elem_of_keys in Hk as [es Hes].
  destruct (Hok k es Hes) as (Hk & Hn & He). cbn [fst snd] in *.
  unfold Entries. rewrite Hes. cbn [from_option id].
  pose proof (sort_Sort_perm es) as Hp.
  unfold record_ok. cbn [fst snd].
  split; [exact Hk|]. split.
  - unfold len. rewrite (Permutation_length Hp). exact Hn.
  - rewrite Hp. exact He.
Qed.

Lemma Unmarshal_Marshal d :
  index_ok d ->
  UnmarshalBinary ∅ (MarshalBinary d).2 = (sort_Sort <$> d, Ok tt).
Proof.
  intros Hok. rewrite MarshalBinary_bytes.
  rewrite UnmarshalBinary_records by (apply sorted_records_ok; exact Hok).
  rewrite index_of_sorted_records. reflexivity.
Qed.

Lemma MinTime_lt_distinct l x y :
  StronglySorted MinTime_lt l -> x ∈ l -> y ∈ l ->
  UnixNano (MinTime x) = UnixNano (MinTime y) -> x = y.
Proof.
  induction 1 as [|z l Hs IH Hall]; intros Hx Hy Heq.
  - apply elem_of_nil in Hx. contradiction.
  - rewrite Forall_forall in Hall.
    apply elem_of_cons in Hx as [->|Hx]; apply elem_of_cons in Hy as [->|Hy].
    + reflexivity.
    + specialize (Hall _ Hy). unfold MinTime_lt in Hall. lia.
    + specialize (Hall _ Hx). unfold MinTime_lt in Hall. lia.
    + apply IH; assumption.
Qed.

(** On a list in strictly ascending [MinTime] order every sort that meets
    the contract returns the list itself. *)
Lemma sort_Sort_unique l l' :
  l' ≡ₚ l -> StronglySorted MinTime_lt l' -> sort_Sort l = l'.
Proof.
  intros Hp Hs.
  apply (StronglySorted_unique_strong not_Less_rev).
  - intros x1 x2 H1 H2 H12 H21.
    apply not_Less_rev_le in H12. apply not_Less_rev_le in H21.
    apply (MinTime_lt_distinct l'); [exact Hs| |exact H2|lia].
    rewrite Hp. rewrite <- (sort_Sort_perm l). exact H1.
  - apply sort_Sort_sorted.
  - eapply StronglySorted_weaken; [|exact Hs].
    intros x y Hxy. apply not_Less_rev_le. unfold MinTime_lt in Hxy. lia.
  - rewrite Hp. apply sort_Sort_perm.
Qed.

Lemma sort_Sort_sorted_id l : StronglySorted MinTime_lt l -> sort_Sort l = l.
Proof. intros Hs. apply sort_Sort_unique; [reflexivity|exact Hs]. Qed.
End roundtrip.

(** ** The index round trip *)

Lemma entry_okb_ok e : entry_okb e = true -> entry_ok e.
Proof.
  unfold entry_okb, in_int64, entry_ok.
  rewrite !andb_true_iff, !Z.leb_le, !Z.ltb_lt. lia.
Qed.

Lemma record_okb_ok r : record_okb r = true -> record_ok r.
Proof.
  unfold record_okb, record_ok.
  rewrite !andb_true_iff, !Z.ltb_lt, forallb_forall, Forall_forall.
  intros [[Hk Hn] He]. split; [exact Hk|]. split; [exact Hn|].
  intros e Hin. apply entry_okb_ok, He, list_elem_of_In, Hin.
Qed.

Lemma records_okb_ok recs : forallb record_okb recs = true -> Forall record_ok recs.
Proof.
  rewrite forallb_forall, Forall_forall. intros Hall r Hr.
  apply record_okb_ok, Hall, list_elem_of_In, Hr.
Qed.

Lemma index_okb_ok d : index_okb d = true -> index_ok d.
Proof.
  unfold index_okb, index_ok. rewrite forallb_forall. intros Hall k es Hes.
  apply record_okb_ok, Hall, list_elem_of_In, elem_of_map_to_list, Hes.
Qed.

Lemma unsorted_index_ok : index_ok unsorted_index.
Proof. apply index_okb_ok. vm_compute. reflexivity. Qed.

(** C5 (the claim fails).  The index holds, for "cpu", the entry of
    [MinTime] 2s before the entry of [MinTime] 0: whatever sort stands for
    [sort.Sort], encoding and decoding returns them in the other order. *)
Lemma Unmarshal_Marshal_counterexample :
  exists e0 e2,
    Entries unsorted_index "cpu" = [e2; e0]
    /\ forall srt : SortImpl,
         UnmarshalBinary ∅ (MarshalBinary unsorted_index).2
         = (<["cpu"%string := [e0; e2]]> ∅, Ok tt)
         /\ (UnmarshalBinary ∅ (MarshalBinary unsorted_index).2).1
            <> unsorted_index.
Proof.
  eexists _, _. split; [apply unsorted_index_cpu|]. intros srt.
  rewrite Unmarshal_Marshal by apply unsorted_index_ok.
  assert (Hd : unsorted_index
               = <["cpu"%string := Entries unsorted_index "cpu"]> ∅).
  { unfold unsorted_index, Add, NewDirectIndex, Entries.
    rewrite lookup_insert_eq, lookup_empty. cbn [from_option id app].
    rewrite insert_insert_eq. reflexivity. }
  assert (Hs : sort_Sort <$> unsorted_index
               = <["cpu"%string :=
                    [ {| MinTime := 0; MaxTime := 1000000000;
                         Offset := 51; Size := 46 |};
                      {| MinTime := 2000000000; MaxTime := 3000000000;
                         Offset := 5; Size := 46 |} ]]> ∅).
  { rewrite Hd at 1. rewrite fmap_insert, fmap_empty. f_equal.
    rewrite unsorted_index_cpu. apply sort_Sort_unique.
    - apply perm_swap.
    - repeat constructor. }
  rewrite Hs. split; [reflexivity|]. cbn [fst]. rewrite Hd.
  rewrite unsorted_index_cpu. intros Heq.
  apply (f_equal (fun m => m !! "cpu"%string)) in Heq.
  rewrite !lookup_insert_eq in Heq. discriminate.
Qed.

(** C5 (amended).  For every direct index within the limits of the wire
    format (keys shorter than 65536 bytes, fewer than 65536 entries per key,
    fields in the range of their types), decoding the bytes that encoding
    returns into a fresh direct index succeeds and yields the same keys,
    each with the same entries in the order the sort of [MarshalBinary]
    gives them, ascending by [MinTime]: the index that encoding leaves in
    memory.  It is the index as it was before encoding when every entry
    list was in strictly ascending [MinTime] order. *)
Theorem Unmarshal_Marshal_roundtrip {srt : SortImpl} (d : directIndex) :
  index_ok d ->
  UnmarshalBinary ∅ (MarshalBinary d).2 = ((MarshalBinary d).1, Ok tt)
  /\ (MarshalBinary d).1 = sort_Sort <$> d
  /\ ((forall k es, d !! k = Some es -> StronglySorted MinTime_lt es) ->
      (MarshalBinary d).1 = d).
Proof.
  intros Hok. rewrite MarshalBinary_index.
  split; [apply Unmarshal_Marshal; exact Hok|]. split; [reflexivity|].
  intros Hs. apply map_eq. intros k. rewrite lookup_fmap.
  destruct (d !! k) as [es|] eqn:Hes; [|reflexivity]. cbn.
  f_equal. apply sort_Sort_sorted_id. eapply Hs. exact Hes.
Qed.

Lemma sorted_index_ok : index_ok sorted_index.
Proof. apply index_okb_ok. vm_compute. reflexivity. Qed.

Lemma Unmarshal_Marshal_roundtrip_witness :
  UnmarshalBinary ∅ (MarshalBinary (srt := mergeSort) sorted_index).2
  = ((MarshalBinary (srt := mergeSort) sorted_index).1, Ok tt).
Proof.
  exact (proj1 (Unmarshal_Marshal_roundtrip (srt := mergeSort) sorted_index
                  sorted_index_ok)).
Defined.

(** ** The order of the serialized index *)

Lemma sorted_records_keys {srt : SortImpl} d :
  (sorted_records d).*1 = sort_Strings (map_to_list d).*1.
Proof.
  unfold sorted_records. rewrite <- list_fmap_compose.
  apply list_fmap_id.
Qed.



(** ** [MarshalBinary] sorts the index it is called on *)

(** C10 (the claim fails).  The two entries of "cpu" were added out of
    [MinTime] order: the first starts 2^63 nanoseconds after 1970, the
    second at 0.  [Less] compares what [UnixNano] returns, which for the
    first entry is -2^63, so the list is in order for [sort.Sort] as it
    stands: whatever sort stands for [sort.Sort], [Entries] after
    [MarshalBinary] returns the insertion order, not the order of
    [MinTime]. *)
Lemma MarshalBinary_far_time_counterexample :
  exists e_far e0,
    Entries far_index "cpu" = [e_far; e0]
    /\ MinTime e0 < MinTime e_far
    /\ UnixNano (MinTime e_far) = - 2 ^ 63 /\ UnixNano (MinTime e0) = 0
    /\ forall srt : SortImpl,
         Entries (MarshalBinary far_index).1 "cpu" = [e_far; e0].
Proof.
  eexists _, _. split; [vm_compute; reflexivity|].
  cbn [MinTime]. split; [reflexivity|]. split; [reflexivity|].
  split; [reflexivity|]. intros srt.
  rewrite Entries_after_Marshal.
  assert (He : Entries far_index "cpu"
               = [ {| MinTime := 2 ^ 63; MaxTime := 2 ^ 63; Offset := 5;
                      Size := 46 |};
                   {| MinTime := 0; MaxTime := 1000000000; Offset := 51;
                      Size := 46 |} ])
    by (vm_compute; reflexivity).
  rewrite He. apply sort_Sort_sorted_id.
  repeat constructor.
Qed.



(** ** [sort.Search] *)

Lemma Search_loop_spec (f : Z -> result bool) (p : Z -> bool) :
  forall fuel i j,
    (forall h, i <= h < j -> f h = Ok (p h)) ->
    j - i <= Z.of_nat fuel -> i <= j ->
    exists m,
      Search_loop fuel f i j = Ok m /\ i <= m <= j
      /\ (m < j -> p m = true) /\ (i < m -> p (m - 1) = false).
Proof.
  induction fuel as [|fuel IH]; intros i j Hf Hfuel Hij.
  - assert (i = j) as -> by lia. exists j. cbn [Search_loop].
    rewrite Z.ltb_irrefl. cbn [negb]. repeat split; lia.
  - cbn [Search_loop]. destruct (Z.ltb_spec i j) as [Hlt|Hge]; cbn [negb].
    + set (h := i + (j - i) / 2).
      assert (Hh : i <= h < j).
      { subst h. pose proof (Z.div_pos (j - i) 2 ltac:(lia) ltac:(lia)).
        pose proof (Z.div_lt_upper_bound (j - i) 2 (j - i) ltac:(lia) ltac:(lia)).
        lia. }
      rewrite (Hf h Hh). cbn [rbind].
      destruct (p h) eqn:Hph; cbn [negb].
      * destruct (IH i h) as (m & Hm & Hr & Ht & Hfalse);
          [intros; apply Hf; lia|lia|lia|].
        exists m. split; [exact Hm|]. split; [lia|]. split; [|exact Hfalse].
        intros _. destruct (Z.eq_dec m h) as [->|]; [exact Hph|apply Ht; lia].
      * destruct (IH (h + 1) j) as (m & Hm & Hr & Ht & Hfalse);
          [intros; apply Hf; lia|lia|lia|].
        exists m. split; [exact Hm|]. split; [lia|]. split; [exact Ht|].
        intros _. destruct (Z.eq_dec m (h + 1)) as [->|].
        -- replace (h + 1 - 1) with h by lia. exact Hph.
        -- apply Hfalse. lia.
    + exists i. repeat split; lia.
Qed.

Lemma sort_Search_spec n (f : Z -> result bool) (p : Z -> bool) :
  0 <= n -> (forall h, 0 <= h < n -> f h = Ok (p h)) ->
  exists m,
    sort_Search n f = Ok m /\ 0 <= m <= n
    /\ (m < n -> p m = true) /\ (0 < m -> p (m - 1) = false).
Proof.
  intros Hn Hf. unfold sort_Search.
  apply Search_loop_spec; [exact Hf|lia|lia].
Qed.

(** ** The indirect index over well-formed records *)

Lemma encode_records_app a b :
  encode_records (a ++ b) = encode_records a ++ encode_records b.
Proof. unfold encode_records. apply flat_map_app. Qed.

Lemma encode_records_cons r recs :
  encode_records (r :: recs) = marshalKey r.1 r.2 ++ encode_records recs.
Proof. reflexivity. Qed.

Lemma marshalKey_split pre key entries rest :
  pre ++ marshalKey key entries ++ rest
  = (pre ++ u16tob (to_uint16 (len (bytes_of_string key)))
         ++ bytes_of_string key)
    ++ u16tob (to_uint16 (len entries))
    ++ flat_map marshalEntry entries ++ rest.
Proof. unfold marshalKey. rewrite <- !app_assoc. reflexivity. Qed.

(** The two length fields of a record, read at the record's position. *)
Lemma slice_keyLen pre key entries rest :
  slice (pre ++ marshalKey key entries ++ rest) (len pre) (len pre + 2)
  = Ok (u16tob (to_uint16 (len (bytes_of_string key)))).
Proof.
  unfold marshalKey. rewrite <- !app_assoc.
  apply (slice_app_mid pre (u16tob _)).
Qed.

Lemma slice_key pre key entries rest :
  slice (pre ++ marshalKey key entries ++ rest) (len pre + 2)
        (len pre + 2 + len (bytes_of_string key))
  = Ok (bytes_of_string key).
Proof.
  unfold marshalKey. rewrite <- !app_assoc.
  pose proof (slice_app_mid
                (pre ++ u16tob (to_uint16 (len (bytes_of_string key))))
                (bytes_of_string key)
                (u16tob (to_uint16 (len entries))
                 ++ flat_map marshalEntry entries ++ rest)) as Hs.
  rewrite len_app in Hs. change (len (u16tob _)) with 2 in Hs.
  rewrite <- !app_assoc in Hs. exact Hs.
Qed.

Lemma slice_count pre key entries rest :
  slice (pre ++ marshalKey key entries ++ rest)
        (len pre + 2 + len (bytes_of_string key))
        (len pre + 2 + len (bytes_of_string key) + 2)
  = Ok (u16tob (to_uint16 (len entries))).
Proof.
  rewrite marshalKey_split.
  pose proof (slice_app_mid
                (pre ++ u16tob (to_uint16 (len (bytes_of_string key)))
                     ++ bytes_of_string key)
                (u16tob (to_uint16 (len entries)))
                (flat_map marshalEntry entries ++ rest)) as Hs.
  rewrite !len_app in Hs. change (len (u16tob _)) with 2 in Hs.
  replace (len pre + (2 + len (bytes_of_string key)))
    with (len pre + 2 + len (bytes_of_string key)) in Hs by lia.
  exact Hs.
Qed.

Lemma btou16_len_field n :
  0 <= n < 2 ^ 16 -> to_int32 (btou16 (u16tob (to_uint16 n))) = n.
Proof.
  intros Hn. rewrite btou16_u16tob_exact, !to_uint16_small by
    (rewrite ?to_uint16_small; lia).
  apply to_int32_small. lia.
Qed.

Lemma indirect_Unmarshal_loop_records recs : forall fuel offs pre,
  Forall record_ok recs -> (length recs <= fuel)%nat ->
  len (pre ++ encode_records recs) < 2 ^ 31 ->
  indirect_Unmarshal_loop fuel (pre ++ encode_records recs) offs (len pre)
  = (offs ++ record_offsets (len pre) recs, Ok tt).
Proof.
  induction recs as [|[key entries] recs IH]; intros fuel offs pre Hok Hfuel Hlen.
  - pose proof (len_nonneg pre).
    cbn [encode_records flat_map record_offsets] in *.
    rewrite !app_nil_r in *.
    destruct fuel; cbn [indirect_Unmarshal_loop];
      rewrite to_int32_small, Z.ltb_irrefl by lia; reflexivity.
  - apply Forall_cons in Hok as [(Hk & Hn & He) Hok]. cbn [fst snd] in *.
    destruct fuel as [|fuel]; [simpl in Hfuel; lia|].
    rewrite encode_records_cons in *. cbn [fst snd] in *.
    pose proof (len_nonneg pre). pose proof (len_nonneg (bytes_of_string key)).
    pose proof (len_nonneg entries). pose proof (len_nonneg (encode_records recs)).
    assert (HB : len (pre ++ marshalKey key entries ++ encode_records recs)
                 = len pre + (2 + len (bytes_of_string key) + 2 + 28 * len entries)
                   + len (encode_records recs))
      by (rewrite !len_app, len_marshalKey; lia).
    cbn [indirect_Unmarshal_loop record_offsets fst snd].
    rewrite (to_int32_small (len (pre ++ _))) by lia.
    replace (len pre <? len (pre ++ marshalKey key entries ++ encode_records recs))
      with true by (symmetry; apply Z.ltb_lt; lia).
    cbn [negb].
    rewrite (to_int32_small (len pre + 2)) by lia.
    rewrite slice_keyLen.
    rewrite btou16_len_field by lia.
    rewrite (to_int32_small (len pre + 2 + len (bytes_of_string key))) by lia.
    rewrite (to_int32_small (len pre + 2 + len (bytes_of_string key) + 2)) by lia.
    rewrite slice_count.
    rewrite btou16_len_field by lia. unfold indexEntrySize.
    rewrite (to_int32_small (len entries * 28)) by lia.
    rewrite (to_int32_small (_ + len entries * 28)) by lia.
    replace (len pre + 2 + len (bytes_of_string key) + 2 + len entries * 28)
      with (len (pre ++ marshalKey key entries))
      by (rewrite len_app, len_marshalKey; lia).
    rewrite (app_assoc pre). rewrite IH.
    + rewrite <- app_assoc. rewrite len_app. reflexivity.
    + exact Hok.
    + simpl in Hfuel. lia.
    + rewrite <- app_assoc. lia.
Qed.

Lemma indirect_UnmarshalBinary_records recs :
  Forall record_ok recs -> len (encode_records recs) < 2 ^ 31 ->
  indirect_UnmarshalBinary NewIndirectIndex (encode_records recs)
  = ({| ind_b := encode_records recs;
        ind_offsets := record_offsets 0 recs |}, Ok tt).
Proof.
  intros Hok Hlen. unfold indirect_UnmarshalBinary.
  pose proof (indirect_Unmarshal_loop_records recs
                (S (length (encode_records recs))) [] [] Hok) as Hl.
  cbn [app] in Hl. change (len []) with 0 in Hl.
  cbn [NewIndirectIndex ind_offsets]. rewrite Hl; [reflexivity| |exact Hlen].
  pose proof (length_encode_records recs). lia.
Qed.

Lemma record_offsets_length pos recs :
  length (record_offsets pos recs) = length recs.
Proof.
  revert pos. induction recs as [|r recs IH]; intros pos; [reflexivity|].
  cbn [record_offsets length]. rewrite IH. reflexivity.
Qed.

Lemma record_offsets_nth recs : forall pos i r,
  recs !! i = Some r ->
  nth i (record_offsets pos recs) 0 = pos + len (encode_records (take i recs)).
Proof.
  induction recs as [|r0 recs IH]; intros pos i r Hi; [discriminate|].
  destruct i as [|i]; cbn [record_offsets nth take].
  - change (len (encode_records [])) with 0. lia.
  - cbn in Hi. rewrite (IH _ _ _ Hi), encode_records_cons, len_app. lia.
Qed.

Lemma encode_records_middle recs i r :
  recs !! i = Some r ->
  encode_records recs
  = encode_records (take i recs) ++ marshalKey r.1 r.2
    ++ encode_records (drop (S i) recs).
Proof.
  intros Hi. rewrite <- (take_drop_middle recs i r Hi) at 1.
  rewrite encode_records_app, encode_records_cons. reflexivity.
Qed.

Lemma StronglySorted_lookup {A} (R : relation A) l :
  StronglySorted R l ->
  forall i j x y, l !! i = Some x -> l !! j = Some y -> (i < j)%nat -> R x y.
Proof.
  induction 1 as [|z l Hs IH Hall]; intros i j x y Hi Hj Hij; [discriminate|].
  destruct j as [|j]; [lia|]. cbn in Hj.
  destruct i as [|i].
  - cbn in Hi. injection Hi as ->. rewrite Forall_forall in Hall.
    apply Hall. eapply list_elem_of_lookup_2. exact Hj.
  - cbn in Hi. apply (IH i j); [assumption..|lia].
Qed.

Section indirect_records.
Variable recs : list (string * indexEntries).
Hypothesis recs_ok : Forall record_ok recs.
Hypothesis recs_sorted : StronglySorted string_lt recs.*1.
Hypothesis recs_short : len (encode_records recs) < 2 ^ 31.

Let ind : indirectIndex :=
  {| ind_b := encode_records recs; ind_offsets := record_offsets 0 recs |}.

Lemma record_ok_lookup i r : recs !! i = Some r -> record_ok r.
Proof.
  intros Hi. rewrite Forall_forall in recs_ok. apply recs_ok.
  eapply list_elem_of_lookup_2. exact Hi.
Qed.

Lemma offset_at_records i r :
  0 <= i -> recs !! Z.to_nat i = Some r ->
  offset_at ind i = Ok (len (encode_records (take (Z.to_nat i) recs))).
Proof.
  intros Hi Hr. unfold offset_at. cbn [ind ind_offsets].
  pose proof (lookup_lt_Some _ _ _ Hr) as Hlt.
  unfold len at 1. rewrite record_offsets_length.
  destruct (Z.leb_spec 0 i); [|lia].
  destruct (Z.ltb_spec i (Z.of_nat (length recs))); [|lia]. cbn [andb].
  rewrite (record_offsets_nth recs 0 _ r Hr). f_equal.
Qed.

Lemma record_bounds i r :
  recs !! i = Some r ->
  len (encode_records (take i recs))
  + (2 + len (bytes_of_string r.1) + 2 + 28 * len r.2)
  + len (encode_records (drop (S i) recs)) < 2 ^ 31.
Proof.
  intros Hr. pose proof recs_short as Hs.
  rewrite (encode_records_middle recs i r Hr), !len_app, len_marshalKey in Hs.
  lia.
Qed.

Lemma indirect_probe_records key i r :
  0 <= i -> recs !! Z.to_nat i = Some r ->
  indirect_probe ind key i = Ok (String.eqb key r.1 || string_ltb key r.1).
Proof.
  intros Hi Hr. unfold indirect_probe.
  rewrite (offset_at_records i r Hi Hr). cbn [rbind ind ind_b].
  destruct (record_ok_lookup _ _ Hr) as (Hk & Hn & He).
  pose proof (record_bounds _ _ Hr) as Hb.
  set (pre := encode_records (take (Z.to_nat i) recs)) in *.
  pose proof (len_nonneg pre). pose proof (len_nonneg (bytes_of_string r.1)).
  pose proof (len_nonneg r.2).
  pose proof (len_nonneg (encode_records (drop (S (Z.to_nat i)) recs))).
  rewrite (encode_records_middle recs _ r Hr). fold pre.
  rewrite (to_int32_small (len pre + 2)) by lia.
  rewrite slice_keyLen. cbn [rbind].
  rewrite btou16_len_field by lia.
  rewrite (to_int32_small (len pre + 2 + len (bytes_of_string r.1))) by lia.
  rewrite slice_key. cbn [rbind].
  unfold string_of_bytes, bytes_of_string.
  rewrite String.string_of_list_byte_of_string. reflexivity.
Qed.

Lemma indirect_read_records key i r :
  0 <= i -> recs !! Z.to_nat i = Some r ->
  (let* ofs := offset_at ind i in
   let* bk := slice_from (ind_b ind) ofs in
   match readKey bk with
   | Panic m => Panic m
   | Err _ => Panic "error reading key"
   | Ok (n, k) =>
       if negb (String.eqb k key) then Ok []
       else
         let ofs := to_int32 (ofs + to_int32 n) in
         let* be := slice_from (ind_b ind) ofs in
         match readEntries be with
         | Panic m => Panic m
         | Err _ => Panic "error reading entries"
         | Ok (_, entries) => Ok entries
         end
   end)
  = Ok (if String.eqb r.1 key then r.2 else []).
Proof.
  intros Hi Hr.
  rewrite (offset_at_records i r Hi Hr). cbn [rbind ind ind_b].
  destruct (record_ok_lookup _ _ Hr) as (Hk & Hn & He).
  pose proof (record_bounds _ _ Hr) as Hb.
  set (pre := encode_records (take (Z.to_nat i) recs)) in *.
  pose proof (len_nonneg pre). pose proof (len_nonneg (bytes_of_string r.1)).
  pose proof (len_nonneg r.2).
  pose proof (len_nonneg (encode_records (drop (S (Z.to_nat i)) recs))).
  rewrite (encode_records_middle recs _ r Hr). fold pre.
  rewrite slice_from_app by reflexivity. cbn [rbind].
  unfold marshalKey at 1. rewrite <- !app_assoc.
  rewrite readKey_ok by exact Hk.
  destruct (String.eqb r.1 key); cbn [negb]; [|reflexivity].
  rewrite (to_int32_small (2 + _)) by lia.
  rewrite (to_int32_small (len pre + _)) by lia.
  rewrite marshalKey_split.
  rewrite slice_from_app
    by (rewrite !len_app; change (len (u16tob _)) with 2; lia).
  cbn [rbind]. rewrite readEntries_ok by assumption. reflexivity.
Qed.

Lemma keys_lookup i r : recs !! i = Some r -> recs.*1 !! i = Some r.1.
Proof. intros Hr. rewrite list_lookup_fmap, Hr. reflexivity. Qed.

Lemma keys_lt i j ri rj :
  recs !! i = Some ri -> recs !! j = Some rj -> (i < j)%nat ->
  string_ltb ri.1 rj.1 = true.
Proof.
  intros Hi Hj Hij.
  apply (StronglySorted_lookup string_lt _ recs_sorted i j);
    [apply keys_lookup; assumption..|exact Hij].
Qed.

Lemma probe_true key r :
  String.eqb key r = true \/ string_ltb key r = true ->
  string_ltb r key = false.
Proof.
  intros [He|Hl].
  - apply String.eqb_eq in He. subst. apply string_ltb_irrefl.
  - apply string_ltb_asym. exact Hl.
Qed.

Lemma probe_false key r :
  String.eqb key r || string_ltb key r = false -> string_ltb r key = true.
Proof.
  intros Hp. apply orb_false_iff in Hp as [He Hl].
  destruct (string_ltb r key) eqn:Hr; [reflexivity|].
  apply String.eqb_neq in He. destruct He.
  apply string_ltb_total; assumption.
Qed.

(** What [indirectIndex.Entries] returns on the records: the entries of
    the record with the key, when there is one. *)
Lemma indirect_Entries_records key :
  (forall es, (key, es) ∈ recs -> indirect_Entries ind key = Ok es)
  /\ (key ∉ recs.*1 -> indirect_Entries ind key = Ok []).
Proof.
  set (p := fun h : Z =>
              match recs !! Z.to_nat h with
              | Some r => String.eqb key r.1 || string_ltb key r.1
              | None => false
              end).
  assert (Hn : len (ind_offsets ind) = len recs)
    by (unfold len; cbn [ind ind_offsets]; rewrite record_offsets_length;
        reflexivity).
  destruct (sort_Search_spec (len recs) (indirect_probe ind key) p)
    as (m & Hm & Hr & Htrue & Hfalse).
  { apply len_nonneg. }
  { intros h Hh. unfold p.
    destruct (lookup_lt_is_Some_2 recs (Z.to_nat h)) as [r Hrh];
      [unfold len in Hh; lia|].
    rewrite Hrh. apply indirect_probe_records; [lia|exact Hrh]. }
  assert (Hent : indirect_Entries ind key
                 = if m <? len recs
                   then match recs !! Z.to_nat m with
                        | Some r => Ok (if String.eqb r.1 key then r.2 else [])
                        | None => Ok []
                        end
                   else Ok []).
  { unfold indirect_Entries. rewrite Hn, Hm. cbn [rbind].
    destruct (Z.ltb_spec m (len recs)) as [Hlt|Hge]; [|reflexivity].
    destruct (lookup_lt_is_Some_2 recs (Z.to_nat m)) as [r Hrm];
      [unfold len in Hlt; lia|].
    rewrite Hrm. apply (indirect_read_records key m r); [lia|exact Hrm]. }
  split.
  - intros es Hin. apply list_elem_of_lookup_1 in Hin as [t Ht].
    pose proof (lookup_lt_Some _ _ _ Ht) as Htn.
    assert (Hmt : m = Z.of_nat t).
    { destruct (Z.lt_trichotomy m (Z.of_nat t)) as [Hlt|[Heq|Hgt]];
        [|exact Heq|].
      - (* the probe at [m] holds, yet its key lies before [key] *)
        destruct (lookup_lt_is_Some_2 recs (Z.to_nat m)) as [r Hrm]; [lia|].
        specialize (Htrue ltac:(unfold len; lia)). unfold p in Htrue.
        rewrite Hrm in Htrue. apply orb_true_iff in Htrue.
        apply probe_true in Htrue.
        pose proof (keys_lt (Z.to_nat m) t r (key, es) Hrm Ht ltac:(lia)) as Hlt'.
        cbn [fst] in Hlt'. congruence.
      - (* the probe before [m] fails, yet its key is [key] or later *)
        destruct (lookup_lt_is_Some_2 recs (Z.to_nat (m - 1))) as [r Hrm];
          [unfold len in Hr; lia|].
        specialize (Hfalse ltac:(lia)). unfold p in Hfalse.
        rewrite Hrm in Hfalse. apply probe_false in Hfalse.
        destruct (decide (Z.to_nat (m - 1) = t)) as [Heq|Hne].
        + rewrite Heq, Ht in Hrm. injection Hrm as <-. cbn [fst] in Hfalse.
          rewrite string_ltb_irrefl in Hfalse. discriminate.
        + pose proof (keys_lt t (Z.to_nat (m - 1)) (key, es) r Ht Hrm
                        ltac:(lia)) as Hlt'.
          cbn [fst] in Hlt'. apply string_ltb_asym in Hlt'. congruence. }
    rewrite Hent. subst m. rewrite Nat2Z.id, Ht.
    destruct (Z.ltb_spec (Z.of_nat t) (len recs)) as [_|Hge];
      [|unfold len in Hge; lia].
    cbn [fst snd]. rewrite String.eqb_refl. reflexivity.
  - intros Hnot. rewrite Hent.
    destruct (m <? len recs); [|reflexivity].
    destruct (recs !! Z.to_nat m) as [r|] eqn:Hrm; [|reflexivity].
    destruct (String.eqb_spec r.1 key) as [Heq|]; [|reflexivity].
    destruct Hnot. subst key. apply list_elem_of_fmap. exists r.
    split; [reflexivity|]. eapply list_elem_of_lookup_2. exact Hrm.
Qed.
End indirect_records.

(** ** Direct and indirect index over the same bytes *)

Lemma index_of_records_notin recs : forall d k,
  k ∉ recs.*1 -> index_of_records d recs !! k = d !! k.
Proof.
  induction recs as [|[k0 es0] recs IH]; intros d k Hk; [reflexivity|].
  cbn [index_of_records fold_left fst snd].
  fold (index_of_records (addEntries d k0 es0) recs).
  rewrite fmap_cons in Hk. cbn [fst] in Hk.
  apply not_elem_of_cons in Hk as [Hne Hk].
  rewrite IH by exact Hk. unfold addEntries.
  apply lookup_insert_ne. congruence.
Qed.

Lemma index_of_records_in recs : forall d k es,
  NoDup recs.*1 -> (k, es) ∈ recs ->
  index_of_records d recs !! k = Some (Entries d k ++ es).
Proof.
  induction recs as [|[k0 es0] recs IH]; intros d k es Hnd Hin.
  - apply elem_of_nil in Hin. contradiction.
  - rewrite fmap_cons in Hnd. cbn [fst] in Hnd.
    apply NoDup_cons in Hnd as [Hk0 Hnd].
    cbn [index_of_records fold_left fst snd].
    fold (index_of_records (addEntries d k0 es0) recs).
    apply elem_of_cons in Hin as [Heq|Hin].
    + injection Heq as -> ->.
      rewrite index_of_records_notin by exact Hk0.
      unfold addEntries. apply lookup_insert_eq.
    + assert (Hne : k <> k0).
      { intros ->. apply Hk0. apply list_elem_of_fmap. exists (k0, es).
        split; [reflexivity|exact Hin]. }
      rewrite (IH _ k es Hnd Hin). unfold addEntries, Entries.
      rewrite lookup_insert_ne by congruence. reflexivity.
Qed.

Lemma string_lt_NoDup keys : StronglySorted string_lt keys -> NoDup keys.
Proof.
  induction 1 as [|k keys Hs IH Hall]; constructor; [|exact IH].
  intros Hin. rewrite Forall_forall in Hall. specialize (Hall _ Hin).
  unfold string_lt in Hall. rewrite string_ltb_irrefl in Hall. discriminate.
Qed.

Lemma len_encode_uniform c recs :
  Forall (fun r => len (marshalKey r.1 r.2) = c) recs ->
  len (encode_records recs) = len recs * c.
Proof.
  induction 1 as [|r recs Hr Hall IH]; [reflexivity|].
  rewrite encode_records_cons, len_app, len_cons, IH, Hr. lia.
Qed.

Lemma len_big_entries : len big_entries = 65535.
Proof. unfold big_entries, len. rewrite length_replicate. lia. Qed.

Lemma len_big_records : len (encode_records big_records) = 2148768606.
Proof.
  rewrite (len_encode_uniform 1834986).
  - unfold big_records, len. rewrite length_map, length_seq. reflexivity.
  - unfold big_records. rewrite Forall_fmap. apply Forall_forall. intros i _.
    cbn [compose fst snd]. rewrite len_marshalKey, len_big_entries. reflexivity.
Qed.

Lemma big_records_ok : Forall record_ok big_records.
Proof.
  unfold big_records. rewrite Forall_fmap. apply Forall_forall. intros i _.
  unfold compose, record_ok. cbn [fst snd]. rewrite len_big_entries.
  split; [reflexivity|]. split; [reflexivity|].
  unfold big_entries. apply Forall_replicate. unfold entry_ok. cbn. lia.
Qed.

Lemma big_records_sorted : StronglySorted string_lt big_records.*1.
Proof.
  unfold big_records. rewrite <- list_fmap_compose.
  change (fst ∘ (fun i => (big_key i, big_entries))) with big_key.
  apply Sorted_StronglySorted; [apply _|].
  apply (bool_decide_unpack _). vm_compute. reflexivity.
Qed.

Lemma indirect_Unmarshal_loop_stop fuel b offsets i :
  to_int32 (len b) <= i ->
  indirect_Unmarshal_loop fuel b offsets i = (offsets, Ok tt).
Proof.
  intros Hi. destruct fuel; cbn [indirect_Unmarshal_loop];
    destruct (Z.ltb_spec i (to_int32 (len b))); (lia || reflexivity).
Qed.

Lemma indirect_Entries_no_offsets b key :
  indirect_Entries {| ind_b := b; ind_offsets := [] |} key = Ok [].
Proof. reflexivity. Qed.

(** C2 (the claim fails).  The serialized index below is well-formed and
    2148768606 bytes long.  Its length read as an [int32] is negative, so
    the sweep of the indirect index records no key position and [Entries]
    finds nothing, while the direct index decoded from the same bytes
    returns the 65535 entries of the first key. *)
Lemma direct_indirect_counterexample :
  let B := encode_records big_records in
  well_formed_index B
  /\ len B = 2148768606
  /\ (UnmarshalBinary ∅ B).2 = Ok tt
  /\ (indirect_UnmarshalBinary NewIndirectIndex B).2 = Ok tt
  /\ indirect_Entries (indirect_UnmarshalBinary NewIndirectIndex B).1 (big_key 0)
     = Ok []
  /\ Entries (UnmarshalBinary ∅ B).1 (big_key 0) = big_entries
  /\ len big_entries = 65535.
Proof.
  intros B. subst B.
  split. { exists big_records. split; [reflexivity|].
           split; [apply big_records_ok|apply big_records_sorted]. }
  split; [apply len_big_records|].
  rewrite UnmarshalBinary_records by apply big_records_ok.
  unfold indirect_UnmarshalBinary.
  rewrite indirect_Unmarshal_loop_stop
    by (rewrite len_big_records; vm_compute; discriminate).
  cbn [fst snd NewIndirectIndex ind_offsets].
  split; [reflexivity|]. split; [reflexivity|].
  split; [apply indirect_Entries_no_offsets|].
  split; [|apply len_big_entries].
  unfold Entries.
  rewrite (index_of_records_in big_records ∅ (big_key 0) big_entries).
  - unfold Entries. rewrite lookup_empty. reflexivity.
  - apply string_lt_NoDup, big_records_sorted.
  - unfold big_records. apply list_elem_of_fmap. exists 0%nat.
    split; [reflexivity|]. apply elem_of_seq. lia.
Qed.

(** C2 (amended).  For a well-formed serialized index [B] (records back
    to back with keys in strictly ascending order) that is shorter than
    2^31 bytes, so that the [int32] positions of the indirect index reach
    all of it, and for every key, decoding [B] into a direct index and
    wrapping [B] in an indirect index both succeed, and [Entries] returns
    the same list of entries from the two; for a key that no record of [B]
    carries, that list is empty. *)
Theorem direct_indirect_Entries (B : list byte) (key : string) :
  well_formed_index B -> len B < 2 ^ 31 ->
  let direct := UnmarshalBinary ∅ B in
  let indirect := indirect_UnmarshalBinary NewIndirectIndex B in
  direct.2 = Ok tt /\ indirect.2 = Ok tt
  /\ indirect_Entries indirect.1 key = Ok (Entries direct.1 key)
  /\ ((forall recs, B = encode_records recs -> key ∉ recs.*1) ->
      Entries direct.1 key = []).
Proof.
  intros (recs & -> & Hok & Hsorted) Hshort direct indirect.
  subst direct indirect.
  rewrite UnmarshalBinary_records by exact Hok.
  rewrite indirect_UnmarshalBinary_records by assumption.
  cbn [fst snd]. split; [reflexivity|]. split; [reflexivity|].
  destruct (indirect_Entries_records recs Hok Hsorted Hshort key) as [Hin Hout].
  pose proof (string_lt_NoDup _ Hsorted) as Hnd.
  destruct (decide (key ∈ recs.*1)) as [Hk|Hk].
  - apply list_elem_of_fmap in Hk as [[k es] [Hke Hr]]. cbn [fst] in Hke.
    subst k. split.
    + rewrite (Hin es Hr). unfold Entries at 1.
      rewrite (index_of_records_in recs ∅ key es Hnd Hr).
      unfold Entries. rewrite lookup_empty. reflexivity.
    + intros Habs. destruct (Habs recs eq_refl).
      apply list_elem_of_fmap. exists (key, es). split; [reflexivity|exact Hr].
  - assert (He : Entries (index_of_records ∅ recs) key = []).
    { unfold Entries. rewrite index_of_records_notin by exact Hk.
      rewrite lookup_empty. reflexivity. }
    rewrite He, (Hout Hk). split; [reflexivity|]. intros _. reflexivity.
Qed.

Lemma example_records_well_formed :
  well_formed_index (encode_records example_records).
Proof.
  exists example_records. split; [reflexivity|]. split.
  - apply records_okb_ok. vm_compute. reflexivity.
  - repeat constructor.
Qed.

Lemma direct_indirect_Entries_witness :
  indirect_Entries
    (indirect_UnmarshalBinary NewIndirectIndex
       (encode_records example_records)).1 "cpu"
  = Ok (Entries (UnmarshalBinary ∅ (encode_records example_records)).1 "cpu").
Proof.
  exact (proj1 (proj2 (proj2
           (direct_indirect_Entries (encode_records example_records) "cpu"
              example_records_well_formed eq_refl)))).
Defined.

(** ** Opening a reader *)

Lemma Reader_Seek_END r off :
  0 <= len (r_s r) + off ->
  Reader_Seek r off SEEK_END
  = ({| r_s := r_s r; r_i := len (r_s r) + off |}, Ok (len (r_s r) + off)).
Proof.
  intros H. unfold Reader_Seek. cbn.
  destruct (Z.ltb_spec (len (r_s r) + off) 0); [lia|reflexivity].
Qed.

Lemma Reader_Seek_SET r off :
  0 <= off ->
  Reader_Seek r off SEEK_SET = ({| r_s := r_s r; r_i := off |}, Ok off).
Proof.
  intros H. unfold Reader_Seek. cbn.
  destruct (Z.ltb_spec off 0); [lia|reflexivity].
Qed.

Lemma Reader_Read_at s i blen :
  0 < blen -> 0 <= i < len s ->
  Reader_Read {| r_s := s; r_i := i |} blen
  = ({| r_s := s;
        r_i := i + len (take (Z.to_nat blen) (drop (Z.to_nat i) s)) |},
     Ok (take (Z.to_nat blen) (drop (Z.to_nat i) s))).
Proof.
  intros Hb Hi. unfold Reader_Read. cbn [r_s r_i].
  destruct (Z.eqb_spec blen 0); [lia|].
  destruct (Z.leb_spec (len s) i); [lia|reflexivity].
Qed.

Lemma len_take_drop (s : list byte) i n :
  0 <= i -> 0 <= n -> i + n <= len s ->
  len (take (Z.to_nat n) (drop (Z.to_nat i) s)) = n.
Proof.
  intros Hi Hn Hs. unfold len in *. rewrite length_take, length_drop. lia.
Qed.

Lemma filled_full (b data : list byte) : length data = length b -> filled b data = data.
Proof.
  intros Hl. unfold filled. rewrite Hl, drop_all. apply app_nil_r.
Qed.

Lemma NewTSMReader_eq (f : list byte) :
  8 <= len f -> len f < 2 ^ 63 -> 0 <= footer f <= len f - 8 ->
  NewTSMReader {| r_s := f; r_i := 0 |}
  = match UnmarshalBinary ∅ (take (Z.to_nat (len f - 8 - footer f))
                                   (drop (Z.to_nat (footer f)) f)) with
    | (index, Ok _) =>
        Ok {| t_r := {| r_s := f; r_i := len f - 8 |};
              t_indexStart := footer f; t_indexEnd := len f - 8;
              t_index := index |}
    | (_, Err _) => Err "init: unmarshal error"
    | (_, Panic m) => Panic m
    end.
Proof.
  intros H8 Hbig Hfoot. unfold NewTSMReader, init. cbn [t_r].
  rewrite Reader_Seek_END by (cbn [r_s]; lia). cbn [r_s r_i t_r with_r t_indexStart t_indexEnd t_index].
  rewrite Z.add_0_r. rewrite (to_int64_small (len f - 8)) by lia.
  rewrite Reader_Seek_END by (cbn [r_s]; lia). cbn [r_s r_i t_r with_r t_indexStart t_indexEnd t_index].
  replace (len f + -8) with (len f - 8) by lia.
  rewrite Reader_Read_at by lia.
  cbn [r_s r_i t_r with_r t_indexStart t_indexEnd t_index].
  assert (Hd : take (Z.to_nat 8) (drop (Z.to_nat (len f - 8)) f)
               = drop (length f - 8) f).
  { replace (Z.to_nat (len f - 8)) with (length f - 8)%nat by (unfold len; lia).
    apply take_ge. rewrite length_drop. unfold len in H8. lia. }
  rewrite Hd.
  assert (Hl8 : length (drop (length f - 8) f) = 8%nat)
    by (rewrite length_drop; unfold len in H8; lia).
  rewrite filled_full by (rewrite Hl8; reflexivity).
  fold (footer f).
  rewrite Reader_Seek_SET by lia.
  cbn [r_s r_i t_r with_r t_indexStart t_indexEnd t_index].
  rewrite (to_int64_small (len f - 8 - footer f)) by lia.
  unfold make_bytes. destruct (Z.ltb_spec (len f - 8 - footer f) 0); [lia|].
  cbn [t_r with_r t_indexStart t_indexEnd t_index].
  set (L := len f - 8 - footer f) in *.
  assert (HlenL : len (replicate (Z.to_nat L) x00) = L)
    by (unfold len; rewrite length_replicate; lia).
  rewrite HlenL.
  destruct (Z.eq_dec L 0) as [HL0|HL0].
  - assert (Hff : footer f = len f - 8) by (subst L; lia).
    clearbody L. subst L. rewrite Hff. unfold Reader_Read. cbn [Z.eqb].
    cbn [r_s r_i t_r with_r t_indexStart t_indexEnd t_index].
    change (Z.to_nat 0) with 0%nat. cbn [replicate take]. unfold filled.
    cbn [length drop app]. rewrite ?Z.sub_diag, ?take_0.
    change (Z.to_nat 0) with 0%nat. rewrite ?take_0.
    destruct (UnmarshalBinary ∅ []) as [index [[]|e|m]]; reflexivity.
  - rewrite Reader_Read_at by lia.
    cbn [r_s r_i t_r with_r t_indexStart t_indexEnd t_index].
    rewrite len_take_drop by lia.
    rewrite filled_full
      by (rewrite length_replicate, length_take, length_drop;
          unfold len in *; lia).
    replace (footer f + L) with (len f - 8) by lia.
    destruct (UnmarshalBinary ∅ _) as [index [[]|e|m]]; reflexivity.
Qed.

Lemma footer_app hdr rest : 8 <= len rest -> footer (hdr ++ rest) = footer rest.
Proof.
  intros H8. unfold footer. rewrite length_app.
  rewrite drop_app_ge by (unfold len in H8; lia).
  do 3 f_equal. unfold len in H8. lia.
Qed.

(** C9 (the claim fails).  The thirteen bytes below start with five zero
    bytes, neither the magic number nor the version; the reader opens them
    as a file with an empty index. *)
Lemma NewTSMReader_header_counterexample :
  let f := replicate 5 x00 ++ u64tob 5 in
  take 4 f <> u32tob MagicNumber
  /\ nth 4 f x00 <> Version
  /\ NewTSMReader {| r_s := f; r_i := 0 |}
     = Ok {| t_r := {| r_s := f; r_i := 5 |};
             t_indexStart := 5; t_indexEnd := 5; t_index := ∅ |}.
Proof.
  cbv zeta. split; [discriminate|]. split; [discriminate|].
  vm_compute. reflexivity.
Qed.

(** C9 (amended).  Opening a reader reads the footer and the index and
    never the first five bytes: two files that differ in their header only,
    whose footer points at or after the end of the header and not past the
    footer itself, open to the same result, with the same index and index
    bounds or with the same failure.  No header is refused. *)
Theorem NewTSMReader_ignores_header (hdr hdr' rest : list byte) :
  length hdr = length hdr' -> 8 <= len rest -> len (hdr ++ rest) < 2 ^ 63 ->
  len hdr <= footer rest <= len hdr + len rest - 8 ->
  reader_view (NewTSMReader {| r_s := hdr ++ rest; r_i := 0 |})
  = reader_view (NewTSMReader {| r_s := hdr' ++ rest; r_i := 0 |}).
Proof.
  intros Hh H8 Hbig Hfoot.
  assert (Hl : len hdr' = len hdr) by (unfold len; lia).
  pose proof (len_nonneg hdr).
  rewrite !NewTSMReader_eq
    by (rewrite ?footer_app, ?len_app, ?Hl by exact H8;
        rewrite ?len_app in Hbig; lia).
  rewrite !footer_app, !len_app, Hl by exact H8.
  rewrite !drop_app_ge by (unfold len in *; lia).
  rewrite <- Hh.
  destruct (UnmarshalBinary ∅ _) as [index [[]|e|m]]; reflexivity.
Qed.

Lemma NewTSMReader_ignores_header_witness :
  reader_view (NewTSMReader {| r_s := (u32tob MagicNumber ++ [Version]) ++ u64tob 5;
                               r_i := 0 |})
  = reader_view (NewTSMReader {| r_s := replicate 5 x00 ++ u64tob 5; r_i := 0 |}).
Proof.
  apply (NewTSMReader_ignores_header (u32tob MagicNumber ++ [Version])
           (replicate 5 x00) (u64tob 5)).
  - reflexivity.
  - vm_compute. discriminate.
  - vm_compute. reflexivity.
  - vm_compute. split; discriminate.
Defined.

(** ** Reading a block whose checksum does not match *)

(** [readBlock] never looks at the four bytes at the block's offset: two
    sources that differ in those bytes only give the same result. *)
Lemma readBlock_ignores_checksum {codec : BlockCodec}
    (pre crc crc' rest : list byte) i blen e :
  length crc = 4%nat -> length crc' = 4%nat -> Offset e = len pre ->
  (readBlock {| r_s := pre ++ crc ++ rest; r_i := i |} blen e).2
  = (readBlock {| r_s := pre ++ crc' ++ rest; r_i := i |} blen e).2.
Proof.
  intros Hc Hc' Hoff. pose proof (len_nonneg pre).
  unfold readBlock. rewrite !Reader_Seek_SET by lia.
  set (N := if blen <? Size e then Size e else blen).
  unfold Reader_Read. cbn [r_s r_i]. rewrite !len_app.
  replace (len crc') with (len crc) by (unfold len; lia).
  destruct (N =? 0); [reflexivity|].
  destruct (len pre + (len crc + len rest) <=? Offset e); [reflexivity|].
  cbn [snd]. rewrite Hoff.
  replace (Z.to_nat (len pre)) with (length pre) by (unfold len; lia).
  rewrite !drop_app_length.
  assert (Hl : forall c : list byte, length c = 4%nat ->
            len (take (Z.to_nat N) (c ++ rest))
            = Z.of_nat (Nat.min (Z.to_nat N) (4 + length rest))).
  { intros c Hlc. unfold len. rewrite length_take, length_app, Hlc. reflexivity. }
  rewrite (Hl crc Hc), (Hl crc' Hc').
  set (n := Z.of_nat (Nat.min (Z.to_nat N) (4 + length rest))).
  assert (Hs : forall c : list byte, length c = 4%nat ->
            slice (take (Z.to_nat N) (c ++ rest)) 4 n
            = if 4 <=? n
              then Ok (take (Z.to_nat (n - 4)) (take (Z.to_nat N - 4) rest))
              else Panic "slice bounds out of range").
  { intros c Hlc. destruct (Z.leb_spec 4 n) as [Hn|Hn].
    - rewrite slice_ok by (rewrite ?(Hl c Hlc); fold n; lia).
      do 2 f_equal. change (Z.to_nat 4) with 4%nat.
      rewrite skipn_firstn_comm. rewrite <- Hlc at 2.
      rewrite drop_app_length. reflexivity.
    - apply slice_panic. lia. }
  rewrite (Hs crc Hc), (Hs crc' Hc'). reflexivity.
Qed.

(** C4 (code at the failing input).  The block of "cpu" sits at offset 5
    with 30 bytes; its stored checksum, zero, is not the CRC-32 of its
    payload.  [Read] decodes the payload and returns the value. *)
Theorem Read_bad_checksum :
  exists t,
    NewTSMReader {| r_s := bad_checksum_file; r_i := 0 |} = Ok t
    /\ Entries (t_index t) "cpu"
       = [ {| MinTime := 0; MaxTime := 0; Offset := 5; Size := 30 |} ]
    /\ btou32 (take 4 (drop 5 bad_checksum_file))
       <> crc32_ChecksumIEEE (take 26 (drop 9 bad_checksum_file))
    /\ (Read (codec := plainCodec) t "cpu" 0).2 = Ok [Int64Value 0 1].
Proof.
  eexists. split; [vm_compute; reflexivity|].
  split; [vm_compute; reflexivity|].
  split; [vm_compute; discriminate|]. vm_compute. reflexivity.
Qed.

(** ** From the writes to the file *)

Section pipeline.
Context {codec : BlockCodec} {srt : SortImpl}.

Lemma encoded_Ok values block : Values_Encode values = Ok block -> encoded values = block.
Proof. intros He. unfold encoded. rewrite He. reflexivity. Qed.

Lemma write_ok_encoded kv : write_ok kv -> Values_Encode kv.2 = Ok (encoded kv.2).
Proof.
  intros (He & _). unfold encoded.
  destruct (Values_Encode kv.2); [reflexivity|discriminate..].
Qed.

Lemma Write_placed t key values :
  write_ok (key, values) -> 0 <= w_n t ->
  w_n t + (4 + len (encoded values)) < 2 ^ 63 ->
  Write t key values
  = ({| w_w := w_w t ++ u32tob (crc32_ChecksumIEEE (encoded values))
                     ++ encoded values;
        w_index := Add (w_index t) key (first_time values) (last_time values)
                       (w_n t) (4 + len (encoded values));
        w_n := w_n t + (4 + len (encoded values)) |}, Ok tt).
Proof.
  intros Hok Hn Hbig. pose proof (write_ok_encoded _ Hok) as He.
  destruct Hok as (_ & _ & Hsz & _). cbn [fst snd] in *.
  destruct (Write_ok t key values _ He) as (v0 & vl & Hv0 & Hvl & Hw).
  rewrite Hw. unfold first_time, last_time. rewrite Hv0, Hvl.
  pose proof (len_nonneg (encoded values)).
  rewrite to_uint32_small, to_int64_small by lia. reflexivity.
Qed.

Lemma len_blocks_bytes_cons key values ws :
  len (blocks_bytes ((key, values) :: ws))
  = 4 + len (encoded values) + len (blocks_bytes ws).
Proof.
  unfold blocks_bytes. cbn [flat_map fst snd]. rewrite !len_app.
  change (len (u32tob _)) with 4. lia.
Qed.

Lemma write_all_eq ws : forall t,
  Forall write_ok ws -> 0 <= w_n t ->
  w_n t + len (blocks_bytes ws) < 2 ^ 63 ->
  write_all t ws
  = ({| w_w := w_w t ++ blocks_bytes ws;
        w_index := index_of_placed (w_index t) (placed (w_n t) ws);
        w_n := w_n t + len (blocks_bytes ws) |}, Ok tt).
Proof.
  induction ws as [|[key values] ws IH]; intros t Hok Hn Hbig.
  - cbn. rewrite app_nil_r, Z.add_0_r. destruct t; reflexivity.
  - apply Forall_cons in Hok as [Hkv Hok].
    rewrite len_blocks_bytes_cons in Hbig.
    pose proof (len_nonneg (encoded values)).
    pose proof (len_nonneg (blocks_bytes ws)).
    cbn [write_all]. rewrite Write_placed by (assumption || lia).
    rewrite IH by (cbn [w_n]; assumption || lia).
    cbn [w_w w_index w_n placed index_of_placed fold_left fst snd entry_of
         MinTime MaxTime Offset Size].
    rewrite len_blocks_bytes_cons.
    change (blocks_bytes ((key, values) :: ws))
      with ((u32tob (crc32_ChecksumIEEE (encoded values)) ++ encoded values)
            ++ blocks_bytes ws).
    rewrite <- !app_assoc. unfold index_of_placed.
    replace (w_n t + (4 + len (encoded values)) + len (blocks_bytes ws))
      with (w_n t + (4 + len (encoded values) + len (blocks_bytes ws))) by lia.
    reflexivity.
Qed.

Lemma Add_entry d key e :
  Add d key (MinTime e) (MaxTime e) (Offset e) (Size e)
  = <[key := Entries d key ++ [e]]> d.
Proof. destruct e. reflexivity. Qed.

Lemma Entries_insert d k es key :
  Entries (<[k := es]> d) key = if decide (k = key) then es else Entries d key.
Proof.
  unfold Entries. destruct (decide (k = key)) as [->|Hne].
  - rewrite lookup_insert_eq. reflexivity.
  - rewrite lookup_insert_ne by exact Hne. reflexivity.
Qed.

Lemma Entries_index_of_placed l : forall d key,
  Entries (index_of_placed d l) key
  = Entries d key ++ (filter (fun p => p.1 = key) l).*2.*1.
Proof.
  induction l as [|[k [e vs]] l IH]; intros d key.
  - cbn. rewrite app_nil_r. reflexivity.
  - cbn [index_of_placed fold_left fst snd].
    fold (index_of_placed (Add d k (MinTime e) (MaxTime e) (Offset e) (Size e)) l).
    rewrite IH, Add_entry, Entries_insert, filter_cons. cbn [fst].
    destruct (decide (k = key)) as [->|Hne].
    + rewrite <- app_assoc. reflexivity.
    + reflexivity.
Qed.

Lemma index_of_placed_keys l : forall d k,
  is_Some (index_of_placed d l !! k) -> is_Some (d !! k) \/ k ∈ l.*1.
Proof.
  induction l as [|[k0 [e vs]] l IH]; intros d k Hs; [left; exact Hs|].
  cbn [index_of_placed fold_left fst snd] in Hs.
  fold (index_of_placed (Add d k0 (MinTime e) (MaxTime e) (Offset e) (Size e)) l)
    in Hs.
  apply IH in Hs as [Hs|Hin].
  - rewrite Add_entry in Hs. destruct (decide (k0 = k)) as [->|Hne].
    + right. left.
    + rewrite lookup_insert_ne in Hs by exact Hne. left. exact Hs.
  - right. right. exact Hin.
Qed.

Lemma placed_blocks off ws key :
  (filter (fun p => p.1 = key) (placed off ws)).*2.*2 = blocks_under key ws.
Proof.
  revert off. unfold blocks_under.
  induction ws as [|[k vs] ws IH]; intros off; [reflexivity|].
  cbn [placed]. rewrite !filter_cons. cbn [fst].
  destruct (decide (k = key)); cbn [fmap list_fmap snd]; rewrite ?IH; reflexivity.
Qed.

Lemma placed_block_at ws : forall pre post,
  Forall write_ok ws ->
  Forall (fun p => block_at (pre ++ blocks_bytes ws ++ post) p.2.1 p.2.2)
         (placed (len pre) ws).
Proof.
  induction ws as [|[k vs] ws IH]; intros pre post Hok; [constructor|].
  apply Forall_cons in Hok as [Hkv Hok]. cbn [placed]. constructor.
  - cbn [fst snd]. exists pre, (encoded vs), (blocks_bytes ws ++ post).
    split; [|split; [reflexivity|split; [reflexivity|]]].
    + unfold blocks_bytes. cbn [flat_map fst snd].
      rewrite <- !app_assoc. reflexivity.
    + apply (write_ok_encoded _ Hkv).
  - specialize (IH (pre ++ u32tob (crc32_ChecksumIEEE (encoded vs)) ++ encoded vs)
                   post Hok).
    rewrite !len_app in IH. change (len (u32tob _)) with 4 in IH.
    unfold blocks_bytes at 1. cbn [flat_map fst snd].
    fold (blocks_bytes ws). rewrite <- !app_assoc in IH |- *. exact IH.
Qed.

Lemma placed_entries_ok ws : forall off,
  Forall write_ok ws -> 0 <= off -> off + len (blocks_bytes ws) < 2 ^ 63 ->
  Forall (fun p => entry_ok p.2.1 /\ len (bytes_of_string p.1) < 2 ^ 16)
         (placed off ws).
Proof.
  induction ws as [|[k vs] ws IH]; intros off Hok Hoff Hbig; [constructor|].
  apply Forall_cons in Hok as [Hkv Hok].
  rewrite len_blocks_bytes_cons in Hbig.
  pose proof (len_nonneg (encoded vs)). pose proof (len_nonneg (blocks_bytes ws)).
  cbn [placed]. constructor.
  - destruct Hkv as (_ & Hk & Hsz & Hft & Hlt). cbn [fst snd] in *.
    split; [|exact Hk]. unfold entry_ok, entry_of.
    cbn [MinTime MaxTime Offset Size]. lia.
  - apply IH; [exact Hok|lia|lia].
Qed.

Lemma placed_keys off ws : (placed off ws).*1 = ws.*1.
Proof.
  revert off. induction ws as [|[k vs] ws IH]; intros off; [reflexivity|].
  cbn [placed fmap list_fmap fst]. f_equal. apply IH.
Qed.

Lemma index_of_writes_ok ws :
  Forall write_ok ws -> 5 + len (blocks_bytes ws) < 2 ^ 63 ->
  (forall key, len (blocks_under key ws) < 2 ^ 16) ->
  index_ok (index_of_placed ∅ (placed 5 ws)).
Proof.
  intros Hok Hbig Hcount k es Hes.
  pose proof (placed_entries_ok ws 5 Hok ltac:(lia) Hbig) as Hp.
  assert (Hen : es = (filter (fun p => p.1 = k) (placed 5 ws)).*2.*1).
  { pose proof (Entries_index_of_placed (placed 5 ws) ∅ k) as He.
    unfold Entries in He. rewrite Hes, lookup_empty in He. exact He. }
  assert (Hf : Forall (fun p => entry_ok p.2.1 /\ len (bytes_of_string p.1) < 2 ^ 16)
                 (filter (fun p => p.1 = k) (placed 5 ws))).
  { rewrite Forall_forall in Hp |- *. intros p Hin.
    apply list_elem_of_filter in Hin as [_ Hin]. apply Hp, Hin. }
  unfold record_ok. cbn [fst snd]. split; [|split].
  - destruct (index_of_placed_keys (placed 5 ws) ∅ k) as [Hs|Hin].
    + rewrite Hes. eauto.
    + rewrite lookup_empty in Hs. destruct Hs as [? Hs]. discriminate.
    + apply list_elem_of_fmap in Hin as [p [-> Hin]].
      rewrite Forall_forall in Hp. apply Hp, Hin.
  - specialize (Hcount k). rewrite <- (placed_blocks 5) in Hcount.
    rewrite Hen. unfold len in *. rewrite !length_fmap in *. exact Hcount.
  - rewrite Hen. rewrite Forall_fmap, Forall_fmap.
    eapply Forall_impl; [exact Hf|]. intros p [Hp' _]. exact Hp'.
Qed.

Lemma elem_of_placed ws : forall off p,
  p ∈ placed off ws -> exists o, p.2.1 = entry_of o p.2.2 /\ (p.1, p.2.2) ∈ ws.
Proof.
  induction ws as [|[k vs] ws IH]; intros off p Hin.
  - apply elem_of_nil in Hin. contradiction.
  - cbn [placed] in Hin. apply elem_of_cons in Hin as [->|Hin].
    + exists off. split; [reflexivity|left].
    + destruct (IH _ _ Hin) as (o & Ho & Hw). exists o.
      split; [exact Ho|right; exact Hw].
Qed.

Lemma placed_ascending off ws key :
  ascending_per_key ws ->
  StronglySorted MinTime_lt (filter (fun p => p.1 = key) (placed off ws)).*2.*1.
Proof.
  revert off. induction ws as [|[k vs] ws IH]; intros off Hs.
  - constructor.
  - apply StronglySorted_inv in Hs as [Hs Hall]. cbn [placed].
    rewrite filter_cons. cbn [fst].
    destruct (decide (k = key)) as [->|Hne]; [|apply IH; exact Hs].
    cbn [fmap list_fmap snd fst]. constructor; [apply IH; exact Hs|].
    rewrite !Forall_fmap. apply Forall_forall. intros p Hin.
    apply list_elem_of_filter in Hin as [Hpk Hin].
    destruct (elem_of_placed _ _ _ Hin) as (o & Ho & Hw).
    rewrite Forall_forall in Hall.
    specialize (Hall _ Hw). unfold written_before in Hall. cbn [fst snd] in Hall.
    unfold compose, MinTime_lt. rewrite Ho. cbn [entry_of MinTime].
    apply Hall. congruence.
Qed.

Hypothesis codec_roundtrip :
  forall values block tail,
    Values_Encode values = Ok block -> DecodeBlock (block ++ tail) = Ok values.

Lemma readBlock_at file i blen e values :
  block_at file e values -> 0 < blen ->
  exists j,
    readBlock {| r_s := file; r_i := i |} blen e
    = ({| r_s := file; r_i := j |},
       Ok (if blen <? Size e then Size e else blen, values)).
Proof.
  intros (pre & blk & rest & -> & Hoff & Hsz & He) Hblen.
  pose proof (len_nonneg pre). pose proof (len_nonneg blk).
  pose proof (len_nonneg rest).
  unfold readBlock. rewrite Reader_Seek_SET by lia. cbn [r_s].
  set (N := if blen <? Size e then Size e else blen).
  assert (HN : 4 + len blk <= N)
    by (subst N; destruct (Z.ltb_spec blen (Size e)); lia).
  rewrite Reader_Read_at
    by (rewrite ?len_app; change (len (u32tob _)) with 4; lia).
  eexists. f_equal.
  rewrite <- Hoff. unfold len at 1 3. rewrite Nat2Z.id, drop_app_length.
  set (crc := u32tob (crc32_ChecksumIEEE blk)).
  assert (Hdata : take (Z.to_nat N) ((crc ++ blk) ++ rest)
                  = crc ++ blk ++ take (Z.to_nat N - length (crc ++ blk)) rest).
  { rewrite take_app_ge, <- app_assoc; [reflexivity|].
    rewrite length_app. subst crc. rewrite length_u32tob. unfold len in HN. lia. }
  rewrite Hdata.
  rewrite slice_ok;
    [|lia
     |rewrite len_app; change (len crc) with 4;
      pose proof (len_nonneg (blk ++ take (Z.to_nat N - length (crc ++ blk)) rest));
      lia
     |lia].
  cbn [rbind]. change (Z.to_nat 4) with (length crc).
  rewrite drop_app_length.
  rewrite take_ge
    by (rewrite len_app; change (len crc) with 4; unfold len; lia).
  rewrite (codec_roundtrip values blk _ He). reflexivity.
Qed.


Lemma len_expected_file ws :
  len (expected_file ws)
  = 5 + len (blocks_bytes ws)
    + len (MarshalBinary (index_of_placed ∅ (placed 5 ws))).2 + 8.
Proof.
  unfold expected_file. rewrite !len_app.
  change (len (u32tob MagicNumber)) with 4. change (len [Version]) with 1.
  change (len (u64tob _)) with 8. lia.
Qed.

Lemma footer_expected_file ws :
  5 + len (blocks_bytes ws) < 2 ^ 63 ->
  footer (expected_file ws) = 5 + len (blocks_bytes ws).
Proof.
  intros Hbig. pose proof (len_nonneg (blocks_bytes ws)).
  unfold footer, expected_file. rewrite !app_assoc.
  set (body := ((u32tob MagicNumber ++ [Version]) ++ blocks_bytes ws)
               ++ (MarshalBinary (index_of_placed ∅ (placed 5 ws))).2).
  rewrite length_app, length_u64tob.
  replace (length body + 8 - 8)%nat with (length body) by lia.
  rewrite drop_app_length.
  rewrite <- (app_nil_r (u64tob _)), btou64_u64tob.
  unfold to_uint64. rewrite Z.mod_mod by lia.
  apply to_int64_uint64. lia.
Qed.

Lemma index_bytes_expected_file ws :
  take (Z.to_nat (len (MarshalBinary (index_of_placed ∅ (placed 5 ws))).2))
       (drop (Z.to_nat (5 + len (blocks_bytes ws))) (expected_file ws))
  = (MarshalBinary (index_of_placed ∅ (placed 5 ws))).2.
Proof.
  unfold expected_file. rewrite (app_assoc (u32tob MagicNumber ++ [Version])).
  replace (Z.to_nat (5 + len (blocks_bytes ws)))
    with (length ((u32tob MagicNumber ++ [Version]) ++ blocks_bytes ws))
    by (rewrite !length_app; unfold len; simpl; lia).
  rewrite drop_app_length. unfold len. rewrite Nat2Z.id.
  apply take_app_length.
Qed.

Lemma reader_of_expected_file ws :
  Forall write_ok ws ->
  (forall key, len (blocks_under key ws) < 2 ^ 16) ->
  len (expected_file ws) < 2 ^ 63 ->
  NewTSMReader {| r_s := expected_file ws; r_i := 0 |}
  = Ok {| t_r := {| r_s := expected_file ws;
                    r_i := len (expected_file ws) - 8 |};
          t_indexStart := 5 + len (blocks_bytes ws);
          t_indexEnd := len (expected_file ws) - 8;
          t_index := sort_Sort <$> index_of_placed ∅ (placed 5 ws) |}.
Proof.
  intros Hok Hcount Hbig. pose proof (len_expected_file ws) as Hlen.
  pose proof (len_nonneg (blocks_bytes ws)).
  pose proof (len_nonneg (MarshalBinary (index_of_placed ∅ (placed 5 ws))).2).
  assert (Hfoot : footer (expected_file ws) = 5 + len (blocks_bytes ws))
    by (apply footer_expected_file; lia).
  rewrite NewTSMReader_eq by lia. rewrite Hfoot.
  replace (len (expected_file ws) - 8 - (5 + len (blocks_bytes ws)))
    with (len (MarshalBinary (index_of_placed ∅ (placed 5 ws))).2) by lia.
  rewrite index_bytes_expected_file.
  rewrite Unmarshal_Marshal; [reflexivity|].
  apply index_of_writes_ok; [exact Hok|lia|exact Hcount].
Qed.

Lemma Entries_fmap_sort d key :
  Entries (sort_Sort <$> d) key = sort_Sort (Entries d key).
Proof.
  unfold Entries. rewrite lookup_fmap.
  destruct (d !! key); cbn; [reflexivity|]. symmetry. apply sort_Sort_nil.
Qed.


Lemma written_file_eq ws :
  Forall write_ok ws -> 5 + len (blocks_bytes ws) < 2 ^ 63 ->
  written_file ws = Ok (expected_file ws).
Proof.
  intros Hok Hbig. unfold written_file.
  rewrite NewTSMWriter_fresh. cbn [rbind].
  rewrite write_all_eq by (cbn [fresh_writer w_n]; assumption || lia).
  rewrite Close_eq. cbn [fresh_writer w_w w_index w_n].
  unfold expected_file. rewrite <- !app_assoc. reflexivity.
Qed.
End pipeline.

(** ** The round trip of values *)

(** The plain codec decodes what it encodes, whatever follows the block. *)
Lemma plain_read_items values : forall bs tail,
  plain_items values = Some bs ->
  plain_read (length values) (bs ++ tail) = Ok values.
Proof.
  induction values as [|v values IH]; intros bs tail Hbs; [reflexivity|].
  cbn [plain_items] in Hbs.
  destruct (plain_item v) as [b|] eqn:Hb; [|discriminate].
  destruct (plain_items values) as [bs'|] eqn:Hbs'; [|discriminate].
  assert (Hbs'' : bs = b ++ bs') by congruence. subst bs. clear Hbs.
  unfold plain_item in Hb.
  destruct v as [| t x | | |]; try discriminate.
  destruct (in_int64 t && in_int64 x) eqn:Hr; [|discriminate].
  assert (Hb' : b = u64tob (to_uint64 t) ++ u64tob (to_uint64 x)) by congruence.
  subst b. clear Hb. apply andb_true_iff in Hr as [Ht Hx].
  unfold in_int64 in Ht, Hx.
  apply andb_true_iff in Ht as [Ht1 Ht2]. apply andb_true_iff in Hx as [Hx1 Hx2].
  apply Z.leb_le in Ht1, Hx1. apply Z.ltb_lt in Ht2, Hx2.
  cbn [length plain_read]. rewrite <- !app_assoc.
  assert (Hl : (len (u64tob (to_uint64 t) ++ u64tob (to_uint64 x) ++ bs' ++ tail) <? 16)
               = false).
  { apply Z.ltb_ge. rewrite !len_app. change (len (u64tob _)) with 8.
    pose proof (len_nonneg (bs' ++ tail)). rewrite len_app in *. lia. }
  rewrite Hl.
  change 16%nat with (length (u64tob (to_uint64 t) ++ u64tob (to_uint64 x))).
  rewrite (app_assoc (u64tob (to_uint64 t))), drop_app_length.
  rewrite (IH bs' tail eq_refl). cbn [rbind].
  rewrite <- app_assoc, btou64_u64tob.
  change 8%nat with (length (u64tob (to_uint64 t))).
  rewrite drop_app_length, btou64_u64tob.
  unfold to_uint64. rewrite !Z.mod_mod by lia.
  fold (to_uint64 t). fold (to_uint64 x).
  rewrite !to_int64_uint64 by lia. reflexivity.
Qed.

Lemma plain_codec_roundtrip values block tail :
  Values_Encode (codec := plainCodec) values = Ok block ->
  DecodeBlock (codec := plainCodec) (block ++ tail) = Ok values.
Proof.
  intros He. unfold Values_Encode in He.
  destruct values as [|v values]; [discriminate|].
  destruct v as [| t x | | |]; try discriminate.
  cbn [encodeInt64Block plainCodec] in He. unfold plain_encode in He.
  destruct (plain_items (Int64Value t x :: values)) as [bs|] eqn:Hbs;
    [|discriminate].
  destruct (Z.leb_spec (len (Int64Value t x :: values)) 255) as [Hn|];
    [|discriminate].
  set (vs := Int64Value t x :: values) in *.
  assert (He' : block = u64tob (to_uint64 (UnixNano t)) ++ [byte_of_Z BlockInt64]
                        ++ [byte_of_Z (len vs)] ++ bs) by congruence.
  subst block. clear He.
  pose proof (len_nonneg vs) as Hvs.
  unfold DecodeBlock. rewrite <- !app_assoc.
  assert (Hshort : (len (u64tob (to_uint64 (UnixNano t)) ++ [byte_of_Z BlockInt64]
                         ++ [byte_of_Z (len vs)] ++ bs ++ tail)
                    <=? encodedBlockHeaderSize) = false).
  { apply Z.leb_gt. rewrite !len_app. change (len (u64tob _)) with 8.
    pose proof (len_nonneg (bs ++ tail)). rewrite len_app in *.
    unfold encodedBlockHeaderSize. change (len [_]) with 1. lia. }
  rewrite Hshort.
  change 8%nat with (length (u64tob (to_uint64 (UnixNano t)))).
  rewrite app_nth2 by lia. rewrite Nat.sub_diag. cbn [app nth].
  rewrite byte_to_of_Z.
  change (BlockInt64 mod 256 =? BlockFloat64) with false.
  change (BlockInt64 mod 256 =? BlockInt64) with true.
  cbn [decodeInt64Block plainCodec]. unfold plain_decode.
  assert (H9 : nth 9 (u64tob (to_uint64 (UnixNano t)) ++ byte_of_Z BlockInt64
                      :: byte_of_Z (len vs) :: bs ++ tail) x00
               = byte_of_Z (len vs)) by reflexivity.
  rewrite H9, byte_to_of_Z. rewrite Z.mod_small by lia.
  replace (Z.to_nat (len vs)) with (length vs) by (unfold len; lia).
  assert (H10 : drop 10 (u64tob (to_uint64 (UnixNano t)) ++ byte_of_Z BlockInt64
                         :: byte_of_Z (len vs) :: bs ++ tail)
                = bs ++ tail) by reflexivity.
  rewrite H10. apply plain_read_items. exact Hbs.
Qed.

Lemma len_blocks_under_le {codec : BlockCodec} key (ws : list (string * Values)) :
  len (blocks_under key ws) <= len ws.
Proof.
  unfold blocks_under, len. rewrite length_fmap.
  pose proof (length_filter (fun kv : string * Values => kv.1 = key) ws). lia.
Qed.




(** ** The fuel of the loops is enough on every input *)

Lemma Search_loop_fuel (f : Z -> result bool) : forall fuel fuel' i j,
  j - i <= Z.of_nat fuel -> j - i <= Z.of_nat fuel' ->
  Search_loop fuel f i j = Search_loop fuel' f i j.
Proof.
  induction fuel as [|fuel IH]; intros fuel' i j H1 H2.
  - destruct fuel'; cbn [Search_loop];
      destruct (Z.ltb_spec i j); try lia; reflexivity.
  - destruct fuel' as [|fuel']; cbn [Search_loop];
      destruct (Z.ltb_spec i j) as [Hlt|]; try lia; try reflexivity.
    cbn [negb].
    assert (Hh : i <= i + (j - i) / 2 < j).
    { pose proof (Z.div_pos (j - i) 2 ltac:(lia) ltac:(lia)).
      pose proof (Z.div_lt_upper_bound (j - i) 2 (j - i) ltac:(lia) ltac:(lia)).
      lia. }
    destruct (f (i + (j - i) / 2)) as [[] | |]; cbn [rbind negb];
      try reflexivity; apply IH; lia.
Qed.

Lemma readKey_advance b n key : readKey b = Ok (n, key) -> 2 <= n.
Proof.
  unfold readKey. destruct (slice b 0 2) as [b2| |]; cbn [rbind];
    try discriminate.
  destruct (slice b 2 _) as [kb| |]; cbn [rbind]; try discriminate.
  intros [= <- _]. pose proof (len_nonneg (bytes_of_string (string_of_bytes kb))).
  lia.
Qed.

Lemma readEntries_loop_advance b : forall count i n entries n' entries',
  readEntries_loop b count i n entries = Ok (n', entries') -> n <= n'.
Proof.
  induction count as [|count IH]; intros i n entries n' entries' Hr.
  - cbn in Hr. injection Hr as <- _. lia.
  - cbn [readEntries_loop] in Hr.
    destruct (slice b _ _) as [s| |]; cbn [rbind] in Hr; try discriminate.
    destruct (IndexEntry_UnmarshalBinary s); try discriminate.
    apply IH in Hr. unfold indexEntrySize in Hr. lia.
Qed.

Lemma readEntries_advance b n entries : readEntries b = Ok (n, entries) -> 2 <= n.
Proof.
  unfold readEntries. destruct (slice b 0 2); cbn [rbind]; try discriminate.
  apply readEntries_loop_advance.
Qed.

(** Any fuel above the number of bytes left gives the same result: the
    branch that stands for exhausted fuel is never taken by
    [UnmarshalBinary]. *)
Lemma UnmarshalBinary_loop_fuel b : forall fuel fuel' d pos,
  len b - pos < Z.of_nat fuel -> len b - pos < Z.of_nat fuel' ->
  UnmarshalBinary_loop fuel d b pos = UnmarshalBinary_loop fuel' d b pos.
Proof.
  induction fuel as [|fuel IH]; intros fuel' d pos H1 H2.
  - destruct fuel'; cbn [UnmarshalBinary_loop];
      destruct (Z.ltb_spec pos (len b)); try lia; reflexivity.
  - destruct fuel' as [|fuel']; cbn [UnmarshalBinary_loop];
      destruct (Z.ltb_spec pos (len b)) as [Hlt|]; try lia; try reflexivity.
    cbn [negb].
    destruct (slice_from b pos) as [bk| |]; cbn [rbind]; try reflexivity.
    destruct (readKey bk) as [[n key]| |] eqn:Hk; try reflexivity.
    apply readKey_advance in Hk.
    destruct (slice_from b (pos + n)) as [be| |]; cbn [rbind]; try reflexivity.
    destruct (readEntries be) as [[n' entries]| |] eqn:He; try reflexivity.
    apply readEntries_advance in He. apply IH; lia.
Qed.

Lemma UnmarshalBinary_fuel d b fuel :
  (length b < fuel)%nat ->
  UnmarshalBinary d b = UnmarshalBinary_loop fuel d b 0.
Proof.
  intros Hf. unfold UnmarshalBinary. apply UnmarshalBinary_loop_fuel;
    unfold len; lia.
Qed.

Lemma to_int32_range z : - 2 ^ 31 <= to_int32 z < 2 ^ 31.
Proof.
  unfold to_int32. pose proof (Z.mod_pos_bound (z + 2 ^ 31) (2 ^ 32) eq_refl).
  lia.
Qed.

Lemma to_int32_wrap z :
  0 <= z < 2 ^ 32 -> to_int32 z = if z <? 2 ^ 31 then z else z - 2 ^ 32.
Proof.
  intros Hz. unfold to_int32. destruct (Z.ltb_spec z (2 ^ 31)).
  - rewrite Z.mod_small by lia. lia.
  - replace (z + 2 ^ 31) with (z - 2 ^ 31 + 1 * 2 ^ 32) by lia.
    rewrite Z.mod_add by lia. rewrite Z.mod_small by lia. lia.
Qed.

Lemma btou16_range b : 0 <= btou16 b < 2 ^ 16.
Proof.
  destruct b as [|b0 [|b1 rest]]; [cbn; lia..|].
  rewrite btou16_be. pose proof (be_get_range [b0; b1]) as Hr.
  change (256 ^ len [b0; b1]) with (2 ^ 16) in Hr. exact Hr.
Qed.

Lemma slice_Ok_inv b i j s : slice b i j = Ok s -> 0 <= i /\ i <= j /\ j <= len b.
Proof.
  unfold slice. destruct (Z.leb_spec 0 i); [|discriminate].
  destruct (Z.leb_spec i j); [|discriminate].
  destruct (Z.leb_spec j (len b)); [|discriminate]. intros _. lia.
Qed.

Lemma indirect_Unmarshal_loop_fuel b : forall fuel fuel' offsets i,
  - 2 ^ 31 <= i < 2 ^ 31 ->
  sweep_bound b i <= Z.of_nat fuel -> sweep_bound b i <= Z.of_nat fuel' ->
  indirect_Unmarshal_loop fuel b offsets i
  = indirect_Unmarshal_loop fuel' b offsets i.
Proof.
  induction fuel as [|fuel IH]; intros fuel' offsets i Hi H1 H2.
  - unfold sweep_bound in H1. destruct (i <? 0); lia.
  - destruct fuel' as [|fuel'];
      [unfold sweep_bound in H2; destruct (i <? 0); lia|].
    cbn [indirect_Unmarshal_loop].
    destruct (Z.ltb_spec i (to_int32 (len b))) as [Hlt|]; [|reflexivity].
    cbn [negb].
    destruct (slice b i (to_int32 (i + 2))) as [b2| |] eqn:Hs1; try reflexivity.
    apply slice_Ok_inv in Hs1 as (Hi0 & Hi2 & _).
    assert (E1 : to_int32 (i + 2) = i + 2).
    { rewrite to_int32_wrap in Hi2 |- * by lia.
      destruct (Z.ltb_spec (i + 2) (2 ^ 31)); lia. }
    rewrite E1. pose proof (btou16_range b2) as Hk.
    rewrite (to_int32_small (btou16 b2)) by lia.
    destruct (slice b (to_int32 (i + 2 + btou16 b2)) _) as [c2| |] eqn:Hs2;
      try reflexivity.
    apply slice_Ok_inv in Hs2 as (Hj0 & Hj2 & _).
    assert (E2 : to_int32 (i + 2 + btou16 b2) = i + 2 + btou16 b2).
    { rewrite to_int32_wrap in Hj0 |- * by lia.
      destruct (Z.ltb_spec (i + 2 + btou16 b2) (2 ^ 31)); lia. }
    rewrite E2 in *.
    assert (E3 : to_int32 (i + 2 + btou16 b2 + 2) = i + 2 + btou16 b2 + 2).
    { rewrite to_int32_wrap in Hj2 |- * by lia.
      destruct (Z.ltb_spec (i + 2 + btou16 b2 + 2) (2 ^ 31)); lia. }
    rewrite E3. pose proof (btou16_range c2) as Hc.
    rewrite (to_int32_small (btou16 c2)) by lia. unfold indexEntrySize.
    rewrite (to_int32_small (btou16 c2 * 28)) by lia.
    set (i4 := to_int32 (i + 2 + btou16 b2 + 2 + btou16 c2 * 28)).
    pose proof (to_int32_range (i + 2 + btou16 b2 + 2 + btou16 c2 * 28)) as Hr.
    fold i4 in Hr.
    assert (Hi4 : i4 < 0 \/ i + 4 <= i4).
    { subst i4. rewrite to_int32_wrap by lia.
      destruct (Z.ltb_spec (i + 2 + btou16 b2 + 2 + btou16 c2 * 28) (2 ^ 31)); lia. }
    assert (Hb : sweep_bound b i4 <= sweep_bound b i - 1).
    { unfold sweep_bound. destruct (Z.ltb_spec i 0); [lia|].
      destruct (Z.ltb_spec i4 0); lia. }
    apply IH; [exact Hr|lia|lia].
Qed.

Lemma indirect_UnmarshalBinary_fuel d b fuel :
  (length b < fuel)%nat ->
  indirect_UnmarshalBinary d b
  = (let r := indirect_Unmarshal_loop fuel b (ind_offsets d) 0 in
     ({| ind_b := b; ind_offsets := r.1 |}, r.2)).
Proof.
  intros Hf. unfold indirect_UnmarshalBinary. cbv zeta.
  assert (Hb : sweep_bound b 0 <= len b + 1).
  { unfold sweep_bound. cbn [Z.ltb Z.compare].
    pose proof (len_nonneg b). pose proof (to_int32_range (len b)).
    assert (to_int32 (len b) <= len b).
    { unfold to_int32.
      pose proof (Z.mod_le (len b + 2 ^ 31) (2 ^ 32) ltac:(lia) ltac:(lia)). lia. }
    lia. }
  rewrite (indirect_Unmarshal_loop_fuel b (S (length b)) fuel);
    [reflexivity|lia|unfold len in *; lia|unfold len in *; lia].
Qed.

Lemma sort_Search_fuel n f fuel :
  n <= Z.of_nat fuel -> sort_Search n f = Search_loop fuel f 0 n.
Proof. intros Hf. unfold sort_Search. apply Search_loop_fuel; lia. Qed.

(** * Further properties of the code

    What the code does beyond the statements above: edge cases, round
    trips and invariants of the index, the writer, the reader and the
    block framing, read off the source. *)

(** ** Index entries *)

Lemma slice_len b i j s : slice b i j = Ok s -> len s = j - i.
Proof.
  intros Hs. pose proof (slice_Ok_inv _ _ _ _ Hs) as (Hi & Hij & Hj).
  unfold slice in Hs.
  destruct ((0 <=? i) && (i <=? j) && (j <=? len b)); [|discriminate].
  injection Hs as <-. unfold len in *. rewrite length_take, length_drop. lia.
Qed.

Lemma btou64_range b : 0 <= btou64 b < 2 ^ 64.
Proof.
  unfold btou64. pose proof (be_get_range (take 8 b)) as Hr.
  assert (Hl : 0 <= len (take 8 b) <= 8)
    by (unfold len; rewrite length_take; lia).
  assert (256 ^ len (take 8 b) <= 256 ^ 8) by (apply Z.pow_le_mono_r; lia).
  change (2 ^ 64) with (256 ^ 8). lia.
Qed.

Lemma btou32_range b : 0 <= btou32 b < 2 ^ 32.
Proof.
  unfold btou32. pose proof (be_get_range (take 4 b)) as Hr.
  assert (Hl : 0 <= len (take 4 b) <= 4)
    by (unfold len; rewrite length_take; lia).
  assert (256 ^ len (take 4 b) <= 256 ^ 4) by (apply Z.pow_le_mono_r; lia).
  change (2 ^ 32) with (256 ^ 4). lia.
Qed.

Lemma to_int64_range z : - 2 ^ 63 <= to_int64 z < 2 ^ 63.
Proof.
  unfold to_int64. pose proof (Z.mod_pos_bound (z + 2 ^ 63) (2 ^ 64)). lia.
Qed.

Lemma IndexEntry_UnmarshalBinary_28 b :
  len b = 28 ->
  exists e, IndexEntry_UnmarshalBinary b = Ok e /\ entry_ok e.
Proof.
  intros Hl. unfold IndexEntry_UnmarshalBinary. rewrite Hl.
  cbn [Z.eqb indexEntrySize negb Pos.eqb].
  rewrite !slice_ok by lia. cbn [rbind]. eexists. split; [reflexivity|].
  unfold entry_ok, time_Unix. cbn [MinTime MaxTime Offset Size].
  pose proof (to_int64_range (btou64 (take (Z.to_nat (8 - 0)) (drop (Z.to_nat 0) b)))).
  pose proof (to_int64_range (btou64 (take (Z.to_nat (16 - 8)) (drop (Z.to_nat 8) b)))).
  pose proof (to_int64_range (btou64 (take (Z.to_nat (24 - 16)) (drop (Z.to_nat 16) b)))).
  pose proof (btou32_range (take (Z.to_nat (28 - 24)) (drop (Z.to_nat 24) b))).
  lia.
Qed.

(** X1.  An index entry whose fields fit the wire format (times and offset
    in [int64], size in [uint32]) is written as 28 bytes, and
    [IndexEntry.UnmarshalBinary] reads the entry back from them. *)
Theorem IndexEntry_roundtrip (e : IndexEntry) :
  entry_ok e ->
  len (marshalEntry e) = indexEntrySize
  /\ IndexEntry_UnmarshalBinary (marshalEntry e) = Ok e.
Proof.
  intros He. split; [apply len_marshalEntry|].
  apply IndexEntry_Unmarshal_Marshal, He.
Qed.

Lemma IndexEntry_roundtrip_witness :
  let e := {| MinTime := -5; MaxTime := 1000000000; Offset := 5; Size := 46 |} in
  len (marshalEntry e) = indexEntrySize
  /\ IndexEntry_UnmarshalBinary (marshalEntry e) = Ok e.
Proof.
  apply (IndexEntry_roundtrip
           {| MinTime := -5; MaxTime := 1000000000; Offset := 5; Size := 46 |}).
  unfold entry_ok. cbn [MinTime MaxTime Offset Size]. lia.
Defined.

(** X2.  [IndexEntry.UnmarshalBinary] accepts a buffer of exactly 28 bytes,
    whatever they hold, and the entry it reads has its fields in the range
    of their types; a buffer of any other length is refused with the
    error, and read nowhere. *)
Theorem IndexEntry_UnmarshalBinary_length (b : list byte) :
  if len b =? indexEntrySize
  then exists e, IndexEntry_UnmarshalBinary b = Ok e /\ entry_ok e
  else IndexEntry_UnmarshalBinary b = Err "unmarshalBinary: short buf".
Proof.
  destruct (Z.eqb_spec (len b) indexEntrySize) as [Hl|Hl].
  - apply IndexEntry_UnmarshalBinary_28, Hl.
  - unfold IndexEntry_UnmarshalBinary.
    destruct (Z.eqb_spec (len b) indexEntrySize); [contradiction|reflexivity].
Qed.

(** X3.  For an entry whose [MinTime] is not after its [MaxTime],
    [Contains] is true of exactly the timestamps that are not after
    [MaxTime]: the lower bound plays no part. *)
Theorem Contains_iff_le_MaxTime (e : IndexEntry) (t : Time) :
  MinTime e <= MaxTime e ->
  (Contains e t = true <-> t <= MaxTime e).
Proof. intros Hm. rewrite Contains_spec. lia. Qed.

Lemma Contains_iff_le_MaxTime_witness :
  let e := {| MinTime := 10; MaxTime := 20; Offset := 5; Size := 30 |} in
  Contains e (-7) = true <-> -7 <= MaxTime e.
Proof.
  apply (Contains_iff_le_MaxTime
           {| MinTime := 10; MaxTime := 20; Offset := 5; Size := 30 |} (-7)).
  cbn [MinTime MaxTime]. lia.
Defined.

(** ** The direct index *)

Lemma find_first {A} (p : A -> bool) (l : list A) :
  match find p l with
  | Some x => exists l1 l2, l = l1 ++ x :: l2 /\ p x = true
                            /\ Forall (fun y => p y = false) l1
  | None => Forall (fun y => p y = false) l
  end.
Proof.
  induction l as [|a l IH]; cbn [find]; [constructor|].
  destruct (p a) eqn:Hp.
  - exists [], l. split; [reflexivity|]. split; [exact Hp|constructor].
  - destruct (find p l) as [x|].
    + destruct IH as (l1 & l2 & -> & Hx & Hall).
      exists (a :: l1), l2. split; [reflexivity|]. split; [exact Hx|].
      constructor; assumption.
    + constructor; assumption.
Qed.

(** X4.  [directIndex.Entry] returns the first entry, in the order of the
    key's list, that [Contains] the timestamp; it returns nil exactly when
    no entry of the key does, which includes every key not in the index. *)
Theorem Entry_first_match (d : directIndex) (key : string) (t : Time) :
  match Entry d key t with
  | Some e =>
      exists l1 l2, Entries d key = l1 ++ e :: l2 /\ Contains e t = true
                    /\ Forall (fun x => Contains x t = false) l1
  | None => Forall (fun x => Contains x t = false) (Entries d key)
  end
  /\ (d !! key = None -> Entry d key t = None).
Proof.
  split.
  - unfold Entry. apply (find_first (fun entry => Contains entry t)).
  - intros Hk. unfold Entry, Entries. rewrite Hk. reflexivity.
Qed.

(** X5.  After any sequence of [Add] calls on a direct index, [Entries] of
    a key is what it was before followed by the entries added under that
    key, in the order of the calls; calls for other keys leave it alone. *)
Theorem Entries_after_Adds (l : list (string * IndexEntry)) :
  forall (d : directIndex) (key : string),
    Entries (add_all d l) key
    = Entries d key ++ (filter (fun p => p.1 = key) l).*2.
Proof.
  induction l as [|[k e] l IH]; intros d key.
  - cbn. rewrite app_nil_r. reflexivity.
  - cbn [add_all fold_left fst snd].
    fold (add_all (Add d k (MinTime e) (MaxTime e) (Offset e) (Size e)) l).
    rewrite IH, Add_entry, Entries_insert, filter_cons. cbn [fst].
    destruct (decide (k = key)) as [->|Hne].
    + rewrite <- app_assoc. reflexivity.
    + reflexivity.
Qed.

(** ** Decoding a direct index *)

Lemma slice_Ok_or_panic b i j :
  (exists s, slice b i j = Ok s)
  \/ slice b i j = Panic "slice bounds out of range".
Proof.
  unfold slice. destruct ((0 <=? i) && (i <=? j) && (j <=? len b));
    [left; eexists; reflexivity|right; reflexivity].
Qed.

Lemma readKey_Ok_or_panic b :
  (exists n key, readKey b = Ok (n, key))
  \/ readKey b = Panic "slice bounds out of range".
Proof.
  unfold readKey.
  destruct (slice_Ok_or_panic b 0 2) as [[b2 ->]| ->]; cbn [rbind];
    [|right; reflexivity].
  destruct (slice_Ok_or_panic b 2 (2 + btou16 b2)) as [[kb ->]| ->];
    cbn [rbind]; [left; eexists _, _; reflexivity|right; reflexivity].
Qed.

Lemma readEntries_loop_Ok_or_panic b : forall count i n entries,
  (exists n' entries', readEntries_loop b count i n entries = Ok (n', entries'))
  \/ readEntries_loop b count i n entries = Panic "slice bounds out of range".
Proof.
  induction count as [|count IH]; intros i n entries.
  - left. eexists _, _. reflexivity.
  - cbn [readEntries_loop].
    destruct (slice b (i * indexEntrySize + 2)
                      (i * indexEntrySize + 2 + indexEntrySize))
      as [s| |] eqn:Hs.
    + cbn [rbind]. apply slice_len in Hs.
      destruct (IndexEntry_UnmarshalBinary_28 s ltac:(unfold indexEntrySize in Hs; lia))
        as (e & -> & _).
      apply IH.
    + unfold slice in Hs.
      destruct ((0 <=? _) && _ && _); discriminate.
    + cbn [rbind]. right. unfold slice in Hs.
      destruct ((0 <=? _) && _ && _); [discriminate|]. injection Hs as <-.
      reflexivity.
Qed.

Lemma readEntries_Ok_or_panic b :
  (exists n entries, readEntries b = Ok (n, entries))
  \/ readEntries b = Panic "slice bounds out of range".
Proof.
  unfold readEntries.
  destruct (slice_Ok_or_panic b 0 2) as [[b2 ->]| ->]; cbn [rbind];
    [|right; reflexivity].
  apply readEntries_loop_Ok_or_panic.
Qed.

Lemma slice_from_Ok_or_panic b i :
  (exists s, slice_from b i = Ok s)
  \/ slice_from b i = Panic "slice bounds out of range".
Proof. apply slice_Ok_or_panic. Qed.

Lemma UnmarshalBinary_loop_Ok_or_panic b : forall fuel d pos,
  len b - pos < Z.of_nat fuel ->
  (UnmarshalBinary_loop fuel d b pos).2 = Ok tt
  \/ (UnmarshalBinary_loop fuel d b pos).2 = Panic "slice bounds out of range".
Proof.
  induction fuel as [|fuel IH]; intros d pos Hf.
  - cbn [UnmarshalBinary_loop].
    destruct (Z.ltb_spec pos (len b)); [lia|]. left. reflexivity.
  - cbn [UnmarshalBinary_loop].
    destruct (Z.ltb_spec pos (len b)) as [Hlt|]; [|left; reflexivity].
    cbn [negb].
    destruct (slice_from_Ok_or_panic b pos) as [[bk ->]| ->]; cbn [rbind];
      [|right; reflexivity].
    destruct (readKey_Ok_or_panic bk) as [(n & key & Hk)|Hk]; rewrite Hk;
      [|right; reflexivity].
    apply readKey_advance in Hk.
    destruct (slice_from_Ok_or_panic b (pos + n)) as [[be ->]| ->];
      cbn [rbind]; [|right; reflexivity].
    destruct (readEntries_Ok_or_panic be) as [(n' & entries & He)|He];
      rewrite He; [|right; reflexivity].
    apply readEntries_advance in He. apply IH. lia.
Qed.

(** X6.  [directIndex.UnmarshalBinary] never returns an error: on every
    byte string it either succeeds or panics on a slice that reaches past
    the end of its input.  Its two error returns are dead code. *)
Theorem UnmarshalBinary_fails_by_panic (d : directIndex) (b : list byte) :
  (UnmarshalBinary d b).2 = Ok tt
  \/ (UnmarshalBinary d b).2 = Panic "slice bounds out of range".
Proof.
  unfold UnmarshalBinary. apply UnmarshalBinary_loop_Ok_or_panic.
  unfold len. lia.
Qed.

Section decode_more.
Context {srt : SortImpl}.

Lemma Entries_index_of_sorted_records d0 d key :
  Entries (index_of_records d0 (sorted_records d)) key
  = Entries d0 key ++ sort_Sort (Entries d key).
Proof.
  unfold sorted_records, Entries at 1.
  rewrite (index_of_records_lookup (fun k => sort_Sort (Entries d k)))
    by apply keys_NoDup.
  destruct (decide (key ∈ sort_Strings (map_to_list d).*1)) as [Hin|Hin].
  - reflexivity.
  - assert (Hn : d !! key = None).
    { destruct (d !! key) as [es|] eqn:Hd; [|reflexivity].
      exfalso. apply Hin. apply elem_of_keys. rewrite Hd. eauto. }
    unfold Entries. rewrite Hn. cbn [default from_option].
    rewrite sort_Sort_nil, app_nil_r. reflexivity.
Qed.

Lemma index_of_records_app d r1 r2 :
  index_of_records d (r1 ++ r2) = index_of_records (index_of_records d r1) r2.
Proof. unfold index_of_records. apply fold_left_app. Qed.

Lemma UnmarshalBinary_loop_records_then recs : forall fuel d pre post,
  Forall record_ok recs ->
  UnmarshalBinary_loop (length recs + fuel) d
    (pre ++ encode_records recs ++ post) (len pre)
  = UnmarshalBinary_loop fuel (index_of_records d recs)
      (pre ++ encode_records recs ++ post)
      (len pre + len (encode_records recs)).
Proof.
  induction recs as [|[key entries] recs IH]; intros fuel d pre post Hok.
  - cbn [encode_records flat_map app length Nat.add index_of_records fold_left].
    change (len []) with 0. rewrite Z.add_0_r. reflexivity.
  - apply Forall_cons in Hok as [(Hk & Hn & He) Hok]. cbn [fst snd] in *.
    cbn [length Nat.add UnmarshalBinary_loop encode_records flat_map fst snd].
    fold (encode_records recs).
    pose proof (len_nonneg pre). pose proof (len_nonneg (bytes_of_string key)).
    pose proof (len_nonneg entries). pose proof (len_nonneg (encode_records recs)).
    pose proof (len_nonneg post).
    replace (len pre <? len (pre ++ (marshalKey key entries ++ encode_records recs)
                                 ++ post))
      with true
      by (symmetry; apply Z.ltb_lt; rewrite !len_app, len_marshalKey; lia).
    cbn [negb]. rewrite slice_from_app by reflexivity. cbn [rbind].
    unfold marshalKey at 1. rewrite <- !app_assoc.
    rewrite readKey_ok by exact Hk.
    set (pre1 := pre ++ u16tob (to_uint16 (len (bytes_of_string key)))
                     ++ bytes_of_string key).
    assert (Hpre1 : len pre + (2 + len (bytes_of_string key)) = len pre1).
    { subst pre1. rewrite !len_app. change (len (u16tob _)) with 2. lia. }
    rewrite Hpre1.
    assert (Hb : pre ++ marshalKey key entries ++ encode_records recs ++ post
                 = pre1 ++ u16tob (to_uint16 (len entries))
                        ++ flat_map marshalEntry entries
                        ++ encode_records recs ++ post).
    { subst pre1. unfold marshalKey. rewrite <- !app_assoc. reflexivity. }
    rewrite Hb. rewrite slice_from_app by reflexivity. cbn [rbind].
    rewrite readEntries_ok by assumption.
    rewrite <- Hb.
    replace (len pre1 + (2 + 28 * len entries))
      with (len (pre ++ marshalKey key entries))
      by (rewrite len_app, len_marshalKey; lia).
    replace (pre ++ marshalKey key entries ++ encode_records recs ++ post)
      with ((pre ++ marshalKey key entries) ++ encode_records recs ++ post)
      by (rewrite <- !app_assoc; reflexivity).
    rewrite IH by exact Hok.
    cbn [index_of_records fold_left fst snd].
    rewrite !len_app. f_equal. lia.
Qed.

Lemma UnmarshalBinary_records_then d recs post :
  Forall record_ok recs ->
  UnmarshalBinary d (encode_records recs ++ post)
  = UnmarshalBinary_loop (S (length (encode_records recs ++ post)))
      (index_of_records d recs) (encode_records recs ++ post)
      (len (encode_records recs)).
Proof.
  intros Hok.
  rewrite (UnmarshalBinary_fuel d _
             (length recs + S (length (encode_records recs ++ post)))) by lia.
  apply (UnmarshalBinary_loop_records_then recs _ d [] post Hok).
Qed.

(** X7.  Decoding adds to the index it is called on.  For two indexes
    within the limits of the wire format, decoding the serialized form of
    the first followed by that of the second, into any index, succeeds and
    leaves under every key the entries the index held, then the sorted
    entries of the first, then the sorted entries of the second. *)
Theorem UnmarshalBinary_appends (d0 d1 d2 : directIndex) (key : string) :
  index_ok d1 -> index_ok d2 ->
  let r := UnmarshalBinary d0 ((MarshalBinary d1).2 ++ (MarshalBinary d2).2) in
  r.2 = Ok tt
  /\ Entries r.1 key
     = Entries d0 key ++ sort_Sort (Entries d1 key) ++ sort_Sort (Entries d2 key).
Proof.
  intros H1 H2 r. subst r. rewrite !MarshalBinary_bytes.
  rewrite <- encode_records_app.
  rewrite UnmarshalBinary_records
    by (apply Forall_app; split; apply sorted_records_ok; assumption).
  split; [reflexivity|]. cbn [fst].
  rewrite index_of_records_app, !Entries_index_of_sorted_records.
  rewrite <- app_assoc. reflexivity.
Qed.

(** X8.  One stray byte after a serialized index makes
    [directIndex.UnmarshalBinary] panic, and only after it has added every
    record before the byte: the index then holds all the entries. *)
Theorem UnmarshalBinary_trailing_byte (d : directIndex) (x : byte) :
  index_ok d ->
  UnmarshalBinary ∅ ((MarshalBinary d).2 ++ [x])
  = (sort_Sort <$> d, Panic "slice bounds out of range").
Proof.
  intros Hok. rewrite MarshalBinary_bytes.
  rewrite UnmarshalBinary_records_then by (apply sorted_records_ok, Hok).
  rewrite index_of_sorted_records.
  cbn [UnmarshalBinary_loop].
  pose proof (len_nonneg (encode_records (sorted_records d))).
  replace (len (encode_records (sorted_records d))
           <? len (encode_records (sorted_records d) ++ [x])) with true
    by (symmetry; apply Z.ltb_lt; rewrite len_app; change (len [x]) with 1; lia).
  cbn [negb]. rewrite slice_from_app by reflexivity. cbn [rbind].
  reflexivity.
Qed.

End decode_more.

Lemma UnmarshalBinary_appends_witness :
  let r := UnmarshalBinary ∅
             ((MarshalBinary (srt := mergeSort) unsorted_index).2
              ++ (MarshalBinary (srt := mergeSort) sorted_index).2) in
  r.2 = Ok tt
  /\ Entries r.1 "cpu"
     = Entries ∅ "cpu"
       ++ sort_Sort (SortImpl := mergeSort) (Entries unsorted_index "cpu")
       ++ sort_Sort (SortImpl := mergeSort) (Entries sorted_index "cpu").
Proof.
  apply (UnmarshalBinary_appends (srt := mergeSort) ∅ unsorted_index
           sorted_index "cpu").
  - apply unsorted_index_ok.
  - apply sorted_index_ok.
Defined.

Lemma UnmarshalBinary_trailing_byte_witness :
  UnmarshalBinary ∅ ((MarshalBinary (srt := mergeSort) sorted_index).2 ++ [xff])
  = (sort_Sort (SortImpl := mergeSort) <$> sorted_index,
     Panic "slice bounds out of range").
Proof.
  apply (UnmarshalBinary_trailing_byte (srt := mergeSort) sorted_index xff).
  apply sorted_index_ok.
Defined.

(** ** [directIndex.Write] *)

(** X9.  [directIndex.Write] appends the serialized index to the sink and
    leaves the index sorted; for an index within the limits of the wire
    format, what it appended decodes to the index it leaves. *)
Theorem directIndex_Write_read_back {srt : SortImpl} (d : directIndex)
    (w : list byte) :
  index_ok d ->
  exists d' w',
    directIndex_Write d w = (d', w', Ok tt)
    /\ d' = sort_Sort <$> d
    /\ take (length w) w' = w
    /\ UnmarshalBinary ∅ (drop (length w) w') = (d', Ok tt).
Proof.
  intros Hok. unfold directIndex_Write, Buffer_Write.
  pose proof (MarshalBinary_index d) as Hi.
  pose proof (Unmarshal_Marshal d Hok) as Hu.
  destruct (MarshalBinary d) as [d' b]. cbn [fst snd] in *.
  exists d', (w ++ b). split; [reflexivity|]. split; [exact Hi|].
  rewrite take_app_length, drop_app_length, Hu, Hi. split; reflexivity.
Qed.

Lemma directIndex_Write_read_back_witness :
  exists d' w',
    directIndex_Write (srt := mergeSort) unsorted_index [x00] = (d', w', Ok tt)
    /\ d' = sort_Sort (SortImpl := mergeSort) <$> unsorted_index
    /\ take (length [x00]) w' = [x00]
    /\ UnmarshalBinary ∅ (drop (length [x00]) w') = (d', Ok tt).
Proof.
  apply (directIndex_Write_read_back (srt := mergeSort) unsorted_index [x00]).
  apply unsorted_index_ok.
Defined.

(** ** The indirect index over the bytes of [MarshalBinary] *)

(** X10.  [indirectIndex.UnmarshalBinary] on the serialized form of an
    index within the limits of the wire format, shorter than 2^31 bytes,
    keeps the bytes and appends to the offsets it already holds the
    position of each key's record, one per key in key order; it does not
    start from an empty list. *)
Theorem indirect_UnmarshalBinary_offsets {srt : SortImpl}
    (ind : indirectIndex) (d : directIndex) :
  index_ok d -> len (MarshalBinary d).2 < 2 ^ 31 ->
  indirect_UnmarshalBinary ind (MarshalBinary d).2
  = ({| ind_b := (MarshalBinary d).2;
        ind_offsets := ind_offsets ind ++ record_offsets 0 (sorted_records d) |},
     Ok tt)
  /\ length (record_offsets 0 (sorted_records d)) = size d.
Proof.
  intros Hok Hlen. rewrite MarshalBinary_bytes in *. split.
  - unfold indirect_UnmarshalBinary.
    pose proof (indirect_Unmarshal_loop_records (sorted_records d)
                  (S (length (encode_records (sorted_records d))))
                  (ind_offsets ind) []
                  (sorted_records_ok d Hok)) as Hl.
    cbn [app] in Hl. change (len []) with 0 in Hl.
    rewrite Hl; [reflexivity| |exact Hlen].
    pose proof (length_encode_records (sorted_records d)). lia.
  - rewrite record_offsets_length. unfold sorted_records.
    rewrite length_map, (Permutation_length (sort_Strings_perm _)).
    rewrite length_fmap. apply length_map_to_list.
Qed.

Lemma indirect_UnmarshalBinary_offsets_witness :
  let B := (MarshalBinary (srt := mergeSort) sorted_index).2 in
  indirect_UnmarshalBinary {| ind_b := []; ind_offsets := [7] |} B
  = ({| ind_b := B;
        ind_offsets := [7] ++ record_offsets 0
                                (sorted_records (srt := mergeSort) sorted_index) |},
     Ok tt)
  /\ length (record_offsets 0 (sorted_records (srt := mergeSort) sorted_index))
     = size sorted_index.
Proof.
  apply (indirect_UnmarshalBinary_offsets (srt := mergeSort)
           {| ind_b := []; ind_offsets := [7] |} sorted_index).
  - apply sorted_index_ok.
  - vm_compute. reflexivity.
Defined.

Section indirect_more.
Context {srt : SortImpl}.

Lemma indirect_Entries_Marshal (d : directIndex) (key : string) :
  index_ok d -> len (MarshalBinary d).2 < 2 ^ 31 ->
  indirect_Entries (indirect_UnmarshalBinary NewIndirectIndex (MarshalBinary d).2).1
    key
  = Ok (Entries (MarshalBinary d).1 key).
Proof.
  intros Hok Hlen. rewrite MarshalBinary_index, Entries_fmap_sort.
  rewrite MarshalBinary_bytes in *.
  pose proof (sorted_records_ok d Hok) as Hrecs.
  assert (Hsorted : StronglySorted string_lt (sorted_records d).*1)
    by (rewrite sorted_records_keys; apply sort_Strings_strict,
          NoDup_fst_map_to_list).
  rewrite indirect_UnmarshalBinary_records by assumption. cbn [fst].
  destruct (indirect_Entries_records _ Hrecs Hsorted Hlen key) as [Hin Hout].
  destruct (d !! key) as [es|] eqn:Hd.
  - apply Hin. unfold sorted_records. apply list_elem_of_fmap.
    exists key. split; [reflexivity|]. apply elem_of_keys. rewrite Hd. eauto.
  - rewrite Hout.
    + unfold Entries. rewrite Hd. cbn [default from_option].
      rewrite sort_Sort_nil. reflexivity.
    + rewrite sorted_records_keys, elem_of_keys, Hd. intros [? ?]. discriminate.
Qed.

(** X11.  An indirect index built over the bytes that [MarshalBinary]
    returns for a direct index (within the limits of the wire format,
    shorter than 2^31 bytes) answers [Entry] as the direct index does
    after the call: the same entry for every key and timestamp, or nil
    from both. *)
Theorem indirect_Entry_Marshal (d : directIndex) (key : string) (t : Time) :
  index_ok d -> len (MarshalBinary d).2 < 2 ^ 31 ->
  indirect_Entry (indirect_UnmarshalBinary NewIndirectIndex (MarshalBinary d).2).1
    key t
  = Ok (Entry (MarshalBinary d).1 key t).
Proof.
  intros Hok Hlen. unfold indirect_Entry.
  rewrite indirect_Entries_Marshal by assumption. reflexivity.
Qed.
End indirect_more.

Lemma indirect_Entry_Marshal_witness :
  indirect_Entry
    (indirect_UnmarshalBinary NewIndirectIndex
       (MarshalBinary (srt := mergeSort) sorted_index).2).1
    "cpu" 2500000000
  = Ok (Entry (MarshalBinary (srt := mergeSort) sorted_index).1 "cpu" 2500000000).
Proof.
  apply (indirect_Entry_Marshal (srt := mergeSort) sorted_index "cpu" 2500000000).
  - apply sorted_index_ok.
  - vm_compute. reflexivity.
Defined.

(** ** The writer *)

Section writer_more.
Context {codec : BlockCodec} {srt : SortImpl}.

(** X12.  A [Write] that does not succeed leaves the writer as it was:
    nothing reached the sink, and the index and the position are
    unchanged. *)
Theorem Write_fails_clean (t : tsmWriter) (key : string) (values : Values) :
  (Write t key values).2 = Ok tt \/ (Write t key values).1 = t.
Proof.
  destruct (Values_Encode values) as [block|e|m] eqn:He.
  - left. destruct (Write_ok t key values block He) as (v0 & vl & _ & _ & ->).
    reflexivity.
  - right. unfold Write. rewrite He. reflexivity.
  - right. unfold Write. rewrite He. reflexivity.
Qed.

Lemma write_all_grows ws : forall t t',
  write_all t ws = (t', Ok tt) -> exists added, w_w t' = w_w t ++ added.
Proof.
  induction ws as [|[key values] ws IH]; intros t t' Hw.
  - cbn in Hw. injection Hw as <-. exists []. rewrite app_nil_r. reflexivity.
  - cbn [write_all] in Hw.
    destruct (Values_Encode values) as [block|e|m] eqn:He.
    + destruct (Write_ok t key values block He) as (v0 & vl & _ & _ & Hwr).
      rewrite Hwr in Hw. apply IH in Hw as [added Ha]. cbn [w_w] in Ha.
      eexists. rewrite Ha, <- app_assoc. reflexivity.
    + unfold Write in Hw. rewrite He in Hw. discriminate.
    + unfold Write in Hw. rewrite He in Hw. discriminate.
Qed.

Lemma write_all_position ws : forall t t',
  write_all t ws = (t', Ok tt) -> 0 <= w_n t ->
  w_n t + (len (w_w t') - len (w_w t)) < 2 ^ 63 ->
  w_n t' = w_n t + (len (w_w t') - len (w_w t)).
Proof.
  induction ws as [|[key values] ws IH]; intros t t' Hw Hn Hbig.
  - cbn in Hw. injection Hw as <-. lia.
  - cbn [write_all] in Hw.
    destruct (Values_Encode values) as [block|e|m] eqn:He.
    + destruct (Write_ok t key values block He) as (v0 & vl & _ & _ & Hwr).
      rewrite Hwr in Hw.
      pose proof (write_all_grows _ _ _ Hw) as [added Ha]. cbn [w_w] in Ha.
      pose proof (len_nonneg added). pose proof (len_nonneg block).
      assert (Hl : len (w_w t') = len (w_w t) + 4 + len block + len added).
      { rewrite Ha, !len_app. change (len (u32tob _)) with 4. lia. }
      apply IH in Hw; cbn [w_w w_n] in *.
      * rewrite Hw, to_int64_small by lia.
        rewrite !len_app. change (len (u32tob _)) with 4. lia.
      * rewrite to_int64_small by lia. lia.
      * rewrite to_int64_small by lia.
        rewrite !len_app. change (len (u32tob _)) with 4. lia.
    + unfold Write in Hw. rewrite He in Hw. discriminate.
    + unfold Write in Hw. rewrite He in Hw. discriminate.
Qed.

(** X13.  The position that the writer keeps, and records as the offset of
    the next block, counts the bytes the writer itself has written: after
    [NewTSMWriter] on a sink that already holds bytes and any successful
    writes, the sink is the old content followed by what was written, and
    the position is the length of the latter alone, not the place in the
    sink. *)
Theorem writer_position (w0 : list byte) (ws : list (string * Values))
    (t0 t : tsmWriter) :
  NewTSMWriter w0 = Ok t0 -> write_all t0 ws = (t, Ok tt) ->
  len (w_w t) - len w0 < 2 ^ 63 ->
  (exists written, w_w t = w0 ++ written /\ w_n t = len written)
  /\ (Close t).1.(w_w) = w_w t ++ (MarshalBinary (w_index t)).2
                              ++ u64tob (len (w_w t) - len w0).
Proof.
  intros Hnew Hw Hbig.
  set (hdr := u32tob MagicNumber ++ [Version]).
  assert (Hh : len hdr = 5) by reflexivity.
  assert (Ht0 : t0 = {| w_w := w0 ++ hdr; w_index := ∅; w_n := 5 |})
    by (unfold NewTSMWriter, Buffer_Write in Hnew; injection Hnew as <-;
        reflexivity).
  subst t0.
  pose proof (write_all_grows _ _ _ Hw) as [added Ha]. cbn [w_w] in Ha.
  pose proof (len_nonneg added). pose proof (len_nonneg w0).
  assert (Hl : len (w_w t) = len w0 + 5 + len added)
    by (rewrite Ha, !len_app; lia).
  pose proof (write_all_position _ _ _ Hw) as Hp. cbn [w_w w_n] in Hp.
  rewrite len_app in Hp.
  specialize (Hp ltac:(lia) ltac:(lia)).
  split.
  - exists (hdr ++ added).
    split; [rewrite Ha, <- app_assoc; reflexivity|].
    rewrite Hp, len_app. lia.
  - rewrite Close_eq. cbn [fst w_w]. rewrite Hp.
    replace (5 + (len (w_w t) - (len w0 + len hdr)))
      with (len (w_w t) - len w0) by lia.
    unfold to_uint64. rewrite Z.mod_small by lia. reflexivity.
Qed.

(** X14.  The file that [NewTSMWriter] on an empty sink, writes that the
    format can hold, and [Close] produce: the five header bytes
    16 D1 16 D1 01, the blocks in write order, each behind the CRC-32 of
    its bytes, the serialized index, and the position where the index
    starts as the last eight bytes. *)
Theorem written_file_layout (ws : list (string * Values)) :
  Forall write_ok ws -> 5 + len (blocks_bytes ws) < 2 ^ 63 ->
  exists index : list byte,
    written_file ws
    = Ok ([x16; xd1; x16; xd1; x01] ++ blocks_bytes ws ++ index
          ++ u64tob (5 + len (blocks_bytes ws)))
    /\ index = (MarshalBinary (index_of_placed ∅ (placed 5 ws))).2.
Proof.
  intros Hok Hbig. eexists. split; [|reflexivity].
  rewrite written_file_eq by assumption. unfold expected_file.
  pose proof (len_nonneg (blocks_bytes ws)).
  unfold to_uint64. rewrite Z.mod_small by lia. reflexivity.
Qed.
End writer_more.

Lemma writer_position_witness :
  let t0 := {| w_w := [xff] ++ u32tob MagicNumber ++ [Version];
               w_index := ∅; w_n := 5 |} in
  let t := (write_all (codec := plainCodec) t0
              [("cpu"%string, [Int64Value 0 1])]).1 in
  (exists written, w_w t = [xff] ++ written /\ w_n t = len written)
  /\ (Close (srt := mergeSort) t).1.(w_w)
     = w_w t ++ (MarshalBinary (srt := mergeSort) (w_index t)).2
           ++ u64tob (len (w_w t) - len [xff]).
Proof.
  apply (writer_position (codec := plainCodec) (srt := mergeSort) [xff]
           [("cpu"%string, [Int64Value 0 1])]
           {| w_w := [xff] ++ u32tob MagicNumber ++ [Version];
              w_index := ∅; w_n := 5 |}
           (write_all (codec := plainCodec)
              {| w_w := [xff] ++ u32tob MagicNumber ++ [Version];
                 w_index := ∅; w_n := 5 |}
              [("cpu"%string, [Int64Value 0 1])]).1).
  - reflexivity.
  - vm_compute. reflexivity.
  - vm_compute. reflexivity.
Defined.

Lemma written_file_layout_witness :
  exists index : list byte,
    written_file (codec := plainCodec) (srt := mergeSort) in_order_writes
    = Ok ([x16; xd1; x16; xd1; x01] ++ blocks_bytes (codec := plainCodec) in_order_writes
          ++ index
          ++ u64tob (5 + len (blocks_bytes (codec := plainCodec) in_order_writes)))
    /\ index = (MarshalBinary (srt := mergeSort)
                  (index_of_placed ∅ (placed (codec := plainCodec) 5 in_order_writes))).2.
Proof.
  apply (written_file_layout (codec := plainCodec) (srt := mergeSort)
           in_order_writes).
  - repeat constructor; vm_compute; congruence.
  - vm_compute. reflexivity.
Defined.

(** ** The reader *)

Lemma Reader_Seek_END_neg r off :
  len (r_s r) + off < 0 ->
  Reader_Seek r off SEEK_END = (r, Err "bytes.Reader.Seek: negative position").
Proof.
  intros H. unfold Reader_Seek. cbn.
  destruct (Z.ltb_spec (len (r_s r) + off) 0); [reflexivity|lia].
Qed.

Lemma Reader_Seek_SET_neg r off :
  off < 0 ->
  Reader_Seek r off SEEK_SET = (r, Err "bytes.Reader.Seek: negative position").
Proof.
  intros H. unfold Reader_Seek. cbn.
  destruct (Z.ltb_spec off 0); [reflexivity|lia].
Qed.

(** X15.  A source shorter than the eight bytes of a footer is refused by
    [NewTSMReader] with the error of the seek to the footer. *)
Theorem NewTSMReader_short (f : list byte) (i : Z) :
  len f < 8 ->
  NewTSMReader {| r_s := f; r_i := i |}
  = Err "init: failed to seek to index ptr".
Proof.
  intros Hl. pose proof (len_nonneg f).
  unfold NewTSMReader, init. cbn [t_r].
  rewrite Reader_Seek_END by (cbn [r_s]; lia).
  cbn [r_s r_i t_r with_r t_indexStart t_indexEnd t_index].
  rewrite Reader_Seek_END_neg by (cbn [r_s]; lia). reflexivity.
Qed.

Lemma NewTSMReader_short_witness :
  NewTSMReader {| r_s := [x16; xd1; x16; xd1; x01]; r_i := 0 |}
  = Err "init: failed to seek to index ptr".
Proof.
  apply (NewTSMReader_short [x16; xd1; x16; xd1; x01] 0). reflexivity.
Defined.

Lemma init_footer (f : list byte) (t : tsmReader) :
  8 <= len f -> len f < 2 ^ 63 -> r_s (t_r t) = f ->
  init t
  = (let t :=
       {| t_r := {| r_s := f; r_i := len f |}; t_indexStart := footer f;
          t_indexEnd := len f - 8; t_index := t_index t |} in
     match Reader_Seek (t_r t) (t_indexStart t) SEEK_SET with
     | (r, Panic m) => (with_r t r, Panic m)
     | (r, Err _) => (with_r t r, Err "init: failed to seek to index")
     | (r, Ok _) =>
     let t := with_r t r in
     match make_bytes (to_int64 (t_indexEnd t - t_indexStart t)) with
     | Panic m => (t, Panic m)
     | Err e => (t, Err e)
     | Ok b =>
     let t := {| t_r := t_r t; t_indexStart := t_indexStart t;
                 t_indexEnd := t_indexEnd t; t_index := ∅ |} in
     match Reader_Read (t_r t) (len b) with
     | (r, Panic m) => (with_r t r, Panic m)
     | (r, Err _) => (with_r t r, Err "init: read index")
     | (r, Ok data) =>
     let b := filled b data in
     let t := with_r t r in
     match UnmarshalBinary (t_index t) b with
     | (index, Panic m) =>
         ({| t_r := t_r t; t_indexStart := t_indexStart t;
             t_indexEnd := t_indexEnd t; t_index := index |}, Panic m)
     | (index, Err _) =>
         ({| t_r := t_r t; t_indexStart := t_indexStart t;
             t_indexEnd := t_indexEnd t; t_index := index |},
          Err "init: unmarshal error")
     | (index, Ok _) =>
         ({| t_r := t_r t; t_indexStart := t_indexStart t;
             t_indexEnd := t_indexEnd t; t_index := index |}, Ok tt)
     end end end end).
Proof.
  intros H8 Hbig Hs. destruct t as [[s i] istart iend idx]. cbn [t_r r_s] in Hs.
  subst s. unfold init. cbn [t_r].
  rewrite Reader_Seek_END by (cbn [r_s]; lia).
  cbn [r_s r_i t_r with_r t_indexStart t_indexEnd t_index].
  rewrite Z.add_0_r. rewrite (to_int64_small (len f - 8)) by lia.
  rewrite Reader_Seek_END by (cbn [r_s]; lia).
  cbn [r_s r_i t_r with_r t_indexStart t_indexEnd t_index].
  replace (len f + -8) with (len f - 8) by lia.
  rewrite Reader_Read_at by lia.
  cbn [r_s r_i t_r with_r t_indexStart t_indexEnd t_index].
  assert (Hd : take (Z.to_nat 8) (drop (Z.to_nat (len f - 8)) f)
               = drop (length f - 8) f).
  { replace (Z.to_nat (len f - 8)) with (length f - 8)%nat by (unfold len; lia).
    apply take_ge. rewrite length_drop. unfold len in H8. lia. }
  rewrite Hd.
  assert (Hl8 : length (drop (length f - 8) f) = 8%nat)
    by (rewrite length_drop; unfold len in H8; lia).
  rewrite filled_full by (rewrite Hl8; reflexivity).
  fold (footer f).
  replace (len f - 8 + len (drop (length f - 8) f)) with (len f)
    by (unfold len; rewrite Hl8; lia).
  reflexivity.
Qed.

(** X16.  A footer that points outside the file.  When the last eight
    bytes, read as an [int64], are negative, [NewTSMReader] returns the
    error of the seek to the index; when they point past the footer's own
    position, it panics on the negative length of the index buffer. *)
Theorem NewTSMReader_footer_out_of_range (f : list byte) :
  8 <= len f -> len f < 2 ^ 63 ->
  (footer f < 0 ->
   NewTSMReader {| r_s := f; r_i := 0 |} = Err "init: failed to seek to index")
  /\ (len f - 8 < footer f ->
      NewTSMReader {| r_s := f; r_i := 0 |}
      = Panic "makeslice: len out of range").
Proof.
  intros H8 Hbig.
  assert (Hr : - 2 ^ 63 <= footer f < 2 ^ 63) by apply to_int64_range.
  split; intros Hf; unfold NewTSMReader;
    rewrite (init_footer f) by (assumption || reflexivity); cbv zeta;
    cbn [t_r t_indexStart t_indexEnd t_index with_r].
  - rewrite Reader_Seek_SET_neg by exact Hf. reflexivity.
  - rewrite Reader_Seek_SET by lia.
    cbn [t_r t_indexStart t_indexEnd t_index with_r].
    rewrite to_int64_small by lia. unfold make_bytes.
    destruct (Z.ltb_spec (len f - 8 - footer f) 0); [reflexivity|lia].
Qed.

Lemma NewTSMReader_footer_out_of_range_witness :
  footer (replicate 8 xff) = -1
  /\ NewTSMReader {| r_s := replicate 8 xff; r_i := 0 |}
     = Err "init: failed to seek to index"
  /\ footer (replicate 5 x00 ++ u64tob 6) = 6
  /\ NewTSMReader {| r_s := replicate 5 x00 ++ u64tob 6; r_i := 0 |}
     = Panic "makeslice: len out of range".
Proof.
  split; [vm_compute; reflexivity|]. split.
  - apply (proj1 (NewTSMReader_footer_out_of_range (replicate 8 xff)
                    ltac:(vm_compute; discriminate)
                    ltac:(vm_compute; reflexivity))).
    vm_compute. reflexivity.
  - split; [vm_compute; reflexivity|].
    apply (proj2 (NewTSMReader_footer_out_of_range (replicate 5 x00 ++ u64tob 6)
                    ltac:(vm_compute; discriminate)
                    ltac:(vm_compute; reflexivity))).
    vm_compute. reflexivity.
Defined.

(** X17.  For a key with no entries in the index, [Read] and [ReadAll]
    return no values and no error, and leave the source where it was. *)
Theorem Read_absent_key {codec : BlockCodec} (t : tsmReader) (key : string)
    (timestamp : Time) :
  Entries (t_index t) key = [] ->
  Read t key timestamp = (t, Ok []) /\ ReadAll t key = (t, Ok []).
Proof.
  intros He. unfold Read, ReadAll, Entry. rewrite He. split; reflexivity.
Qed.

Lemma Read_absent_key_witness :
  let t := {| t_r := {| r_s := []; r_i := 0 |}; t_indexStart := 0;
              t_indexEnd := 0; t_index := sorted_index |} in
  Read (codec := plainCodec) t "disk" 0 = (t, Ok [])
  /\ ReadAll (codec := plainCodec) t "disk" = (t, Ok []).
Proof.
  apply (Read_absent_key (codec := plainCodec)
           {| t_r := {| r_s := []; r_i := 0 |}; t_indexStart := 0;
              t_indexEnd := 0; t_index := sorted_index |} "disk" 0).
  reflexivity.
Defined.

(** ** [Read] with an entry that points outside the source *)

(** X18.  When the index entry that [Read] finds points outside the
    source, the call fails as the reads do: with the error of the seek for
    a negative offset, with the end-of-file error for an offset at or past
    the end, with a panic on the slice when fewer than four bytes remain at
    the offset, and with the panic of [DecodeBlock] when at most thirteen
    remain. *)
Theorem Read_bad_offset {codec : BlockCodec} (t : tsmReader) (key : string)
    (timestamp : Time) (e : IndexEntry) :
  Entry (t_index t) key timestamp = Some e ->
  let remaining := len (r_s (t_r t)) - Offset e in
  (Offset e < 0 ->
   (Read t key timestamp).2 = Err "bytes.Reader.Seek: negative position")
  /\ (0 <= Offset e -> remaining <= 0 -> (Read t key timestamp).2 = Err "EOF")
  /\ (0 <= Offset e -> 0 < remaining < 4 ->
      (Read t key timestamp).2 = Panic "slice bounds out of range")
  /\ (0 <= Offset e -> 4 <= remaining <= 13 ->
      (Read t key timestamp).2 = Panic "decode of short block").
Proof.
  intros He remaining. subst remaining. unfold Read. rewrite He.
  destruct (t_r t) as [s i]. cbn [r_s]. unfold readBlock.
  set (blen := if 16 * 1024 <? Size e then Size e else 16 * 1024).
  assert (Hblen : 16 * 1024 <= blen)
    by (subst blen; destruct (Z.ltb_spec (16 * 1024) (Size e)); lia).
  split; [|split; [|split]].
  - intros Hneg. rewrite Reader_Seek_SET_neg by exact Hneg. reflexivity.
  - intros Hoff Hrem. rewrite Reader_Seek_SET by exact Hoff.
    unfold Reader_Read. cbn [r_s r_i].
    destruct (Z.eqb_spec blen 0); [lia|].
    destruct (Z.leb_spec (len s) (Offset e)); [reflexivity|lia].
  - intros Hoff Hrem. rewrite Reader_Seek_SET by exact Hoff. cbn [r_s r_i].
    rewrite Reader_Read_at by lia.
    rewrite slice_panic; [reflexivity|]. right. left.
    unfold len in *. rewrite length_take, length_drop. lia.
  - intros Hoff Hrem. rewrite Reader_Seek_SET by exact Hoff. cbn [r_s r_i].
    rewrite Reader_Read_at by lia.
    set (data := take (Z.to_nat blen) (drop (Z.to_nat (Offset e)) s)).
    assert (Hd : len data = len s - Offset e)
      by (subst data; unfold len in *; rewrite length_take, length_drop; lia).
    rewrite slice_ok by lia. cbn [rbind snd]. unfold DecodeBlock.
    assert (Hp : len (take (Z.to_nat (len data - 4)) (drop (Z.to_nat 4) data))
                 <= encodedBlockHeaderSize).
    { unfold encodedBlockHeaderSize, len in *.
      rewrite length_take, length_drop. lia. }
    destruct (Z.leb_spec
                (len (take (Z.to_nat (len data - 4)) (drop (Z.to_nat 4) data)))
                encodedBlockHeaderSize); [reflexivity|lia].
Qed.

Lemma Read_bad_offset_witness :
  let t := {| t_r := {| r_s := replicate 5 x00; r_i := 0 |};
              t_indexStart := 0; t_indexEnd := 0;
              t_index := Add NewDirectIndex "cpu" 0 10 3 30 |} in
  (Read (codec := plainCodec) t "cpu" 0).2 = Panic "slice bounds out of range".
Proof.
  refine (proj1 (proj2 (proj2
            (Read_bad_offset (codec := plainCodec)
               {| t_r := {| r_s := replicate 5 x00; r_i := 0 |};
                  t_indexStart := 0; t_indexEnd := 0;
                  t_index := Add NewDirectIndex "cpu" 0 10 3 30 |}
               "cpu" 0
               {| MinTime := 0; MaxTime := 10; Offset := 3; Size := 30 |}
               _))) _ _).
  - reflexivity.
  - cbn [Offset]. lia.
  - vm_compute. split; reflexivity.
Defined.

(** ** Reading one block of a written file *)

Lemma find_fmap_ext {A B} (g : A -> B) (p : B -> bool) (q : A -> bool)
    (l : list A) :
  Forall (fun a => p (g a) = q a) l ->
  find p (g <$> l) = g <$> find q l.
Proof.
  induction 1 as [|a l Ha Hall IH]; [reflexivity|].
  cbn [fmap list_fmap find]. rewrite Ha. destruct (q a); [reflexivity|].
  exact IH.
Qed.

Section read_one.
Context {codec : BlockCodec} {srt : SortImpl}.
Hypothesis codec_roundtrip : forall values block tail,
  Values_Encode values = Ok block -> DecodeBlock (block ++ tail) = Ok values.

Lemma Read_expected_file ws t key timestamp :
  Forall write_ok ws -> ascending_per_key ws ->
  r_s (t_r t) = expected_file ws ->
  t_index t = sort_Sort <$> index_of_placed ∅ (placed 5 ws) ->
  (Read t key timestamp).2
  = Ok (default [] (find (fun values => block_Contains values timestamp)
                         (blocks_under key ws))).
Proof.
  intros Hok Hasc Hsrc Hidx.
  set (ps := filter (fun p => p.1 = key) (placed 5 ws)).
  assert (Hblocks : Entries (t_index t) key = ps.*2.*1).
  { rewrite Hidx, Entries_fmap_sort, Entries_index_of_placed.
    unfold Entries. rewrite lookup_empty. cbn [from_option app].
    apply sort_Sort_sorted_id, placed_ascending, Hasc. }
  assert (Hin : forall p, p ∈ ps -> p ∈ placed 5 ws)
    by (intros p Hp; subst ps; apply list_elem_of_filter in Hp as [_ Hp];
        exact Hp).
  unfold Read, Entry. rewrite Hblocks.
  rewrite <- (placed_blocks 5 ws key). fold ps.
  rewrite <- !list_fmap_compose.
  set (q := fun p : string * (IndexEntry * Values) => Contains p.2.1 timestamp).
  rewrite (find_fmap_ext _ _ q) by (apply Forall_forall; reflexivity).
  rewrite (find_fmap_ext _ (fun values => block_Contains values timestamp) q).
  2:{ apply Forall_forall. intros p Hp. cbn [compose].
      destruct (elem_of_placed ws 5 p (Hin p Hp)) as (o & Ho & _).
      subst q. cbn beta. rewrite Ho. reflexivity. }
  destruct (find q ps) as [p|] eqn:Hf; cbn [fmap option_fmap option_map];
    [|reflexivity].
  apply find_some in Hf as [Hp _]. apply list_elem_of_In in Hp.
  pose proof (placed_block_at ws (u32tob MagicNumber ++ [Version])
                ((MarshalBinary (index_of_placed ∅ (placed 5 ws))).2 ++
                 u64tob (to_uint64 (5 + len (blocks_bytes ws)))) Hok) as Hb.
  change (len (u32tob MagicNumber ++ [Version])) with 5 in Hb.
  rewrite Forall_forall in Hb. specialize (Hb p (Hin p Hp)).
  assert (Hfile : (u32tob MagicNumber ++ [Version]) ++ blocks_bytes ws
                  ++ (MarshalBinary (index_of_placed ∅ (placed 5 ws))).2
                  ++ u64tob (to_uint64 (5 + len (blocks_bytes ws)))
                  = expected_file ws) by reflexivity.
  rewrite Hfile in Hb.
  destruct (t_r t) as [src i] eqn:Hr. cbn [r_s] in Hsrc. subst src.
  destruct (readBlock_at codec_roundtrip _ i (16 * 1024) _ _ Hb ltac:(lia))
    as [j Hj].
  cbn [compose]. rewrite Hj. reflexivity.
Qed.

End read_one.

(** X19.  Under the conditions of the round trip of [ReadAll] (a codec
    whose decoder returns a block's values whatever follows the block,
    writes that the format can hold, blocks of a key written in strictly
    ascending order of their first timestamp), [Read] on the written file
    returns, for every key and timestamp, the values of one block: the
    first block written under the key whose index entry [Contains] the
    timestamp, and no values when there is none. *)
Theorem Read_written_file {codec : BlockCodec} {srt : SortImpl}
    (ws : list (string * Values)) (key : string) (timestamp : Time) :
  (forall values block tail,
     Values_Encode values = Ok block -> DecodeBlock (block ++ tail) = Ok values) ->
  Forall write_ok ws ->
  (forall key, len (blocks_under key ws) < 2 ^ 16) ->
  ascending_per_key ws ->
  len (expected_file ws) < 2 ^ 63 ->
  exists file t,
    written_file ws = Ok file
    /\ NewTSMReader {| r_s := file; r_i := 0 |} = Ok t
    /\ (Read t key timestamp).2
       = Ok (default [] (find (fun values => block_Contains values timestamp)
                              (blocks_under key ws))).
Proof.
  intros Hcodec Hok Hcount Hasc Hbig.
  pose proof (len_expected_file ws) as Hlen.
  pose proof (len_nonneg (blocks_bytes ws)).
  pose proof (len_nonneg (MarshalBinary (index_of_placed ∅ (placed 5 ws))).2).
  eexists _, _. split; [apply written_file_eq; [exact Hok|lia]|].
  split; [apply reader_of_expected_file; assumption|].
  apply (Read_expected_file Hcodec); try assumption; reflexivity.
Qed.

Lemma Read_written_file_witness :
  exists file t,
    written_file (codec := plainCodec) (srt := mergeSort) in_order_writes
    = Ok file
    /\ NewTSMReader {| r_s := file; r_i := 0 |} = Ok t
    /\ (Read (codec := plainCodec) t "cpu" 2500000000).2
       = Ok (default []
               (find (fun values =>
                        block_Contains (codec := plainCodec) values 2500000000)
                     (blocks_under "cpu" in_order_writes))).
Proof.
  apply (Read_written_file (codec := plainCodec) (srt := mergeSort)).
  - apply plain_codec_roundtrip.
  - repeat constructor; vm_compute; congruence.
  - intros key. pose proof (len_blocks_under_le key in_order_writes) as Hle.
    change (len in_order_writes) with 3 in Hle. lia.
  - repeat constructor; intros Hk; try discriminate Hk; vm_compute; reflexivity.
  - vm_compute. reflexivity.
Defined.

(** ** Zig-zag integers *)

Lemma to_uint64_int64 z : to_uint64 (to_int64 z) = to_uint64 z.
Proof.
  unfold to_uint64, to_int64.
  replace ((z + 2 ^ 63) mod 2 ^ 64 - 2 ^ 63)
    with ((z + 2 ^ 63) mod 2 ^ 64 + (- 2 ^ 63)) by lia.
  rewrite Zplus_mod_idemp_l. f_equal. lia.
Qed.

Lemma lxor_ones a n :
  0 <= n -> 0 <= a < 2 ^ n -> Z.lxor a (Z.ones n) = Z.ones n - a.
Proof.
  intros Hn Ha.
  assert (Hl : Z.land (Z.lnot a) (Z.ones n) = Z.lxor a (Z.ones n)).
  { apply Z.bits_inj'. intros i Hi.
    rewrite Z.land_spec, Z.lxor_spec, Z.lnot_spec by exact Hi.
    destruct (Z.ltb_spec i n) as [Hlt|Hge].
    - rewrite Z.ones_spec_low by lia.
      rewrite andb_true_r, xorb_true_r. reflexivity.
    - rewrite Z.ones_spec_high by lia.
      rewrite andb_false_r, xorb_false_r. symmetry.
      destruct (Z.eq_dec a 0) as [->|Hne]; [apply Z.bits_0|].
      apply Z.bits_above_log2; [lia|].
      apply Z.lt_le_trans with n; [|exact Hge].
      apply Z.log2_lt_pow2; lia. }
  rewrite <- Hl, Z.land_ones by exact Hn. unfold Z.lnot.
  rewrite Z.ones_equiv.
  replace (Z.pred (- a)) with (Z.pred (2 ^ n) - a + (-1) * 2 ^ n) by lia.
  rewrite Z.mod_add by lia. apply Z.mod_small. lia.
Qed.

Lemma shiftr_63 x : - 2 ^ 63 <= x < 2 ^ 63 -> Z.shiftr x 63 = if x <? 0 then -1 else 0.
Proof.
  intros Hx. rewrite Z.shiftr_div_pow2 by lia.
  destruct (Z.ltb_spec x 0).
  - symmetry. apply (Z.div_unique x (2 ^ 63) (-1) (x + 2 ^ 63)); lia.
  - apply Z.div_small. lia.
Qed.

Lemma ZigZagEncode_eq x :
  - 2 ^ 63 <= x < 2 ^ 63 ->
  ZigZagEncode x = if x <? 0 then - 2 * x - 1 else 2 * x.
Proof.
  intros Hx. unfold ZigZagEncode.
  rewrite to_uint64_int64, Z.shiftl_mul_pow2 by lia.
  rewrite shiftr_63 by exact Hx. change (2 ^ 1) with 2.
  destruct (Z.ltb_spec x 0).
  - change (to_uint64 (-1)) with (Z.ones 64).
    assert (Hm : to_uint64 (x * 2) = x * 2 + 2 ^ 64).
    { unfold to_uint64. symmetry.
      apply (Z.mod_unique (x * 2) (2 ^ 64) (-1)); lia. }
    rewrite Hm, lxor_ones by lia.
    rewrite Z.ones_equiv. unfold to_uint64. rewrite Z.mod_small; lia.
  - change (to_uint64 0) with 0. rewrite Z.lxor_0_r.
    unfold to_uint64. rewrite Z.mod_mod by lia. rewrite Z.mod_small; lia.
Qed.

Lemma ZigZagDecode_eq v :
  0 <= v < 2 ^ 64 ->
  ZigZagDecode v = if Z.odd v then - (v / 2) - 1 else v / 2.
Proof.
  intros Hv. unfold ZigZagDecode.
  assert (Hland : Z.land v 1 = v mod 2)
    by (change 1 with (Z.ones 1); apply Z.land_ones; lia).
  rewrite Hland, Zmod_odd.
  rewrite Z.shiftr_div_pow2 by lia. change (2 ^ 1) with 2.
  assert (Hh : 0 <= v / 2 < 2 ^ 63).
  { split; [apply Z.div_pos; lia|]. apply Z.div_lt_upper_bound; lia. }
  destruct (Z.odd v).
  - change (to_uint64 (Z.shiftr (to_int64 (Z.shiftl (to_int64 1) 63)) 63))
      with (Z.ones 64).
    rewrite lxor_ones by lia. rewrite Z.ones_equiv.
    unfold to_int64.
    replace (Z.pred (2 ^ 64) - v / 2 + 2 ^ 63)
      with (2 ^ 63 - v / 2 - 1 + 1 * 2 ^ 64) by lia.
    rewrite Z.mod_add by lia. rewrite Z.mod_small; lia.
  - change (to_uint64 (Z.shiftr (to_int64 (Z.shiftl (to_int64 0) 63)) 63))
      with 0.
    rewrite Z.lxor_0_r. apply to_int64_small. lia.
Qed.

(** X20.  [ZigZagEncode] maps an [int64] to a [uint64] so that values of
    small magnitude get small codes (0, -1, 1, -2 become 0, 1, 2, 3: [2x]
    for [x >= 0], [-2x - 1] for [x < 0]), and [ZigZagDecode] returns the
    value from its code. *)
Theorem ZigZag_roundtrip (x : Z) :
  - 2 ^ 63 <= x < 2 ^ 63 ->
  ZigZagEncode x = (if x <? 0 then - 2 * x - 1 else 2 * x)
  /\ 0 <= ZigZagEncode x < 2 ^ 64
  /\ ZigZagDecode (ZigZagEncode x) = x.
Proof.
  intros Hx. pose proof (ZigZagEncode_eq x Hx) as He.
  assert (Hr : 0 <= ZigZagEncode x < 2 ^ 64)
    by (rewrite He; destruct (Z.ltb_spec x 0); lia).
  split; [exact He|]. split; [exact Hr|].
  rewrite ZigZagDecode_eq by exact Hr. rewrite He.
  destruct (Z.ltb_spec x 0).
  - replace (-2 * x - 1) with (1 + 2 * (- x - 1)) by lia.
    rewrite Z.odd_add_mul_2. cbn [Z.odd].
    replace (1 + 2 * (- x - 1)) with (1 + (- x - 1) * 2) by lia.
    rewrite Z.div_add by lia. change (1 / 2) with 0. lia.
  - rewrite Z.odd_mul. cbn [Z.odd andb].
    replace (2 * x) with (x * 2) by lia. rewrite Z.div_mul by lia.
    reflexivity.
Qed.

Lemma ZigZag_roundtrip_witness :
  ZigZagEncode (-3) = (if -3 <? 0 then - 2 * -3 - 1 else 2 * -3)
  /\ 0 <= ZigZagEncode (-3) < 2 ^ 64
  /\ ZigZagDecode (ZigZagEncode (-3)) = -3.
Proof. apply (ZigZag_roundtrip (-3)). lia. Defined.

(** X21.  Every [uint64] is the code of an [int64]: [ZigZagDecode] yields a
    value in the range of [int64], and [ZigZagEncode] of it is the code
    again. *)
Theorem ZigZag_roundtrip_code (v : Z) :
  0 <= v < 2 ^ 64 ->
  - 2 ^ 63 <= ZigZagDecode v < 2 ^ 63
  /\ ZigZagEncode (ZigZagDecode v) = v.
Proof.
  intros Hv. pose proof (ZigZagDecode_eq v Hv) as Hd.
  assert (Hh : 0 <= v / 2 < 2 ^ 63).
  { split; [apply Z.div_pos; lia|]. apply Z.div_lt_upper_bound; lia. }
  assert (Hr : - 2 ^ 63 <= ZigZagDecode v < 2 ^ 63)
    by (rewrite Hd; destruct (Z.odd v); lia).
  split; [exact Hr|]. rewrite ZigZagEncode_eq by exact Hr. rewrite Hd.
  pose proof (Z.div_mod v 2 ltac:(lia)) as Hdm. rewrite Zmod_odd in Hdm.
  destruct (Z.odd v).
  - destruct (Z.ltb_spec (- (v / 2) - 1) 0); lia.
  - destruct (Z.ltb_spec (v / 2) 0); lia.
Qed.

Lemma ZigZag_roundtrip_code_witness :
  - 2 ^ 63 <= ZigZagDecode 5 < 2 ^ 63 /\ ZigZagEncode (ZigZagDecode 5) = 5.
Proof. apply (ZigZag_roundtrip_code 5). lia. Defined.

(** ** The two streams of a block *)

Lemma Ok_inj {A} (a b : A) : Ok a = Ok b -> a = b.
Proof. intros [= ->]. reflexivity. Qed.

Lemma len_uvarint_bytes k : forall x,
  1 <= len (uvarint_bytes k x) <= Z.of_nat k + 1.
Proof.
  induction k as [|k IH]; intros x; cbn [uvarint_bytes].
  - change (len [_]) with 1. lia.
  - destruct (128 <=? x).
    + rewrite len_cons. specialize (IH (Z.shiftr x 7)). lia.
    + change (len [_]) with 1. lia.
Qed.

Lemma byte_or_128 (b : byte) :
  (128 <=? Z.lor (byte_to_Z b) 128) && (Z.lor (byte_to_Z b) 128 <? 256)
  && (Z.land (Z.lor (byte_to_Z b) 128) 127 =? byte_to_Z b mod 128) = true.
Proof. destruct b; reflexivity. Qed.

Lemma continuation_byte x :
  let c := byte_to_Z (byte_of_Z (Z.lor (byte_to_Z (byte_of_Z x)) 128)) in
  128 <= c < 256 /\ Z.land c 127 = x mod 128.
Proof.
  cbv zeta. pose proof (byte_or_128 (byte_of_Z x)) as Hb.
  apply andb_true_iff in Hb as [Hb H3]. apply andb_true_iff in Hb as [H1 H2].
  apply Z.leb_le in H1. apply Z.ltb_lt in H2. apply Z.eqb_eq in H3.
  rewrite (byte_to_of_Z (Z.lor _ _)), Z.mod_small by lia.
  split; [lia|]. rewrite H3, byte_to_of_Z.
  apply Z.mod_mod_divide. exists 2. lia.
Qed.

Lemma lor_shiftl acc b s :
  0 <= s -> 0 <= acc < 2 ^ s -> Z.lor acc (Z.shiftl b s) = acc + b * 2 ^ s.
Proof.
  intros Hs Ha. rewrite <- Z.shiftl_mul_pow2 by exact Hs.
  symmetry. apply Z.add_nocarry_lor. apply Z.bits_inj'. intros m Hm.
  rewrite Z.land_spec, Z.bits_0.
  destruct (Z.ltb_spec m s) as [Hlt|Hge].
  - rewrite Z.shiftl_spec_low by exact Hlt. apply andb_false_r.
  - destruct (Z.eq_dec acc 0) as [->|Hne]; [rewrite Z.bits_0; reflexivity|].
    rewrite Z.bits_above_log2; [reflexivity|lia|].
    apply Z.lt_le_trans with s; [|exact Hge].
    apply Z.log2_lt_pow2; lia.
Qed.

Lemma lor_shiftl_uint64 acc b s :
  0 <= s -> 0 <= acc < 2 ^ s -> 0 <= b -> b * 2 ^ s < 2 ^ 64 ->
  Z.lor acc (to_uint64 (Z.shiftl b s)) = acc + b * 2 ^ s.
Proof.
  intros Hs Ha Hb Hbig.
  assert (Hp : 0 < 2 ^ s) by (apply Z.pow_pos_nonneg; lia).
  assert (Hu : to_uint64 (Z.shiftl b s) = Z.shiftl b s).
  { unfold to_uint64. apply Z.mod_small.
    rewrite Z.shiftl_mul_pow2 by exact Hs. nia. }
  rewrite Hu. apply lor_shiftl; assumption.
Qed.

Lemma store_ok buf i v :
  0 <= i < len buf ->
  store buf i v
  = Ok (take (Z.to_nat i) buf ++ v :: drop (S (Z.to_nat i)) buf).
Proof.
  intros Hi. unfold store.
  destruct (Z.leb_spec 0 i); [|lia]. destruct (Z.ltb_spec i (len buf)); [|lia].
  cbn [andb]. rewrite insert_take_drop by (unfold len in Hi; lia).
  reflexivity.
Qed.

Lemma PutUvarint_loop_bytes k : forall fuel buf x i,
  (k < fuel)%nat -> 0 <= x < 2 ^ (7 * (Z.of_nat k + 1)) -> 0 <= i ->
  i + len (uvarint_bytes k x) <= len buf ->
  PutUvarint_loop fuel buf x i
  = (take (Z.to_nat i) buf ++ uvarint_bytes k x
     ++ drop (Z.to_nat (i + len (uvarint_bytes k x))) buf,
     Ok (i + len (uvarint_bytes k x))).
Proof.
  assert (Hlast : forall fuel buf x i,
            (0 < fuel)%nat -> x < 128 -> 0 <= i -> i + 1 <= len buf ->
            PutUvarint_loop fuel buf x i
            = (take (Z.to_nat i) buf ++ [byte_of_Z x]
               ++ drop (Z.to_nat (i + 1)) buf, Ok (i + 1))).
  { intros fuel buf x i Hf Hx Hi Hl. destruct fuel as [|fuel]; [lia|].
    cbn [PutUvarint_loop]. destruct (Z.leb_spec 128 x); [lia|].
    rewrite store_ok by lia.
    replace (Z.to_nat (i + 1)) with (S (Z.to_nat i)) by lia. reflexivity. }
  induction k as [|k IH]; intros fuel buf x i Hf Hx Hi Hl.
  - cbn [uvarint_bytes] in *. change (len [_]) with 1 in *.
    apply Hlast; lia.
  - cbn [uvarint_bytes] in *. revert Hl.
    destruct (Z.leb_spec 128 x) as [Hge|Hlt]; intros Hl.
    + rewrite len_cons in *.
      pose proof (len_uvarint_bytes k (Z.shiftr x 7)) as Hub.
      destruct fuel as [|fuel]; [lia|]. cbn [PutUvarint_loop].
      destruct (Z.leb_spec 128 x); [|lia].
      rewrite store_ok by lia.
      set (b := byte_of_Z (Z.lor (byte_to_Z (byte_of_Z x)) 128)).
      set (buf' := take (Z.to_nat i) buf ++ b :: drop (S (Z.to_nat i)) buf).
      assert (Hlen' : len buf' = len buf).
      { subst buf'. unfold len in *.
        rewrite length_app, length_take. cbn [length]. rewrite length_drop. lia. }
      rewrite IH; [|lia| |lia|lia].
      2:{ rewrite Z.shiftr_div_pow2 by lia. split; [apply Z.div_pos; lia|].
          apply Z.div_lt_upper_bound; [lia|].
          rewrite <- Z.pow_add_r by lia.
          replace (7 + 7 * (Z.of_nat k + 1)) with (7 * (Z.of_nat (S k) + 1)) by lia.
          lia. }
      f_equal; [|f_equal; lia].
      assert (Ht : take (Z.to_nat (i + 1)) buf' = take (Z.to_nat i) buf ++ [b]).
      { subst buf'. replace (Z.to_nat (i + 1)) with (length (take (Z.to_nat i) buf) + 1)%nat
          by (rewrite length_take; unfold len in *; lia).
        rewrite take_app_add'; [|reflexivity]. reflexivity. }
      assert (Hd : drop (Z.to_nat (i + 1 + len (uvarint_bytes k (Z.shiftr x 7)))) buf'
                   = drop (Z.to_nat (i + (1 + len (uvarint_bytes k (Z.shiftr x 7))))) buf).
      { subst buf'.
        replace (Z.to_nat (i + 1 + len (uvarint_bytes k (Z.shiftr x 7))))
          with (length (take (Z.to_nat i) buf)
                + S (Z.to_nat (len (uvarint_bytes k (Z.shiftr x 7)))))%nat
          by (rewrite length_take; unfold len in *; lia).
        rewrite drop_app_add'; [|reflexivity]. cbn [drop].
        rewrite drop_drop. f_equal. unfold len in *. lia. }
      rewrite Ht, Hd, <- app_assoc. reflexivity.
    + change (len [_]) with 1 in *. apply Hlast; lia.
Qed.

Lemma Uvarint_loop_bytes k : forall x rest acc s i,
  0 <= x < 2 ^ (7 * (Z.of_nat k + 1)) -> 0 <= i -> s = 7 * i ->
  0 <= acc < 2 ^ s -> acc + x * 2 ^ s < 2 ^ 64 -> i = 0 \/ 1 <= x ->
  Uvarint_loop (uvarint_bytes k x ++ rest) acc s i
  = (acc + x * 2 ^ s, i + len (uvarint_bytes k x)).
Proof.
  assert (Hlast : forall x rest acc s i,
            0 <= x < 128 -> 0 <= i -> s = 7 * i ->
            0 <= acc < 2 ^ s -> acc + x * 2 ^ s < 2 ^ 64 -> i = 0 \/ 1 <= x ->
            Uvarint_loop ([byte_of_Z x] ++ rest) acc s i
            = (acc + x * 2 ^ s, i + 1)).
  { intros x rest acc s i Hx Hi Hs Ha Hbig Hne.
    cbn [app Uvarint_loop]. rewrite byte_to_of_Z, Z.mod_small by lia.
    destruct (Z.ltb_spec x 128); [|lia].
    assert (Hp : 0 < 2 ^ s) by (apply Z.pow_pos_nonneg; lia).
    assert (Hov : (9 <? i) || (i =? 9) && (1 <? x) = false).
    { destruct Hne as [->|Hx1]; [reflexivity|].
      assert (Hs64 : 2 ^ s < 2 ^ 64) by nia.
      apply Z.pow_lt_mono_r_iff in Hs64; [|lia|lia].
      destruct (Z.ltb_spec 9 i); [lia|]. cbn [orb].
      destruct (Z.eqb_spec i 9) as [->|]; [|reflexivity]. cbn [andb].
      subst s. change (2 ^ (7 * 9)) with (2 ^ 63) in *.
      destruct (Z.ltb_spec 1 x); [lia|reflexivity]. }
    rewrite Hov. f_equal. apply lor_shiftl_uint64; nia. }
  induction k as [|k IH]; intros x rest acc s i Hx Hi Hs Ha Hbig Hne.
  - cbn [uvarint_bytes]. change (len [_]) with 1.
    apply Hlast; assumption.
  - cbn [uvarint_bytes]. destruct (Z.leb_spec 128 x) as [Hge|Hlt].
    + rewrite len_cons. cbn [app Uvarint_loop].
      destruct (continuation_byte x) as [Hc Hland].
      set (c := byte_to_Z (byte_of_Z (Z.lor (byte_to_Z (byte_of_Z x)) 128))) in *.
      destruct (Z.ltb_spec c 128); [lia|]. rewrite Hland.
      assert (Hp : 0 < 2 ^ s) by (apply Z.pow_pos_nonneg; lia).
      pose proof (Z.mod_pos_bound x 128 ltac:(lia)) as Hm.
      pose proof (Z.div_mod x 128 ltac:(lia)) as Hdm.
      assert (Hq : 1 <= x / 128) by (apply Z.div_le_lower_bound; lia).
      assert (Hacc : Z.lor acc (to_uint64 (Z.shiftl (x mod 128) s))
                     = acc + x mod 128 * 2 ^ s).
      { apply lor_shiftl_uint64; nia. }
      rewrite Hacc.
      assert (Hs7 : 2 ^ (s + 7) = 128 * 2 ^ s)
        by (rewrite Z.pow_add_r by lia; change (2 ^ 7) with 128; lia).
      rewrite Z.shiftr_div_pow2 by lia. change (2 ^ 7) with 128.
      rewrite IH; [f_equal; [rewrite Hs7; nia|lia]| |lia|lia|rewrite Hs7; nia
                  |rewrite Hs7; nia|right; exact Hq].
      split; [lia|]. apply Z.div_lt_upper_bound; [lia|].
      change 128 with (2 ^ 7). rewrite <- Z.pow_add_r by lia.
      replace (7 + 7 * (Z.of_nat k + 1)) with (7 * (Z.of_nat (S k) + 1)) by lia.
      lia.
    + change (len [_]) with 1. apply Hlast; try assumption. lia.
Qed.

Lemma packBlock_bytes ts values :
  len ts < 2 ^ 64 ->
  packBlock ts values = Ok (uvarint_bytes 9 (len ts) ++ ts ++ values).
Proof.
  intros Hl. pose proof (len_nonneg ts).
  pose proof (len_uvarint_bytes 9 (len ts)) as Hub.
  unfold packBlock. change (make_bytes 10) with (Ok (replicate 10 x00)).
  cbn [rbind]. unfold PutUvarint, to_uint64. rewrite Z.mod_small by lia.
  rewrite (PutUvarint_loop_bytes 9);
    [|rewrite length_replicate; lia
     |change (2 ^ (7 * (Z.of_nat 9 + 1))) with (2 ^ 70); lia
     |lia
     |change (len (replicate 10 x00)) with 10; lia].
  change (Z.to_nat 0) with 0%nat. rewrite take_0. cbn [app].
  rewrite Z.add_0_l.
  rewrite slice_prefix by reflexivity. reflexivity.
Qed.

Lemma Uvarint_bytes x rest :
  0 <= x < 2 ^ 64 ->
  Uvarint (uvarint_bytes 9 x ++ rest) = (x, len (uvarint_bytes 9 x)).
Proof.
  intros Hx. unfold Uvarint.
  rewrite (Uvarint_loop_bytes 9 x rest 0 0 0);
    [f_equal; lia
    |change (2 ^ (7 * (Z.of_nat 9 + 1))) with (2 ^ 70); lia
    |lia|lia|change (2 ^ 0) with 1; lia|lia|left; reflexivity].
Qed.

(** X22.  [unpackBlock] undoes [packBlock]: the length of the timestamp
    stream is stored ahead of it in at most ten bytes, and the two streams
    come back as they went in.  Bytes that follow a packed block come back
    as part of the value stream. *)
Theorem unpackBlock_packBlock (ts values tail : list byte) :
  len ts + 10 < 2 ^ 63 ->
  exists block,
    packBlock ts values = Ok block
    /\ len block <= 10 + len ts + len values
    /\ unpackBlock block = Ok (ts, values)
    /\ unpackBlock (block ++ tail) = Ok (ts, values ++ tail).
Proof.
  intros Hl. pose proof (len_nonneg ts).
  pose proof (len_uvarint_bytes 9 (len ts)) as Hub.
  exists (uvarint_bytes 9 (len ts) ++ ts ++ values).
  split; [apply packBlock_bytes; lia|].
  split; [rewrite !len_app; lia|].
  assert (Hun : forall rest,
            unpackBlock (uvarint_bytes 9 (len ts) ++ ts ++ rest) = Ok (ts, rest)).
  { intros rest. unfold unpackBlock. rewrite Uvarint_bytes by lia.
    rewrite (to_int64_small (len ts)) by lia.
    rewrite to_int64_small by lia.
    rewrite slice_app_mid. cbn [rbind].
    rewrite app_assoc, slice_from_app by (rewrite len_app; reflexivity).
    reflexivity. }
  split; [apply Hun|]. rewrite <- !app_assoc. apply Hun.
Qed.

Lemma unpackBlock_packBlock_witness :
  exists block,
    packBlock [x01; x02; x03] [x0a; x0b] = Ok block
    /\ len block <= 10 + len [x01; x02; x03] + len [x0a; x0b]
    /\ unpackBlock block = Ok ([x01; x02; x03], [x0a; x0b])
    /\ unpackBlock (block ++ [xff])
       = Ok ([x01; x02; x03], [x0a; x0b] ++ [xff]).
Proof.
  apply (unpackBlock_packBlock [x01; x02; x03] [x0a; x0b] [xff]).
  reflexivity.
Defined.

(** X23.  A packed block that is cut inside its timestamp stream makes
    [unpackBlock] panic: the stored length reaches past the end of what is
    left. *)
Theorem unpackBlock_truncated (ts values block : list byte) (n : nat) :
  len ts + 10 < 2 ^ 63 -> packBlock ts values = Ok block ->
  len block - len values - len ts <= Z.of_nat n < len block - len values ->
  unpackBlock (take n block) = Panic "slice bounds out of range".
Proof.
  intros Hl Hp Hn. pose proof (len_nonneg ts).
  pose proof (len_uvarint_bytes 9 (len ts)) as Hub.
  rewrite packBlock_bytes in Hp by lia. apply Ok_inj in Hp. subst block.
  rewrite !len_app in Hn.
  set (ub := uvarint_bytes 9 (len ts)) in *.
  assert (Ht : take n (ub ++ ts ++ values)
               = ub ++ take (n - length ub) ts).
  { rewrite take_app_ge by (unfold len in *; lia). f_equal.
    rewrite take_app_le by (unfold len in *; lia). reflexivity. }
  rewrite Ht. unfold unpackBlock. subst ub. rewrite Uvarint_bytes by lia.
  rewrite (to_int64_small (len ts)) by lia.
  rewrite to_int64_small by lia.
  rewrite slice_panic; [reflexivity|]. right. right.
  rewrite len_app. unfold len in *. rewrite length_take. lia.
Qed.

Lemma unpackBlock_truncated_witness :
  unpackBlock (take 2 [x03; x01; x02; x03; x0a; x0b])
  = Panic "slice bounds out of range".
Proof.
  apply (unpackBlock_truncated [x01; x02; x03] [x0a; x0b]
           [x03; x01; x02; x03; x0a; x0b] 2).
  - reflexivity.
  - reflexivity.
  - vm_compute. split; [discriminate|reflexivity].
Defined.

(** ** The header of a block *)

(** X24.  The header that the block encoders put in front of a block is
    nine bytes, the first timestamp as a big-endian [uint64] and the type
    byte, and [DecodeBlock] goes by it: a block that is a header and
    nothing more is refused with a panic, and a longer one goes to the
    decoder of the type in its ninth byte, or to a panic when the type is
    none of the four. *)
Theorem DecodeBlock_packBlockHeader {codec : BlockCodec} (t : Time) (ty : byte)
    (body : list byte) :
  let block := packBlockHeader t ty ++ body in
  len (packBlockHeader t ty) = encodedBlockHeaderSize
  /\ btou64 block = to_uint64 (UnixNano t)
  /\ DecodeBlock block
     = if len body =? 0 then Panic "decode of short block"
       else if byte_to_Z ty =? BlockFloat64 then decodeFloatBlock block
       else if byte_to_Z ty =? BlockInt64 then decodeInt64Block block
       else if byte_to_Z ty =? BlockBool then decodeBoolBlock block
       else if byte_to_Z ty =? BlockString then decodeStringBlock block
       else Panic "unknown block type".
Proof.
  cbv zeta. unfold packBlockHeader.
  assert (Hl : len (u64tob (to_uint64 (UnixNano t)) ++ [ty]) = 9)
    by (rewrite len_app; reflexivity).
  split; [exact Hl|]. split.
  - rewrite <- app_assoc, btou64_u64tob. unfold to_uint64.
    apply Z.mod_mod. lia.
  - unfold DecodeBlock. rewrite len_app, Hl. unfold encodedBlockHeaderSize.
    pose proof (len_nonneg body).
    destruct (Z.eqb_spec (len body) 0) as [Hz|Hz].
    + destruct (Z.leb_spec (9 + len body) 9); [reflexivity|lia].
    + destruct (Z.leb_spec (9 + len body) 9); [lia|].
      assert (Hn : nth 8 ((u64tob (to_uint64 (UnixNano t)) ++ [ty]) ++ body) x00
                   = ty).
      { rewrite <- app_assoc.
        rewrite (app_nth2 (u64tob _)) by (rewrite length_u64tob; lia).
        rewrite length_u64tob. reflexivity. }
      rewrite Hn. reflexivity.
Qed.

(** ** Values *)

Section values_more.
Context {codec : BlockCodec}.

Lemma Value_UnixNano_Time v : Value_UnixNano v = UnixNano (Value_Time v).
Proof.
  destruct v; reflexivity.
Qed.

Lemma sorted_head_min (a : Values) v0 :
  StronglySorted not_Values_Less_rev a -> head a = Some v0 ->
  Forall (fun v => Value_UnixNano v0 <= Value_UnixNano v) a.
Proof.
  intros Hs Hh. destruct a as [|v a]; [discriminate|].
  injection Hh as ->. apply StronglySorted_inv in Hs as [_ Hall].
  constructor; [lia|]. eapply Forall_impl; [exact Hall|].
  intros v Hv. apply not_Values_Less_rev_le in Hv.
  rewrite !Value_UnixNano_Time. exact Hv.
Qed.

Lemma sorted_last_max (a : Values) vl :
  StronglySorted not_Values_Less_rev a -> last a = Some vl ->
  Forall (fun v => Value_UnixNano v <= Value_UnixNano vl) a.
Proof.
  induction 1 as [|v a Hs IH Hall]; intros Hl; [constructor|].
  rewrite last_cons in Hl. destruct (last a) as [w|] eqn:Hw.
  - injection Hl as ->. specialize (IH eq_refl). constructor; [|exact IH].
    apply last_Some_elem_of in Hw. rewrite Forall_forall in Hall.
    specialize (Hall _ Hw). apply not_Values_Less_rev_le in Hall.
    rewrite !Value_UnixNano_Time. exact Hall.
  - injection Hl as ->. destruct a as [|w a]; [|rewrite last_cons in Hw;
      destruct (last a); discriminate].
    constructor; [lia|constructor].
Qed.

(** X25.  [Values.MinTime] and [Values.MaxTime] read the first and the
    last value: they return the [UnixNano] timestamp of the first value
    and of the last value.  On values in ascending time order, as the
    type asks for, these two timestamps bound the timestamp of every
    value; on no values at all both panic on the index. *)
Theorem Values_MinTime_MaxTime (a : Values) :
  StronglySorted not_Values_Less_rev a ->
  match a with
  | [] => Values_MinTime a = Panic "index out of range"
          /\ Values_MaxTime a = Panic "index out of range"
  | v0 :: _ =>
      exists vl,
        last a = Some vl
        /\ Values_MinTime a = Ok (Value_UnixNano v0)
        /\ Values_MaxTime a = Ok (Value_UnixNano vl)
        /\ Forall (fun v => Value_UnixNano v0 <= Value_UnixNano v
                            <= Value_UnixNano vl) a
  end.
Proof.
  intros Hs. destruct a as [|v0 a]; [split; reflexivity|].
  destruct (last (v0 :: a)) as [vl|] eqn:Hl.
  2:{ rewrite last_cons in Hl. destruct (last a); discriminate. }
  exists vl. split; [reflexivity|].
  unfold Values_MinTime, Values_MaxTime. rewrite Hl. cbn [head].
  rewrite !Value_UnixNano_Time. split; [reflexivity|]. split; [reflexivity|].
  pose proof (sorted_head_min _ v0 Hs eq_refl) as Hmin.
  pose proof (sorted_last_max _ vl Hs Hl) as Hmax.
  rewrite Forall_forall in Hmin, Hmax |- *. intros v Hv.
  specialize (Hmin v Hv). specialize (Hmax v Hv).
  rewrite !Value_UnixNano_Time in *. lia.
Qed.

(** ** [Deduplicate] *)

Lemma Deduplicate_fold_lookup (a : Values) : forall (m0 : gmap Z Value) k,
  fold_left (fun m val => <[Value_UnixNano val := val]> m) a m0 !! k
  = match last (filter (fun v => Value_UnixNano v = k) a) with
    | Some v => Some v
    | None => m0 !! k
    end.
Proof.
  induction a as [|v a IH]; intros m0 k; [reflexivity|].
  cbn [fold_left]. rewrite IH, filter_cons.
  destruct (decide (Value_UnixNano v = k)) as [Hk|Hk].
  - rewrite last_cons.
    destruct (last (filter (fun v => Value_UnixNano v = k) a)); [reflexivity|].
    rewrite Hk. apply lookup_insert_eq.
  - destruct (last (filter (fun v => Value_UnixNano v = k) a)); [reflexivity|].
    apply lookup_insert_ne. exact Hk.
Qed.

Lemma Deduplicate_map_lookup (a : Values) k v :
  Deduplicate_map a !! k = Some v
  <-> last (filter (fun w => Value_UnixNano w = k) a) = Some v.
Proof.
  unfold Deduplicate_map. rewrite Deduplicate_fold_lookup, lookup_empty.
  destruct (last _); split; congruence.
Qed.

Lemma Deduplicate_map_key (a : Values) k v :
  Deduplicate_map a !! k = Some v -> Value_UnixNano v = k.
Proof.
  intros Hm. apply Deduplicate_map_lookup in Hm.
  apply last_Some_elem_of, list_elem_of_filter in Hm as [Hk _]. exact Hk.
Qed.

Lemma Deduplicate_values_times (a : Values) :
  Value_UnixNano <$> (map_to_list (Deduplicate_map a)).*2
  = (map_to_list (Deduplicate_map a)).*1.
Proof.
  rewrite <- list_fmap_compose. apply list_fmap_ext.
  intros i [k v] Hi. cbn.
  apply list_elem_of_lookup_2, elem_of_map_to_list in Hi.
  apply (Deduplicate_map_key a k v Hi).
Qed.

Lemma Deduplicate_values_elem (a : Values) v :
  v ∈ (map_to_list (Deduplicate_map a)).*2
  <-> last (filter (fun w => Value_UnixNano w = Value_UnixNano v) a) = Some v.
Proof.
  rewrite list_elem_of_fmap. split.
  - intros ([k w] & -> & Hin). cbn [snd].
    apply elem_of_map_to_list in Hin.
    rewrite (Deduplicate_map_key a k w Hin).
    apply Deduplicate_map_lookup, Hin.
  - intros Hl. exists (Value_UnixNano v, v). split; [reflexivity|].
    apply elem_of_map_to_list, Deduplicate_map_lookup, Hl.
Qed.

Lemma sorted_strict (l : Values) :
  StronglySorted not_Values_Less_rev l -> NoDup (Value_UnixNano <$> l) ->
  StronglySorted time_lt l.
Proof.
  induction 1 as [|v l Hs IH Hall]; intros Hnd; [constructor|].
  rewrite fmap_cons in Hnd. apply NoDup_cons in Hnd as [Hv Hnd].
  constructor; [apply IH, Hnd|].
  rewrite Forall_forall in Hall |- *. intros w Hw.
  specialize (Hall w Hw). apply not_Values_Less_rev_le in Hall.
  rewrite <- !Value_UnixNano_Time in Hall. unfold time_lt.
  assert (Value_UnixNano v <> Value_UnixNano w).
  { intros Heq. apply Hv. rewrite Heq. apply list_elem_of_fmap.
    exists w. split; [reflexivity|exact Hw]. }
  lia.
Qed.

Lemma time_lt_unique (l1 l2 : Values) :
  StronglySorted time_lt l1 -> StronglySorted time_lt l2 -> l1 ≡ₚ l2 ->
  l1 = l2.
Proof.
  intros H1 H2 Hp. apply (StronglySorted_unique_strong time_lt); try assumption.
  intros x1 x2 _ _ Ha Hb. unfold time_lt in *. lia.
Qed.

Lemma time_lt_NoDup (l : Values) :
  StronglySorted time_lt l -> NoDup (Value_UnixNano <$> l).
Proof.
  induction 1 as [|v l Hs IH Hall]; [constructor|].
  rewrite fmap_cons. apply NoDup_cons. split; [|exact IH].
  intros Hin. apply list_elem_of_fmap in Hin as (w & Heq & Hw).
  rewrite Forall_forall in Hall. specialize (Hall w Hw).
  unfold time_lt in Hall. lia.
Qed.

Lemma NoDup_times_inj (l : Values) x y :
  NoDup (Value_UnixNano <$> l) -> x ∈ l -> y ∈ l ->
  Value_UnixNano x = Value_UnixNano y -> x = y.
Proof.
  induction l as [|v l IH]; intros Hnd Hx Hy Heq.
  - apply elem_of_nil in Hx. contradiction.
  - rewrite fmap_cons in Hnd. apply NoDup_cons in Hnd as [Hv Hnd].
    apply elem_of_cons in Hx as [->|Hx]; apply elem_of_cons in Hy as [->|Hy].
    + reflexivity.
    + exfalso. apply Hv. rewrite Heq. apply list_elem_of_fmap.
      exists y. split; [reflexivity|exact Hy].
    + exfalso. apply Hv. rewrite <- Heq. apply list_elem_of_fmap.
      exists x. split; [reflexivity|exact Hx].
    + apply IH; assumption.
Qed.

Section dedup.
Context {vsrt : ValuesSortImpl}.

Lemma Deduplicate_from_sorted (a other : Values) :
  other ≡ₚ (map_to_list (Deduplicate_map a)).*2 ->
  StronglySorted time_lt (Deduplicate_from other).
Proof.
  intros Hp. unfold Deduplicate_from. apply sorted_strict.
  - apply sort_Values_sorted.
  - rewrite sort_Values_perm, Hp, Deduplicate_values_times.
    apply NoDup_fst_map_to_list.
Qed.

(** X26.  [Deduplicate] returns the values in strictly ascending time
    order, one for each timestamp of the input: the value that comes last
    in the input among those of its timestamp.  The result is the same
    whatever order the loop over the map takes and whatever [sort.Sort]
    does with equal elements, since no two values left share a
    timestamp. *)
Theorem Deduplicate_spec (a other : Values) :
  other ≡ₚ (map_to_list (Deduplicate_map a)).*2 ->
  Deduplicate_from other = Deduplicate a
  /\ StronglySorted time_lt (Deduplicate a)
  /\ forall v,
       v ∈ Deduplicate a
       <-> last (filter (fun w => Value_UnixNano w = Value_UnixNano v) a)
           = Some v.
Proof.
  intros Hp.
  assert (Hs : StronglySorted time_lt (Deduplicate a))
    by (apply (Deduplicate_from_sorted a); reflexivity).
  split; [|split; [exact Hs|]].
  - apply time_lt_unique; [apply (Deduplicate_from_sorted a), Hp|exact Hs|].
    unfold Deduplicate, Deduplicate_from. rewrite !sort_Values_perm. exact Hp.
  - intros v. unfold Deduplicate, Deduplicate_from.
    rewrite sort_Values_perm. apply Deduplicate_values_elem.
Qed.

Lemma Deduplicate_ascending (a : Values) :
  StronglySorted time_lt a -> Deduplicate a = a.
Proof.
  intros Hs. pose proof (time_lt_NoDup a Hs) as Hnd.
  apply time_lt_unique;
    [apply (Deduplicate_from_sorted a); reflexivity|exact Hs|].
  unfold Deduplicate, Deduplicate_from. rewrite sort_Values_perm.
  apply NoDup_Permutation.
  - apply (NoDup_fmap_1 Value_UnixNano). rewrite Deduplicate_values_times.
    apply NoDup_fst_map_to_list.
  - apply (NoDup_fmap_1 Value_UnixNano), Hnd.
  - intros v. rewrite Deduplicate_values_elem. split.
    + intros Hl. apply last_Some_elem_of, list_elem_of_filter in Hl as [_ Hv].
      exact Hv.
    + intros Hv.
      destruct (last (filter (fun w => Value_UnixNano w = Value_UnixNano v) a))
        as [w|] eqn:Hl.
      * f_equal.
        apply last_Some_elem_of, list_elem_of_filter in Hl as [Hk Hw].
        apply (NoDup_times_inj a); assumption.
      * apply last_None in Hl.
        assert (Hin : v ∈ filter (fun w => Value_UnixNano w = Value_UnixNano v) a)
          by (apply list_elem_of_filter; split; [reflexivity|exact Hv]).
        rewrite Hl in Hin. apply elem_of_nil in Hin. contradiction.
Qed.

(** X27.  [Deduplicate] leaves values that are already in strictly
    ascending time order as they are, and so it is idempotent:
    deduplicating its result changes nothing. *)
Theorem Deduplicate_idempotent (a : Values) :
  Deduplicate (Deduplicate a) = Deduplicate a
  /\ (StronglySorted time_lt a -> Deduplicate a = a).
Proof.
  split; [|apply Deduplicate_ascending].
  apply Deduplicate_ascending. apply (Deduplicate_from_sorted a). reflexivity.
Qed.
End dedup.
End values_more.

Lemma Deduplicate_spec_witness :
  let a := [Int64Value 2 20; Int64Value 1 10; Int64Value 2 21] in
  Deduplicate_from (codec := plainCodec) (vsrt := valuesMergeSort)
    [Int64Value 1 10; Int64Value 2 21]
  = Deduplicate (codec := plainCodec) (vsrt := valuesMergeSort) a
  /\ StronglySorted (time_lt (codec := plainCodec))
       (Deduplicate (codec := plainCodec) (vsrt := valuesMergeSort) a)
  /\ forall v,
       v ∈ Deduplicate (codec := plainCodec) (vsrt := valuesMergeSort) a
       <-> last (filter (fun w => Value_UnixNano (codec := plainCodec) w
                                  = Value_UnixNano (codec := plainCodec) v) a)
           = Some v.
Proof.
  apply (Deduplicate_spec (codec := plainCodec) (vsrt := valuesMergeSort)
           [Int64Value 2 20; Int64Value 1 10; Int64Value 2 21]
           [Int64Value 1 10; Int64Value 2 21]).
  vm_compute. apply perm_swap.
Defined.

Lemma Values_MinTime_MaxTime_witness :
  let a := [Int64Value 3 30; Int64Value 5 50; Int64Value 8 80] in
  Values_MinTime (codec := plainCodec) a = Ok 3
  /\ Values_MaxTime (codec := plainCodec) a = Ok 8
  /\ Forall (fun v => 3 <= Value_UnixNano (codec := plainCodec) v <= 8) a.
Proof.
  destruct (Values_MinTime_MaxTime (codec := plainCodec)
              [Int64Value 3 30; Int64Value 5 50; Int64Value 8 80])
    as (vl & Hl & Hmin & Hmax & Hall).
  - repeat constructor.
  - injection Hl as <-. split; [exact Hmin|]. split; [exact Hmax|exact Hall].
Defined.

(** ** The index of a written file *)

Lemma block_at_slice {codec : BlockCodec} file e values :
  block_at file e values ->
  slice file (Offset e) (Offset e + Size e)
  = Ok (u32tob (crc32_ChecksumIEEE (encoded values)) ++ encoded values).
Proof.
  intros (pre & blk & rest & -> & Hoff & Hsz & He).
  rewrite (encoded_Ok _ _ He), <- Hoff, Hsz.
  replace (4 + len blk) with (len (u32tob (crc32_ChecksumIEEE blk) ++ blk))
    by (rewrite len_app; reflexivity).
  apply slice_app_mid.
Qed.

(** X28.  Every entry of the index that a reader loads from a written file
    locates a block that was written under its key: the [Size] bytes of
    the file at [Offset] are the big-endian CRC-32 of the encoded values
    followed by the encoded values, and [MinTime] and [MaxTime] are the
    timestamps of the first and the last of these values. *)
Theorem index_entries_locate_blocks {codec : BlockCodec} {srt : SortImpl}
    (ws : list (string * Values)) :
  Forall write_ok ws ->
  (forall key, len (blocks_under key ws) < 2 ^ 16) ->
  len (expected_file ws) < 2 ^ 63 ->
  exists file t,
    written_file ws = Ok file
    /\ NewTSMReader {| r_s := file; r_i := 0 |} = Ok t
    /\ forall key e,
         e ∈ Entries (t_index t) key ->
         exists values,
           (key, values) ∈ ws
           /\ MinTime e = first_time values /\ MaxTime e = last_time values
           /\ slice file (Offset e) (Offset e + Size e)
              = Ok (u32tob (crc32_ChecksumIEEE (encoded values))
                    ++ encoded values).
Proof.
  intros Hok Hcount Hbig.
  pose proof (len_expected_file ws) as Hlen.
  pose proof (len_nonneg (blocks_bytes ws)).
  pose proof (len_nonneg (MarshalBinary (index_of_placed ∅ (placed 5 ws))).2).
  eexists _, _. split; [apply written_file_eq; [exact Hok|lia]|].
  split; [apply reader_of_expected_file; assumption|].
  cbn [t_index]. intros key e He.
  rewrite Entries_fmap_sort, sort_Sort_perm, Entries_index_of_placed in He.
  unfold Entries in He. rewrite lookup_empty in He. cbn [from_option app] in He.
  apply list_elem_of_fmap in He as ([e' vs] & -> & He).
  apply list_elem_of_fmap in He as ([k [e2 vs2]] & Heq & He).
  cbn [fst snd] in *. injection Heq as <- <-.
  apply list_elem_of_filter in He as [Hk He]. cbn [fst] in Hk. subst k.
  destruct (elem_of_placed ws 5 _ He) as (o & Ho & Hin). cbn [fst snd] in *.
  exists vs. split; [exact Hin|]. subst e'. split; [reflexivity|].
  split; [reflexivity|].
  pose proof (placed_block_at ws (u32tob MagicNumber ++ [Version])
                ((MarshalBinary (index_of_placed ∅ (placed 5 ws))).2 ++
                 u64tob (to_uint64 (5 + len (blocks_bytes ws)))) Hok) as Hb.
  change (len (u32tob MagicNumber ++ [Version])) with 5 in Hb.
  rewrite Forall_forall in Hb. specialize (Hb _ He). cbn [fst snd] in Hb.
  apply (block_at_slice (expected_file ws)). exact Hb.
Qed.

Lemma index_entries_locate_blocks_witness :
  exists file t,
    written_file (codec := plainCodec) (srt := mergeSort) in_order_writes
    = Ok file
    /\ NewTSMReader {| r_s := file; r_i := 0 |} = Ok t
    /\ forall key e,
         e ∈ Entries (t_index t) key ->
         exists values,
           (key, values) ∈ in_order_writes
           /\ MinTime e = first_time (codec := plainCodec) values
           /\ MaxTime e = last_time (codec := plainCodec) values
           /\ slice file (Offset e) (Offset e + Size e)
              = Ok (u32tob (crc32_ChecksumIEEE (encoded (codec := plainCodec) values))
                    ++ encoded (codec := plainCodec) values).
Proof.
  apply (index_entries_locate_blocks (codec := plainCodec) (srt := mergeSort)).
  - repeat constructor; vm_compute; congruence.
  - intros key. pose proof (len_blocks_under_le key in_order_writes) as Hle.
    change (len in_order_writes) with 3 in Hle. lia.
  - vm_compute. reflexivity.
Defined.

(** ** A buffer that ends inside the length prefix *)

Lemma Uvarint_loop_unterminated buf : forall x s i,
  Forall (fun b => 128 <= byte_to_Z b) buf -> Uvarint_loop buf x s i = (0, 0).
Proof.
  induction buf as [|b buf IH]; intros x s i Hall; [reflexivity|].
  apply Forall_cons in Hall as [Hb Hall]. cbn [Uvarint_loop].
  destruct (Z.ltb_spec (byte_to_Z b) 128); [lia|]. apply IH, Hall.
Qed.

(** X29.  [unpackBlock] does not refuse a buffer that ends before the
    length prefix does.  When the buffer is at most ten bytes and every
    byte has its high bit set, which includes the empty buffer, it returns
    an empty timestamp stream and the whole buffer as the value stream. *)
Theorem unpackBlock_unterminated (buf : list byte) :
  len buf <= 10 -> Forall (fun b => 128 <= byte_to_Z b) buf ->
  unpackBlock buf = Ok ([], buf).
Proof.
  intros _ Hall. unfold unpackBlock, Uvarint.
  rewrite Uvarint_loop_unterminated by exact Hall.
  change (to_int64 (0 + to_int64 0)) with 0.
  pose proof (len_nonneg buf).
  rewrite slice_ok by lia. cbn [rbind]. unfold slice_from.
  rewrite slice_ok by lia. cbn [rbind].
  change (Z.to_nat (0 - 0)) with 0%nat. change (Z.to_nat 0) with 0%nat.
  rewrite take_0, drop_0, Z.sub_0_r.
  rewrite take_ge by (unfold len; lia). reflexivity.
Qed.

Lemma unpackBlock_unterminated_witness :
  unpackBlock [x80; xff] = Ok ([], [x80; xff]).
Proof.
  apply (unpackBlock_unterminated [x80; xff]).
  - vm_compute. discriminate.
  - repeat constructor; vm_compute; discriminate.
Defined.
